(** * Instagram embed lazy loader: a shallow embedding of
      [instagram-lazy-loader.js] and the properties of its script gate,
      its activation routine and its trigger paths.

    The script runs on the browser's main thread.  Every piece of code
    below is a macrotask handler (click, observer callback, timer, script
    load/error signal) followed by the draining of the promise reactions
    it queued.  The state holds the two module variables of the script,
    the part of the document the script reads and writes, the timers and
    the suspended [processEmbed] frames, and three ghost traces used only
    to state properties ([calls], [gate_calls], [hook_calls]).

    Two further modules embed the image lightbox of [preview.js]
    ([Preview]) and the chapter highlight, the keyboard navigation and
    the menu toggle of [main.js] ([MainJs]). *)

From stdpp Require Import base list gmap strings.
From Stdlib Require Import ZArith Lia.
From Stdlib Require QArith_base.

(** ** Configuration *)

Record Config := mkConfig {
  rootMargin : string;
  threshold_percent : nat;      (* threshold 0.01, kept as a percentage *)
  scriptSrc : string;
  maxRetries : nat;
  retryDelay : nat              (* ms *)
}.

Definition CONFIG : Config := {|
  rootMargin := "200px"%string;
  threshold_percent := 1;
  scriptSrc := "https://www.instagram.com/embed.js"%string;
  maxRetries := 3;
  retryDelay := 1000
|}.

(** ** The document *)

(** Content of the [.placeholder-overlay] element: what the page shipped,
    or the fixed markup written on terminal failure. *)
Inductive OverlayContent :=
| PageMarkup (html : string)
| ErrorAffordance.

(** The [.instagram-placeholder] element: its [style.display] and its
    overlay child, when it has one. *)
Record Placeholder := mkPlaceholder {
  display_none : bool;
  overlay : option OverlayContent
}.

(** The blockquote built by [createInstagramEmbed]; styles and the inner
    decorative markup are left out. *)
Record Blockquote := mkBlockquote {
  className : string;
  data_instgrm_captioned : string;
  data_instgrm_permalink : string;
  data_instgrm_version : string;
  link_href : string
}.

Record Rect := mkRect { top : Z; left : Z; bottom : Z; right : Z }.

Record Viewport := mkViewport {
  innerHeight : Z; innerWidth : Z;
  clientHeight : Z; clientWidth : Z
}.

(** One [.instagram-lazy-wrapper] element. *)
Record Wrapper := mkWrapper {
  data_permalink : option string;       (* getAttribute('data-permalink') *)
  placeholder : option Placeholder;     (* querySelector('.instagram-placeholder') *)
  loaded : bool;                        (* classList.contains('loaded') *)
  embeds : list Blockquote;             (* blockquotes appended so far *)
  rect : Rect                           (* getBoundingClientRect() *)
}.

(** A script element of the document.  [owner] is the promise its
    [onload]/[onerror] handlers settle; scripts put there by other page
    code have none.  [fetching] holds until one of the two signals fires. *)
Record Script := mkScript {
  src : string;
  owner : option nat;
  fetching : bool
}.

(** [window.instgrm]: absent, or present with an [Embeds.process] that
    returns or throws. *)
Inductive Hook := HookAbsent | HookWorks | HookThrows.

(** ** The runtime *)

Inductive PromiseState := Pending | Fulfilled | Rejected.

(** A [processEmbed] frame suspended at its [await]. *)
Record Cont := mkCont {
  c_promise : nat;
  c_wrapper : nat;
  c_retry : nat;
  c_permalink : string
}.

Inductive Task :=
| TRetry (w : nat) (retryCount : nat)
| THook
| TPreload.

Record Timer := mkTimer { due : nat; task : Task }.

Inductive LogEntry :=
| WarnInvalidWrapper
| ErrorScriptFailed
| ErrorScriptException
| ErrorAttempt (attempt : nat)
| ErrorMaxRetries
| ErrorHook
| WarnNoObserver.

Record State := mkState {
  (* module variables *)
  isInstagramScriptLoaded : bool;
  instagramScriptPromise : option nat;
  (* runtime *)
  promises : list PromiseState;
  awaiting : list Cont;
  timers : list Timer;
  now : nat;
  observed : gset nat;
  (* document and window *)
  has_body : bool;               (* document.body is not null *)
  scripts : list Script;
  wrappers : list Wrapper;
  buttons : list (option nat);   (* each .load-embed-btn and its closest wrapper *)
  viewport : Viewport;
  hook : Hook;
  (* console and ghost traces *)
  console : list LogEntry;
  calls : list (nat * nat * nat);  (* processEmbed invocations: wrapper, retryCount, time *)
  gate_calls : list nat;           (* promise returned by each loadInstagramScript call *)
  hook_calls : nat                 (* invocations of window.instgrm.Embeds.process *)
}.

Definition set_loaded_flag (b : bool) (s : State) : State :=
  mkState b (instagramScriptPromise s) (promises s) (awaiting s) (timers s)
    (now s) (observed s) (has_body s) (scripts s) (wrappers s) (buttons s)
    (viewport s) (hook s) (console s) (calls s) (gate_calls s) (hook_calls s).

Definition set_promise (p : option nat) (s : State) : State :=
  mkState (isInstagramScriptLoaded s) p (promises s) (awaiting s) (timers s)
    (now s) (observed s) (has_body s) (scripts s) (wrappers s) (buttons s)
    (viewport s) (hook s) (console s) (calls s) (gate_calls s) (hook_calls s).

Definition set_promises (ps : list PromiseState) (s : State) : State :=
  mkState (isInstagramScriptLoaded s) (instagramScriptPromise s) ps (awaiting s)
    (timers s) (now s) (observed s) (has_body s) (scripts s) (wrappers s)
    (buttons s) (viewport s) (hook s) (console s) (calls s) (gate_calls s)
    (hook_calls s).

Definition set_awaiting (cs : list Cont) (s : State) : State :=
  mkState (isInstagramScriptLoaded s) (instagramScriptPromise s) (promises s) cs
    (timers s) (now s) (observed s) (has_body s) (scripts s) (wrappers s)
    (buttons s) (viewport s) (hook s) (console s) (calls s) (gate_calls s)
    (hook_calls s).

Definition set_timers (ts : list Timer) (s : State) : State :=
  mkState (isInstagramScriptLoaded s) (instagramScriptPromise s) (promises s)
    (awaiting s) ts (now s) (observed s) (has_body s) (scripts s) (wrappers s)
    (buttons s) (viewport s) (hook s) (console s) (calls s) (gate_calls s)
    (hook_calls s).

Definition set_now (t : nat) (s : State) : State :=
  mkState (isInstagramScriptLoaded s) (instagramScriptPromise s) (promises s)
    (awaiting s) (timers s) t (observed s) (has_body s) (scripts s) (wrappers s)
    (buttons s) (viewport s) (hook s) (console s) (calls s) (gate_calls s)
    (hook_calls s).

Definition set_observed (o : gset nat) (s : State) : State :=
  mkState (isInstagramScriptLoaded s) (instagramScriptPromise s) (promises s)
    (awaiting s) (timers s) (now s) o (has_body s) (scripts s) (wrappers s)
    (buttons s) (viewport s) (hook s) (console s) (calls s) (gate_calls s)
    (hook_calls s).

Definition set_scripts (l : list Script) (s : State) : State :=
  mkState (isInstagramScriptLoaded s) (instagramScriptPromise s) (promises s)
    (awaiting s) (timers s) (now s) (observed s) (has_body s) l (wrappers s)
    (buttons s) (viewport s) (hook s) (console s) (calls s) (gate_calls s)
    (hook_calls s).

Definition set_wrappers (l : list Wrapper) (s : State) : State :=
  mkState (isInstagramScriptLoaded s) (instagramScriptPromise s) (promises s)
    (awaiting s) (timers s) (now s) (observed s) (has_body s) (scripts s) l
    (buttons s) (viewport s) (hook s) (console s) (calls s) (gate_calls s)
    (hook_calls s).

Definition set_viewport (v : Viewport) (s : State) : State :=
  mkState (isInstagramScriptLoaded s) (instagramScriptPromise s) (promises s)
    (awaiting s) (timers s) (now s) (observed s) (has_body s) (scripts s)
    (wrappers s) (buttons s) v (hook s) (console s) (calls s) (gate_calls s)
    (hook_calls s).

Definition set_hook (h : Hook) (s : State) : State :=
  mkState (isInstagramScriptLoaded s) (instagramScriptPromise s) (promises s)
    (awaiting s) (timers s) (now s) (observed s) (has_body s) (scripts s)
    (wrappers s) (buttons s) (viewport s) h (console s) (calls s) (gate_calls s)
    (hook_calls s).

Definition set_console (l : list LogEntry) (s : State) : State :=
  mkState (isInstagramScriptLoaded s) (instagramScriptPromise s) (promises s)
    (awaiting s) (timers s) (now s) (observed s) (has_body s) (scripts s)
    (wrappers s) (buttons s) (viewport s) (hook s) l (calls s) (gate_calls s)
    (hook_calls s).

Definition set_calls (l : list (nat * nat * nat)) (s : State) : State :=
  mkState (isInstagramScriptLoaded s) (instagramScriptPromise s) (promises s)
    (awaiting s) (timers s) (now s) (observed s) (has_body s) (scripts s)
    (wrappers s) (buttons s) (viewport s) (hook s) (console s) l (gate_calls s)
    (hook_calls s).

Definition set_gate_calls (l : list nat) (s : State) : State :=
  mkState (isInstagramScriptLoaded s) (instagramScriptPromise s) (promises s)
    (awaiting s) (timers s) (now s) (observed s) (has_body s) (scripts s)
    (wrappers s) (buttons s) (viewport s) (hook s) (console s) (calls s) l
    (hook_calls s).

Definition set_hook_calls (n : nat) (s : State) : State :=
  mkState (isInstagramScriptLoaded s) (instagramScriptPromise s) (promises s)
    (awaiting s) (timers s) (now s) (observed s) (has_body s) (scripts s)
    (wrappers s) (buttons s) (viewport s) (hook s) (console s) (calls s)
    (gate_calls s) n.

(** [console.warn] / [console.error]. *)
Definition log (e : LogEntry) (s : State) : State :=
  set_console (console s ++ [e]) s.

(** [setTimeout(task, delay)]. *)
Definition setTimeout (tk : Task) (delay : nat) (s : State) : State :=
  set_timers (timers s ++ [mkTimer (now s + delay) tk]) s.

(** [resolve()] and [reject()] of promise [p]: a settled promise stays as
    it is. *)
Definition settle (p : nat) (st : PromiseState) (s : State) : State :=
  match promises s !! p with
  | Some Pending => set_promises (<[p := st]> (promises s)) s
  | _ => s
  end.

Definition is_settled (s : State) (p : nat) : bool :=
  match promises s !! p with
  | Some Fulfilled | Some Rejected => true
  | _ => false
  end.

(** [new Promise(...)]: the fresh promise is the next index of the store. *)
Definition new_promise (st : PromiseState) (s : State) : State * nat :=
  (set_promises (promises s ++ [st]) s, length (promises s)).

(** ** The script, parameterised by its configuration object *)

Section Loader.

Variable cfg : Config.

(** *** loadInstagramScript: the script dependency gate *)

(** [document.querySelector('script[src=...]')] finds an element. *)
Definition script_present (s : State) : bool :=
  existsb (fun sc => String.eqb (src sc) (scriptSrc cfg)) (scripts s).

Definition record_gate_call (p : nat) (s : State) : State :=
  set_gate_calls (gate_calls s ++ [p]) s.

(** The executor passed to [new Promise] runs synchronously; the
    assignment to [instagramScriptPromise] happens once it has returned,
    so it also overwrites the [null] written by the [catch] branch.
    The [try] block throws when [document.body] is null; any other
    exception raised while the element is built takes the same path. *)
Definition loadInstagramScript (s : State) : State * nat :=
  match instagramScriptPromise s with
  | Some p => (record_gate_call p s, p)
  | None =>
    if isInstagramScriptLoaded s then
      let '(s1, p) := new_promise Fulfilled s in (record_gate_call p s1, p)
    else
      let p := length (promises s) in
      let s1 :=
        if script_present s then
          set_loaded_flag true (fst (new_promise Fulfilled s))
        else if has_body s then
          set_scripts (scripts s ++ [mkScript (scriptSrc cfg) (Some p) true])
            (fst (new_promise Pending s))
        else
          (* document.body is null: appendChild throws into the catch *)
          set_promise None (log ErrorScriptException (fst (new_promise Rejected s)))
      in
      (record_gate_call p (set_promise (Some p) s1), p)
  end.

(** [script.onload] of script element [i], an element the gate created;
    running the third-party script is what defines [window.instgrm],
    here [h].  [fetching] only records that the element has signalled. *)
Definition scriptOnload (i : nat) (h : Hook) (s : State) : State :=
  match scripts s !! i with
  | Some sc =>
    match owner sc with
    | Some p =>
      let s := set_scripts (<[i := mkScript (src sc) (owner sc) false]> (scripts s)) s in
      let s := set_hook h s in
      settle p Fulfilled (set_loaded_flag true s)
    | None => s
    end
  | None => s
  end.

(** [script.onerror] of script element [i].  The element stays in the
    document. *)
Definition scriptOnerror (i : nat) (s : State) : State :=
  match scripts s !! i with
  | Some sc =>
    match owner sc with
    | Some p =>
      let s := set_scripts (<[i := mkScript (src sc) (owner sc) false]> (scripts s)) s in
      let s := log ErrorScriptFailed s in
      settle p Rejected (set_promise None s)
    | None => s
    end
  | None => s
  end.

(** *** createInstagramEmbed *)

Definition createInstagramEmbed (permalink : string) : Blockquote := {|
  className := "instagram-media"%string;
  data_instgrm_captioned := EmptyString;
  data_instgrm_permalink := permalink;
  data_instgrm_version := "14"%string;
  link_href := permalink
|}.

(** *** processEmbed *)

(** [!permalink]: a missing attribute and the empty string are both falsy. *)
Definition truthy_permalink (a : option string) : option string :=
  match a with
  | Some EmptyString => None
  | Some v => Some v
  | None => None
  end.

Definition record_call (w retryCount : nat) (s : State) : State :=
  set_calls (calls s ++ [(w, retryCount, now s)]) s.

(** The part of [processEmbed] that runs up to the [await].  [w] is the
    index of the element the caller holds; an index that denotes no
    element stands for no call at all. *)
Definition processEmbed (w retryCount : nat) (s : State) : State :=
  match wrappers s !! w with
  | None => s
  | Some W =>
    let s := record_call w retryCount s in
    match truthy_permalink (data_permalink W), placeholder W with
    | Some permalink, Some _ =>
      let '(s1, p) := loadInstagramScript s in
      set_awaiting (awaiting s1 ++ [mkCont p w retryCount permalink]) s1
    | _, _ => log WarnInvalidWrapper s
    end
  end.

Definition hook_present (h : Hook) : bool :=
  match h with HookAbsent => false | _ => true end.

(** After the [await], on fulfilment: hide the placeholder, append the
    embed, add the [loaded] class, schedule the hook when it is there. *)
Definition attach_embed (permalink : string) (W : Wrapper) : Wrapper := {|
  data_permalink := data_permalink W;
  placeholder :=
    match placeholder W with
    | Some ph => Some (mkPlaceholder true (overlay ph))
    | None => None
    end;
  loaded := true;
  embeds := embeds W ++ [createInstagramEmbed permalink];
  rect := rect W
|}.

Definition processEmbed_success (c : Cont) (s : State) : State :=
  let s := set_wrappers (alter (attach_embed (c_permalink c)) (c_wrapper c) (wrappers s)) s in
  if hook_present (hook s) then setTimeout THook 100 s else s.

(** The error state written on terminal failure. *)
Definition show_error (W : Wrapper) : Wrapper :=
  match placeholder W with
  | Some ph =>
    match overlay ph with
    | Some _ =>
      mkWrapper (data_permalink W)
        (Some (mkPlaceholder (display_none ph) (Some ErrorAffordance)))
        (loaded W) (embeds W) (rect W)
    | None => W
    end
  | None => W
  end.

(** The [catch] block of [processEmbed]. *)
Definition processEmbed_catch (w retryCount : nat) (s : State) : State :=
  let s := log (ErrorAttempt (retryCount + 1)) s in
  if retryCount <? maxRetries cfg then
    setTimeout (TRetry w (retryCount + 1)) (retryDelay cfg * (retryCount + 1)) s
  else
    let s := log ErrorMaxRetries s in
    set_wrappers (alter show_error w (wrappers s)) s.

(** Resumption of a suspended frame once its promise is settled. *)
Definition processEmbed_resume (c : Cont) (s : State) : State :=
  match promises s !! c_promise c with
  | Some Fulfilled => processEmbed_success c s
  | Some Rejected => processEmbed_catch (c_wrapper c) (c_retry c) s
  | _ => s
  end.

(** The microtask checkpoint at the end of a macrotask: every frame whose
    promise is settled resumes, in the order the frames were suspended. *)
Definition drain (s : State) : State :=
  let ready := List.filter (fun c => is_settled s (c_promise c)) (awaiting s) in
  let rest := List.filter (fun c => negb (is_settled s (c_promise c))) (awaiting s) in
  foldl (fun st c => processEmbed_resume c st) (set_awaiting rest s) ready.

(** *** The hook callback scheduled 100 ms after an insertion *)

(** What [Embeds.process] does to the document is the third party's and
    is not modelled; the callback counts the invocation and logs an
    exception. *)

Definition hookCallback (s : State) : State :=
  match hook s with
  | HookWorks => set_hook_calls (S (hook_calls s)) s
  | HookThrows => log ErrorHook (set_hook_calls (S (hook_calls s)) s)
  | HookAbsent => log ErrorHook s      (* TypeError on window.instgrm.Embeds *)
  end.

(** *** Manual load buttons *)

Definition wrapper_loaded (s : State) (w : nat) : bool :=
  match wrappers s !! w with
  | Some W => loaded W
  | None => false
  end.

(** The click listener of button [b]. *)
Definition manualClick (b : nat) (s : State) : State :=
  match buttons s !! b with
  | Some (Some w) => if negb (wrapper_loaded s w) then processEmbed w 0 s else s
  | _ => s
  end.

(** *** Intersection observer *)

Definition unobserve (w : nat) (s : State) : State :=
  set_observed (observed s ∖ {[w]}) s.

(** Body of the [entries.forEach] of the observer callback. *)
Definition observerEntry (s : State) (e : nat * bool) : State :=
  let '(w, isIntersecting) := e in
  if isIntersecting then
    let s := if negb (wrapper_loaded s w) then processEmbed w 0 s else s in
    unobserve w s
  else s.

Definition observerCallback (entries : list (nat * bool)) (s : State) : State :=
  foldl observerEntry s entries.

Definition all_wrappers (s : State) : list nat := seq 0 (length (wrappers s)).

Definition initLazyLoading (io_supported : bool) (s : State) : State :=
  match wrappers s with
  | [] => s
  | _ =>
    if negb io_supported then
      foldl (fun st w => processEmbed w 0 st) (log WarnNoObserver s) (all_wrappers s)
    else
      set_observed (list_to_set (all_wrappers s)) s
  end.

(** *** Preload of the embeds already in the viewport *)

(** [a || b] on numbers. *)
Definition or_else (a b : Z) : Z := if (a =? 0)%Z then b else a.

Definition isVisible (r : Rect) (v : Viewport) : bool :=
  (0 <=? top r)%Z && (0 <=? left r)%Z &&
  (bottom r <=? or_else (innerHeight v) (clientHeight v))%Z &&
  (right r <=? or_else (innerWidth v) (clientWidth v))%Z.

(** Body of the [wrappers.forEach] of [preloadVisibleEmbeds]. *)
Definition preloadEntry (s : State) (w : nat) : State :=
  match wrappers s !! w with
  | Some W =>
    if isVisible (rect W) (viewport s) && negb (loaded W)
    then processEmbed w 0 s else s
  | None => s
  end.

Definition preloadVisibleEmbeds (s : State) : State :=
  foldl preloadEntry s (all_wrappers s).

(** *** Timers *)

(** The timer that fires next: the earliest due, the oldest among equals. *)
Fixpoint pop_timer (ts : list Timer) : option (Timer * list Timer) :=
  match ts with
  | [] => None
  | t :: rest =>
    match pop_timer rest with
    | None => Some (t, [])
    | Some (t', rest') =>
      if due t <=? due t' then Some (t, rest) else Some (t', t :: rest')
    end
  end.

Definition run_task (tk : Task) (s : State) : State :=
  match tk with
  | TRetry w retryCount => processEmbed w retryCount s
  | THook => hookCallback s
  | TPreload => preloadVisibleEmbeds s
  end.

Definition fireTimer (s : State) : State :=
  match pop_timer (timers s) with
  | None => s
  | Some (t, rest) =>
    run_task (task t) (set_now (Nat.max (now s) (due t)) (set_timers rest s))
  end.

(** *** The page and its events *)

Record Page := mkPage {
  p_wrappers : list Wrapper;
  p_buttons : list (option nat);
  p_scripts : list string;         (* src of the scripts already in the document *)
  p_has_body : bool;
  p_viewport : Viewport;
  p_hook : Hook;
  p_io_supported : bool            (* 'IntersectionObserver' in window *)
}.

Definition boot (pg : Page) : State := {|
  isInstagramScriptLoaded := false;
  instagramScriptPromise := None;
  promises := [];
  awaiting := [];
  timers := [];
  now := 0;
  observed := ∅;
  has_body := p_has_body pg;
  scripts := map (fun u => mkScript u None false) (p_scripts pg);
  wrappers := p_wrappers pg;
  buttons := p_buttons pg;
  viewport := p_viewport pg;
  hook := p_hook pg;
  console := [];
  calls := [];
  gate_calls := [];
  hook_calls := 0
|}.

(** [init]: the listeners of [initManualLoadButtons] and of the window
    [load] event are the [EvClick] and [EvWindowLoad] handlers below. *)
Definition init (pg : Page) : State :=
  drain (initLazyLoading (p_io_supported pg) (boot pg)).

Fixpoint set_rects (rs : list Rect) (ws : list Wrapper) : list Wrapper :=
  match rs, ws with
  | r :: rs', W :: ws' =>
    mkWrapper (data_permalink W) (placeholder W) (loaded W) (embeds W) r
      :: set_rects rs' ws'
  | _, _ => ws
  end.

Inductive Event :=
| EvClick (b : nat)
| EvIntersection (entries : list (nat * bool))
| EvWindowLoad
| EvTimer
| EvAdvance (dt : nat)
| EvScriptLoad (i : nat) (h : Hook)
| EvScriptError (i : nat)
| EvLayout (v : Viewport) (rs : list Rect).

(** The observer only reports targets it observes. *)
Definition entries_observed (s : State) (entries : list (nat * bool)) : bool :=
  forallb (fun e => bool_decide (fst e ∈ observed s)) entries.

(** The browser signals load or error once per fetch: it delivers a
    signal only for an element whose fetch has not been signalled yet. *)
Definition signal_due (s : State) (i : nat) : bool :=
  match scripts s !! i with
  | Some sc => fetching sc
  | None => false
  end.

Definition handle (ev : Event) (s : State) : State :=
  match ev with
  | EvClick b => manualClick b s
  | EvIntersection entries =>
    if entries_observed s entries then observerCallback entries s else s
  | EvWindowLoad => setTimeout TPreload 500 s
  | EvTimer => fireTimer s
  | EvAdvance dt => set_now (now s + dt) s
  | EvScriptLoad i h => if signal_due s i then scriptOnload i h s else s
  | EvScriptError i => if signal_due s i then scriptOnerror i s else s
  | EvLayout v rs => set_wrappers (set_rects rs (wrappers s)) (set_viewport v s)
  end.

(** One macrotask: the handler, then the microtask checkpoint. *)
Definition step (s : State) (ev : Event) : State := drain (handle ev s).

Definition run (evs : list Event) (s : State) : State := foldl step s evs.

(** Firing timers only, at most [fuel] of them. *)
Fixpoint run_timers (fuel : nat) (s : State) : State :=
  match fuel with
  | 0 => s
  | S fuel' =>
    match timers s with
    | [] => s
    | _ => run_timers fuel' (step s EvTimer)
    end
  end.

End Loader.

(** ** Sample pages *)

Definition sample_viewport : Viewport := mkViewport 800 1200 800 1200.

(** A well-formed wrapper, fully inside the sample viewport. *)
Definition sample_wrapper : Wrapper := {|
  data_permalink := Some "https://www.instagram.com/p/abc/"%string;
  placeholder := Some (mkPlaceholder false (Some (PageMarkup "View Instagram Post"%string)));
  loaded := false;
  embeds := [];
  rect := mkRect 10 10 400 400
|}.

(** A wrapper without the permalink attribute. *)
Definition broken_wrapper : Wrapper := {|
  data_permalink := None;
  placeholder := Some (mkPlaceholder false None);
  loaded := false;
  embeds := [];
  rect := mkRect 900 10 1300 400
|}.

(** One wrapper with a manual button; an observer is available. *)
Definition sample_page : Page := {|
  p_wrappers := [sample_wrapper];
  p_buttons := [Some 0];
  p_scripts := [];
  p_has_body := true;
  p_viewport := sample_viewport;
  p_hook := HookAbsent;
  p_io_supported := true
|}.

(** The same page in a document whose body is missing: every call of the
    gate rejects. *)
Definition bodyless_page : Page := {|
  p_wrappers := [sample_wrapper];
  p_buttons := [Some 0];
  p_scripts := [];
  p_has_body := false;
  p_viewport := sample_viewport;
  p_hook := HookAbsent;
  p_io_supported := true
|}.

(** A page on which other code already put the embed script. *)
Definition prefetched_page : Page := {|
  p_wrappers := [sample_wrapper; broken_wrapper];
  p_buttons := [Some 0; None];
  p_scripts := ["https://www.instagram.com/embed.js"%string];
  p_has_body := true;
  p_viewport := sample_viewport;
  p_hook := HookWorks;
  p_io_supported := true
|}.

(** The invocations of [processEmbed] on wrapper [w]. *)
Definition calls_of (w : nat) (s : State) : list (nat * nat * nat) :=
  List.filter (fun c => Nat.eqb (fst (fst c)) w) (calls s).

(** The blockquotes attached to wrapper [w]. *)
Definition embeds_of (w : nat) (s : State) : list Blockquote :=
  match wrappers s !! w with
  | Some W => embeds W
  | None => []
  end.

(** The script elements the gate itself appended. *)
Definition injected (s : State) : list Script :=
  List.filter (fun sc => bool_decide (is_Some (owner sc))) (scripts s).

(** The attempts of one activation that always fails: attempt
    [retryCount] at time [t], the next one [delay * (retryCount + 1)]
    later, [n] attempts in all. *)
Fixpoint retry_schedule (delay w retryCount t n : nat) : list (nat * nat * nat) :=
  match n with
  | 0 => []
  | S n' =>
    (w, retryCount, t)
      :: retry_schedule delay w (S retryCount) (t + delay * (S retryCount)) n'
  end.

(** The gate answers every call with one and the same rejected promise. *)
Definition gate_rejecting (s : State) : Prop :=
  exists p, instagramScriptPromise s = Some p /\ promises s !! p = Some Rejected.

Definition is_script_error (ev : Event) : bool :=
  match ev with EvScriptError _ => true | _ => false end.

(** A load or error signal of a script element. *)
Definition is_signal (ev : Event) : bool :=
  match ev with EvScriptLoad _ _ | EvScriptError _ => true | _ => false end.


(** Every call of the gate fails: the cached promise is rejected, or no
    call was made yet and the first one will hit the missing body. *)
Definition gate_failing (cfg : Config) (s : State) : Prop :=
  gate_rejecting s \/
  (instagramScriptPromise s = None /\ isInstagramScriptLoaded s = false /\
   script_present cfg s = false /\ has_body s = false).

(** A node that passes the validation of processEmbed. *)
Definition well_formed (s : State) (w : nat) : Prop :=
  exists W permalink ph,
    wrappers s !! w = Some W /\
    truthy_permalink (data_permalink W) = Some permalink /\
    placeholder W = Some ph.


(** While no fetch has failed: before the first call of the gate nothing
    was injected; afterwards every call returned the promise held by
    [instagramScriptPromise] and at most one element was injected. *)
Definition gate_inv (s : State) : Prop :=
  match instagramScriptPromise s with
  | None =>
    isInstagramScriptLoaded s = false /\ gate_calls s = [] /\ injected s = []
  | Some p =>
    Forall (eq p) (gate_calls s) /\ length (injected s) <= 1
  end.

(** Every suspended frame waits on a promise that a call of the gate
    returned, for a node of the page. *)
Definition frames_inv (s : State) : Prop :=
  Forall (fun c => c_promise c ∈ gate_calls s /\ c_wrapper c < length (wrappers s))
    (awaiting s).

(** Two states with the same gate variables, gate trace and scripts. *)
Definition same_gate (s s' : State) : Prop :=
  instagramScriptPromise s' = instagramScriptPromise s /\
  isInstagramScriptLoaded s' = isInstagramScriptLoaded s /\
  gate_calls s' = gate_calls s /\
  scripts s' = scripts s.

(** ** Definitions used by the further properties *)

(** The part of the state the gate reads and writes. *)
Definition gate_view (s : State) :
  option nat * bool * list PromiseState * list Script * list nat * bool :=
  (instagramScriptPromise s, isInstagramScriptLoaded s, promises s, scripts s,
   gate_calls s, has_body s).

(** What holds of the scripts on every page, whatever happened: the gate
    appended at most one element, with the configured src, and while its
    fetch is in flight the gate holds its promise, still pending. *)
Definition scripts_inv (cfg : Config) (s : State) : Prop :=
  length (injected s) <= 1 /\
  Forall (fun sc => is_Some (owner sc) -> src sc = scriptSrc cfg) (scripts s) /\
  Forall (fun sc => forall q, owner sc = Some q -> fetching sc = true ->
            instagramScriptPromise s = Some q /\ promises s !! q = Some Pending)
    (scripts s).

(** The gate holds promise [p], whose state is [st], and the scripts are [l]. *)
Definition cache_settled (p : nat) (st : PromiseState) (l : list Script) (s : State) : Prop :=
  instagramScriptPromise s = Some p /\ promises s !! p = Some st /\ scripts s = l.

(** A page without an intersection observer, with a well-formed and a
    malformed node. *)
Definition legacy_page : Page := {|
  p_wrappers := [sample_wrapper; broken_wrapper];
  p_buttons := [];
  p_scripts := [];
  p_has_body := true;
  p_viewport := sample_viewport;
  p_hook := HookAbsent;
  p_io_supported := false
|}.

(** The part of the state that holds the nodes and the suspended frames. *)
Definition dom_view (s : State) : list Wrapper * list Cont :=
  (wrappers s, awaiting s).

(** A suspended frame belongs to a node that passed the validation of
    processEmbed, and holds the permalink of that node. *)
Definition frame_ok (ws : list Wrapper) (c : Cont) : Prop :=
  exists W ph,
    ws !! c_wrapper c = Some W /\
    truthy_permalink (data_permalink W) = Some (c_permalink c) /\
    placeholder W = Some ph.

(** What the script keeps true of a node it found without the loaded
    class and without a blockquote. *)
Definition node_ok (W : Wrapper) : Prop :=
  Forall (fun e => data_permalink W = Some (data_instgrm_permalink e) /\
                   e = createInstagramEmbed (data_instgrm_permalink e))
    (embeds W) /\
  (loaded W = true <-> embeds W <> []) /\
  (loaded W = true -> exists ph, placeholder W = Some ph /\ display_none ph = true).

Definition dom_inv (s : State) : Prop :=
  Forall (frame_ok (wrappers s)) (awaiting s) /\ Forall node_ok (wrappers s).

(** No node of the page has the loaded class or a blockquote yet. *)
Definition fresh_page (pg : Page) : Prop :=
  Forall (fun W => loaded W = false /\ embeds W = []) (p_wrappers pg).

(** Everything of a node but its rectangle. *)
Definition node_core (W : Wrapper) :
  option string * option Placeholder * bool * list Blockquote :=
  (data_permalink W, placeholder W, loaded W, embeds W).

(** Node [w] is as the page shipped it (up to layout) and no frame is
    suspended for it. *)
Definition untouched (w : nat) (W0 : Wrapper) (s : State) : Prop :=
  (exists W, wrappers s !! w = Some W /\ node_core W = node_core W0) /\
  Forall (fun c => c_wrapper c <> w) (awaiting s).

(** The test of preloadVisibleEmbeds on node [w]. *)
Definition preload_target (s : State) (w : nat) : bool :=
  match wrappers s !! w with
  | Some W => isVisible (rect W) (viewport s) && negb (loaded W)
  | None => false
  end.

(** A node that fails the validation of processEmbed. *)
Definition malformed (W : Wrapper) : Prop :=
  truthy_permalink (data_permalink W) = None \/ placeholder W = None.

(** * The image lightbox of [preview.js] *)

Module Preview.

(** An image matched by '.collage-grid img, .single-image-container img'.
    [img_caption] is [None] when the image has no '.single-image-container'
    ancestor, [Some None] when that container has no '.image-caption',
    and [Some (Some t)] when it has one with text [t]. *)
Record Image := mkImage {
  img_src : string;
  img_alt : string;
  img_caption : option (option string);
  img_role : option string;
  img_tabindex : option string;
  img_aria_label : option string
}.

(** [style.display] of an element: the empty string, 'none', or what
    the page shipped. *)
Inductive Display := DisplayEmpty | DisplayNone | DisplayPage.

Inductive Focus := FocusElsewhere | FocusCloseButton | FocusImage (i : nat).

(** The children of '#imageLightbox' the script looks for. *)
Record Parts := mkParts {
  has_img : bool; has_caption : bool; has_counter : bool;
  has_close : bool; has_prev : bool; has_next : bool
}.

Record State := mkState {
  (* module variables *)
  currentIndex : Z;
  previewableImages : list Image;
  lightbox : bool;              (* not null *)
  lightboxImg : bool;
  lightboxCaption : bool;
  lightboxCounter : bool;
  touchStartX : Z;
  listening : bool;             (* initPreview attached its listeners *)
  (* document *)
  dom_lightbox : option Parts;  (* getElementById('imageLightbox') *)
  dom_images : list Image;
  active : bool;                (* classList.contains('active') *)
  aria_hidden : option string;
  body_overflow : string;
  shown_src : string;
  shown_alt : string;
  caption_text : string;
  counter_text : option (Z * Z);  (* (a, b) for the text a ' / ' b *)
  counter_display : Display;
  prev_display : Display;
  next_display : Display;
  focus : Focus
}.

Definition part (f : Parts -> bool) (st : State) : bool :=
  match dom_lightbox st with
  | Some ps => f ps
  | None => false
  end.

Definition count (st : State) : Z := Z.of_nat (length (previewableImages st)).

(** [a || b] on strings. *)
Definition str_or (a b : string) : string :=
  match a with EmptyString => b | _ => a end.

Definition set_index (i : Z) (st : State) : State :=
  mkState i (previewableImages st) (lightbox st) (lightboxImg st) (lightboxCaption st)
    (lightboxCounter st) (touchStartX st) (listening st) (dom_lightbox st) (dom_images st)
    (active st) (aria_hidden st) (body_overflow st) (shown_src st) (shown_alt st)
    (caption_text st) (counter_text st) (counter_display st) (prev_display st)
    (next_display st) (focus st).

Definition set_touch (x : Z) (st : State) : State :=
  mkState (currentIndex st) (previewableImages st) (lightbox st) (lightboxImg st)
    (lightboxCaption st) (lightboxCounter st) x (listening st) (dom_lightbox st)
    (dom_images st) (active st) (aria_hidden st) (body_overflow st) (shown_src st)
    (shown_alt st) (caption_text st) (counter_text st) (counter_display st)
    (prev_display st) (next_display st) (focus st).

(** The caption shown for an image: the text of the nearby caption
    element when there is one, the alt text otherwise. *)
Definition caption_of (img : Image) : string :=
  match img_caption img with
  | Some (Some t) => t
  | _ => str_or (img_alt img) EmptyString
  end.

Definition nav_display (st : State) : Display :=
  if (1 <? count st)%Z then DisplayEmpty else DisplayNone.

(** [updateLightboxContent]; [None] is the TypeError raised by [img.src]
    when the index denotes no image, before anything is written. *)
Definition updateLightboxContent (st : State) : option State :=
  if negb (lightboxImg st) || (currentIndex st <? 0)%Z then Some st
  else
    match previewableImages st !! Z.to_nat (currentIndex st) with
    | None => None
    | Some img =>
      Some (mkState (currentIndex st) (previewableImages st) (lightbox st)
              (lightboxImg st) (lightboxCaption st) (lightboxCounter st)
              (touchStartX st) (listening st) (dom_lightbox st) (dom_images st)
              (active st) (aria_hidden st) (body_overflow st)
              (img_src img)
              (str_or (img_alt img) EmptyString)
              (if lightboxCaption st then caption_of img else caption_text st)
              (if lightboxCounter st then Some ((currentIndex st + 1)%Z, count st)
               else counter_text st)
              (if lightboxCounter st then nav_display st else counter_display st)
              (if part has_prev st then nav_display st else prev_display st)
              (if part has_next st then nav_display st else next_display st)
              (focus st))
    end.

(** A listener whose callee throws stops there: what was written before
    the exception stays. *)
Definition or_thrown (st : State) (r : option State) : State :=
  match r with Some st' => st' | None => st end.

Definition openLightbox (index : nat) (st : State) : State :=
  if negb (lightbox st) || negb (lightboxImg st) then st
  else
    let st1 := set_index (Z.of_nat index) st in
    match updateLightboxContent st1 with
    | None => st1
    | Some st2 =>
      mkState (currentIndex st2) (previewableImages st2) (lightbox st2) (lightboxImg st2)
        (lightboxCaption st2) (lightboxCounter st2) (touchStartX st2) (listening st2)
        (dom_lightbox st2) (dom_images st2)
        true (Some "false"%string) "hidden"%string
        (shown_src st2) (shown_alt st2) (caption_text st2) (counter_text st2)
        (counter_display st2) (prev_display st2) (next_display st2)
        (if part has_close st2 then FocusCloseButton else focus st2)
    end.

Definition closeLightbox (st : State) : State :=
  if negb (lightbox st) then st
  else
    mkState (-1)%Z (previewableImages st) (lightbox st) (lightboxImg st)
      (lightboxCaption st) (lightboxCounter st) (touchStartX st) (listening st)
      (dom_lightbox st) (dom_images st)
      false (Some "true"%string) EmptyString
      (shown_src st) (shown_alt st) (caption_text st) (counter_text st)
      (counter_display st) (prev_display st) (next_display st)
      (if (0 <=? currentIndex st)%Z
       then match previewableImages st !! Z.to_nat (currentIndex st) with
            | Some _ => FocusImage (Z.to_nat (currentIndex st))
            | None => focus st
            end
       else focus st).

(** JavaScript's [%] on integers is the remainder that takes the sign of
    the dividend, [Z.rem]. *)
Definition showPrev (st : State) : State :=
  if (count st =? 0)%Z then st
  else
    let st1 := set_index (Z.rem (currentIndex st - 1 + count st) (count st)) st in
    or_thrown st1 (updateLightboxContent st1).

Definition showNext (st : State) : State :=
  if (count st =? 0)%Z then st
  else
    let st1 := set_index (Z.rem (currentIndex st + 1) (count st)) st in
    or_thrown st1 (updateLightboxContent st1).

Inductive Key := KeyEnter | KeySpace | KeyEscape | KeyArrowLeft | KeyArrowRight | KeyOther.

Definition handleKeydown (k : Key) (st : State) : State :=
  if negb (lightbox st) || negb (active st) then st
  else
    match k with
    | KeyEscape => closeLightbox st
    | KeyArrowLeft => showPrev st
    | KeyArrowRight => showNext st
    | _ => st
    end.

(** The keydown listener of image [index]. *)
Definition imageKeydown (index : nat) (k : Key) (st : State) : State :=
  match k with
  | KeyEnter | KeySpace => openLightbox index st
  | _ => st
  end.

(** The touchend listener: a swipe of more than 50 pixels. *)
Definition touchEnd (touchEndX : Z) (st : State) : State :=
  let diff := (touchStartX st - touchEndX)%Z in
  if (50 <? Z.abs diff)%Z then
    if (0 <? diff)%Z then showNext st else showPrev st
  else st.

Definition label_image (img : Image) : Image :=
  mkImage (img_src img) (img_alt img) (img_caption img)
    (Some "button"%string) (Some "0"%string)
    (Some (String.append "View full size: " (str_or (img_alt img) "Image"))).

Definition initPreview (st : State) : State :=
  match dom_lightbox st with
  | None => st      (* the variable lightbox is set to null *)
  | Some ps =>
    let imgs := map label_image (dom_images st) in   (* the forEach over the images *)
    mkState (currentIndex st) imgs true (has_img ps) (has_caption ps) (has_counter ps)
      (touchStartX st)
      (match imgs with [] => false | _ => true end)
      (dom_lightbox st)
      imgs
      (active st) (aria_hidden st) (body_overflow st) (shown_src st) (shown_alt st)
      (caption_text st) (counter_text st) (counter_display st) (prev_display st)
      (next_display st) (focus st)
  end.

(** A page before the script ran. *)
Definition boot (lb : option Parts) (imgs : list Image) : State := {|
  currentIndex := (-1)%Z;
  previewableImages := [];
  lightbox := false;
  lightboxImg := false;
  lightboxCaption := false;
  lightboxCounter := false;
  touchStartX := 0%Z;
  listening := false;
  dom_lightbox := lb;
  dom_images := imgs;
  active := false;
  aria_hidden := None;
  body_overflow := EmptyString;
  shown_src := EmptyString;
  shown_alt := EmptyString;
  caption_text := EmptyString;
  counter_text := None;
  counter_display := DisplayPage;
  prev_display := DisplayPage;
  next_display := DisplayPage;
  focus := FocusElsewhere
|}.

Inductive Event :=
| ClickImage (index : nat)
| KeydownImage (index : nat) (k : Key)   (* bubbles to the document *)
| KeydownDocument (k : Key)
| ClickClose
| ClickPrev
| ClickNext
| ClickBackdrop                         (* the lightbox itself or its backdrop *)
| TouchStart (x : Z)
| TouchEnd (x : Z).

(** The listeners exist only once initPreview attached them, and only on
    the elements that exist. *)
Definition handle (st : State) (ev : Event) : State :=
  if negb (listening st) then st
  else
    match ev with
    | ClickImage i =>
      if i <? length (previewableImages st) then openLightbox i st else st
    | KeydownImage i k =>
      if i <? length (previewableImages st)
      then handleKeydown k (imageKeydown i k st) else st
    | KeydownDocument k => handleKeydown k st
    | ClickClose => if part has_close st then closeLightbox st else st
    | ClickPrev => if part has_prev st then showPrev st else st
    | ClickNext => if part has_next st then showNext st else st
    | ClickBackdrop => closeLightbox st
    | TouchStart x => set_touch x st
    | TouchEnd x => touchEnd x st
    end.

Definition run (evs : list Event) (st : State) : State := foldl handle st evs.

(** The index denotes an image, or it is -1. *)
Definition index_ok (st : State) : Prop :=
  (currentIndex st = -1 \/ 0 <= currentIndex st < count st)%Z.

(** What the lightbox shows is the image at the current index. *)
Definition shows_current (st : State) : Prop :=
  forall img,
    lightboxImg st = true -> (0 <= currentIndex st)%Z ->
    previewableImages st !! Z.to_nat (currentIndex st) = Some img ->
    shown_src st = img_src img /\ shown_alt st = img_alt img /\
    (lightboxCaption st = true -> caption_text st = caption_of img) /\
    (lightboxCounter st = true ->
       counter_text st = Some ((currentIndex st + 1)%Z, count st) /\
       counter_display st = nav_display st) /\
    (part has_prev st = true -> prev_display st = nav_display st) /\
    (part has_next st = true -> next_display st = nav_display st).

(** [updateLightboxContent] as a listener sees it. *)
Definition refresh (st : State) : State := or_thrown st (updateLightboxContent st).

(** While the lightbox is open the index denotes an image and the page
    does not scroll; while it is closed the page scrolls. *)
Definition open_closed (st : State) : Prop :=
  (active st = true ->
     (0 <= currentIndex st)%Z /\ lightboxImg st = true /\
     body_overflow st = "hidden"%string /\ aria_hidden st = Some "false"%string /\
     lightbox st = true) /\
  (active st = false -> body_overflow st = EmptyString).

(** The four facts kept on every run. *)
Definition inv (st : State) : Prop :=
  index_ok st /\ shows_current st /\ open_closed st /\
  (listening st = true -> lightbox st = true).

Definition sample_images : list Image :=
  [mkImage "a.jpg" "Campus" None None None None;
   mkImage "b.jpg" "" (Some (Some "Graduation day")) None None None;
   mkImage "c.jpg" "Library" (Some None) None None None].

Definition full_parts : Parts := mkParts true true true true true true.

End Preview.

(** * Navigation helpers of [main.js] *)

Module MainJs.

(** ** Chapter highlight *)


(** A '.nav-chapter' link: its data-section attribute and whether it has
    the class 'active'. *)
Record NavLink := mkNavLink {
  data_section : option string;
  is_active : bool
}.



(** [window.scrollY >= sectionTop - 200]; the scroll position is a
    fraction, offsetTop an integer. *)
Definition reached (y : QArith_base.Q) (sec : string * Z) : bool :=
  QArith_base.Qle_bool (QArith_base.inject_Z (snd sec - 200)) y.

Definition current_chapter (secs : list (string * Z)) (y : QArith_base.Q) : string :=
  foldl (fun cur sec => if reached y sec then fst sec else cur) EmptyString secs.

Definition highlight (cur : string) (l : NavLink) : NavLink :=
  mkNavLink (data_section l)
    (match data_section l with
     | Some d => String.eqb d cur
     | None => false
     end).

Definition updateActiveChapter (secs : list (string * Z)) (y : QArith_base.Q)
    (links : list NavLink) : list NavLink :=
  map (highlight (current_chapter secs y)) links.

Record State := mkState {
  scrollY : QArith_base.Q;
  links : list NavLink;
  sections : list (string * Z);   (* contentSections, taken at initialisation *)
  listening : bool;               (* the scroll listener is installed *)
  ticking : bool;
  frames : nat                    (* callbacks waiting for the next animation frame *)
}.


Inductive Event :=
| Scroll (y : QArith_base.Q)    (* a scroll event, the position being y *)
| Frame.                         (* an animation frame *)

(** One waiting callback: updateActiveChapter, then ticking = false. *)
Definition callback (st : State) : State :=
  mkState (scrollY st) (updateActiveChapter (sections st) (scrollY st) (links st))
    (sections st) (listening st) false (frames st).

Definition handle (st : State) (ev : Event) : State :=
  match ev with
  | Scroll y =>
    let st := mkState y (links st) (sections st) (listening st) (ticking st) (frames st) in
    if listening st && negb (ticking st)
    then mkState y (links st) (sections st) (listening st) true (S (frames st))
    else st
  | Frame =>
    let st' := Nat.iter (frames st) callback st in
    mkState (scrollY st') (links st') (sections st') (listening st') (ticking st') 0
  end.

Definition run (evs : list Event) (st : State) : State := foldl handle st evs.


(** ** Keyboard navigation *)

Inductive ArrowKey := ArrowRight | ArrowDown | ArrowLeft | ArrowUp.

(** [navLinks.findIndex(link => link.classList.contains('active'))] *)
Fixpoint findIndex (ls : list NavLink) : Z :=
  match ls with
  | [] => (-1)%Z
  | l :: rest =>
    if is_active l then 0%Z
    else let i := findIndex rest in if (i <? 0)%Z then (-1)%Z else (i + 1)%Z
  end.

(** The link an arrow key clicks, if any: [navLinks[index]?.click()].
    With no link the index is NaN or -1 and nothing is clicked. *)
Definition keyTarget (k : ArrowKey) (ls : list NavLink) : option nat :=
  let n := Z.of_nat (length ls) in
  let activeIndex := findIndex ls in
  let index :=
    match k with
    | ArrowRight | ArrowDown =>
      if (n =? 0)%Z then None else Some (Z.rem (activeIndex + 1) n)
    | ArrowLeft | ArrowUp =>
      Some (if (activeIndex - 1 <? 0)%Z then (n - 1)%Z else (activeIndex - 1)%Z)
    end in
  match index with
  | Some i =>
    if (0 <=? i)%Z && (i <? n)%Z then Some (Z.to_nat i) else None
  | None => None
  end.

(** ** Mobile navigation toggle *)

(** Text of the toggle button: the cross, the three bars, or what the
    page shipped. *)
Inductive Icon := IconClose | IconMenu | IconPage.

Record Menu := mkMenu {
  menu_open : bool;                 (* navChapters has the class 'open' *)
  toggle_text : Icon;
  aria_expanded : option string
}.

Inductive MenuEvent := ClickToggle | ClickLink.

Definition menuHandle (m : Menu) (ev : MenuEvent) : Menu :=
  match ev with
  | ClickToggle =>
    let isOpen := negb (menu_open m) in
    mkMenu isOpen (if isOpen then IconClose else IconMenu)
      (Some (if isOpen then "true" else "false")%string)
  | ClickLink => mkMenu false IconMenu (Some "false"%string)
  end.



End MainJs.

(** * Properties *)

Section Properties.

Variable cfg : Config.

(** ** What the gate and the synchronous part of processEmbed leave alone *)

Ltac gate_unfold :=
  unfold loadInstagramScript, record_gate_call, new_promise, log;
  repeat match goal with
         | |- context [match ?x with _ => _ end] => destruct x
         end; simpl.

Lemma gate_wrappers s : wrappers (loadInstagramScript cfg s).1 = wrappers s.
Proof. gate_unfold; reflexivity. Qed.

Lemma gate_timers s : timers (loadInstagramScript cfg s).1 = timers s.
Proof. gate_unfold; reflexivity. Qed.

Lemma gate_awaiting s : awaiting (loadInstagramScript cfg s).1 = awaiting s.
Proof. gate_unfold; reflexivity. Qed.

Lemma gate_calls_frame s : calls (loadInstagramScript cfg s).1 = calls s.
Proof. gate_unfold; reflexivity. Qed.

Lemma gate_now s : now (loadInstagramScript cfg s).1 = now s.
Proof. gate_unfold; reflexivity. Qed.

Lemma gate_viewport s : viewport (loadInstagramScript cfg s).1 = viewport s.
Proof. gate_unfold; reflexivity. Qed.

Lemma gate_observed s : observed (loadInstagramScript cfg s).1 = observed s.
Proof. gate_unfold; reflexivity. Qed.

Lemma gate_hook_calls s : hook_calls (loadInstagramScript cfg s).1 = hook_calls s.
Proof. gate_unfold; reflexivity. Qed.

Ltac pe_frame lem :=
  unfold processEmbed;
  match goal with |- context [wrappers ?s !! ?w] =>
    destruct (wrappers s !! w); [|reflexivity] end;
  destruct (truthy_permalink _);
    [match goal with |- context [placeholder ?W] => destruct (placeholder W) end|];
  try reflexivity;
  match goal with |- context [loadInstagramScript ?c ?s] =>
    let E := fresh "E" in
    let s1 := fresh "s" in let q := fresh "q" in
    destruct (loadInstagramScript c s) as [s1 q] eqn:E; simpl;
    change s1 with (s1, q).1; rewrite <- E, lem; reflexivity end.

Lemma processEmbed_wrappers w rc s : wrappers (processEmbed cfg w rc s) = wrappers s.
Proof.
  pe_frame gate_wrappers.
Qed.

Lemma processEmbed_timers w rc s : timers (processEmbed cfg w rc s) = timers s.
Proof.
  pe_frame gate_timers.
Qed.

Lemma processEmbed_now w rc s : now (processEmbed cfg w rc s) = now s.
Proof.
  pe_frame gate_now.
Qed.

Lemma processEmbed_viewport w rc s : viewport (processEmbed cfg w rc s) = viewport s.
Proof.
  pe_frame gate_viewport.
Qed.

Lemma processEmbed_hook_calls w rc s :
  hook_calls (processEmbed cfg w rc s) = hook_calls s.
Proof.
  pe_frame gate_hook_calls.
Qed.

(** Each invocation on an existing wrapper is recorded once, with the
    retry count it was given and the current time. *)
Lemma processEmbed_calls w rc s W :
  wrappers s !! w = Some W ->
  calls (processEmbed cfg w rc s) = calls s ++ [(w, rc, now s)].
Proof.
  intros HW. unfold processEmbed. rewrite HW.
  destruct (truthy_permalink _); [destruct (placeholder W)|]; try reflexivity.
  destruct (loadInstagramScript _ _) as [s1 q] eqn:E. simpl.
  change s1 with (s1, q).1. rewrite <- E, gate_calls_frame. reflexivity.
Qed.

Lemma processEmbed_calls_none w rc s :
  wrappers s !! w = None -> processEmbed cfg w rc s = s.
Proof. intros HW. unfold processEmbed. rewrite HW. reflexivity. Qed.

Lemma calls_of_app w s l :
  List.filter (fun c => Nat.eqb (fst (fst c)) w) (calls s ++ l)
  = calls_of w s ++ List.filter (fun c => Nat.eqb (fst (fst c)) w) l.
Proof. unfold calls_of. apply List.filter_app. Qed.

Lemma processEmbed_calls_of_other w w' rc s :
  w' <> w -> calls_of w (processEmbed cfg w' rc s) = calls_of w s.
Proof.
  intros Hne. destruct (wrappers s !! w') as [W|] eqn:HW.
  - unfold calls_of at 1. rewrite (processEmbed_calls _ _ _ _ HW), calls_of_app.
    simpl. destruct (Nat.eqb_spec w' w); [contradiction|]. apply app_nil_r.
  - rewrite processEmbed_calls_none; auto.
Qed.

Lemma processEmbed_calls_of_same w rc s W :
  wrappers s !! w = Some W ->
  calls_of w (processEmbed cfg w rc s) = calls_of w s ++ [(w, rc, now s)].
Proof.
  intros HW. unfold calls_of at 1.
  rewrite (processEmbed_calls _ _ _ _ HW), calls_of_app. simpl.
  rewrite Nat.eqb_refl. reflexivity.
Qed.

(** ** C7: a malformed wrapper *)

(** C7. For a node that lacks the permalink attribute or the inner
    placeholder element, processEmbed only writes a warning to the
    console: no call of the script gate, no script element, no change to
    any wrapper, no timer (so no retry), no suspended frame, and the
    overlay of the node is what it was (no visible error). *)
Theorem C7_malformed_wrapper_only_logs (s : State) (w rc : nat) (W : Wrapper) :
  wrappers s !! w = Some W ->
  data_permalink W = None \/ placeholder W = None ->
  let s' := processEmbed cfg w rc s in
  s' = log WarnInvalidWrapper (record_call w rc s) /\
  console s' = console s ++ [WarnInvalidWrapper] /\
  gate_calls s' = gate_calls s /\
  scripts s' = scripts s /\
  instagramScriptPromise s' = instagramScriptPromise s /\
  promises s' = promises s /\
  wrappers s' = wrappers s /\
  timers s' = timers s /\
  awaiting s' = awaiting s.
Proof.
  intros HW Hbad. cbv zeta.
  assert (E : processEmbed cfg w rc s = log WarnInvalidWrapper (record_call w rc s)).
  { unfold processEmbed. rewrite HW.
    destruct Hbad as [Hp | Hp]; rewrite Hp; simpl; [reflexivity|].
    destruct (truthy_permalink _); reflexivity. }
  rewrite E. repeat split.
Qed.

(** ** C9: a script element that is already in the document *)

Lemma script_present_intro s sc :
  sc ∈ scripts s -> src sc = scriptSrc cfg -> script_present cfg s = true.
Proof.
  intros Hin Hsrc. unfold script_present. apply existsb_exists.
  exists sc. split; [by apply list_elem_of_In|].
  rewrite Hsrc. apply String.eqb_refl.
Qed.

(** The branch of the executor that finds the element. *)
Lemma present_script_fulfils (s : State) (sc : Script) :
  instagramScriptPromise s = None ->
  isInstagramScriptLoaded s = false ->
  sc ∈ scripts s ->
  src sc = scriptSrc cfg ->
  promises (loadInstagramScript cfg s).1 !! (loadInstagramScript cfg s).2
    = Some Fulfilled /\
  isInstagramScriptLoaded (loadInstagramScript cfg s).1 = true /\
  instagramScriptPromise (loadInstagramScript cfg s).1
    = Some (loadInstagramScript cfg s).2 /\
  scripts (loadInstagramScript cfg s).1 = scripts s /\
  awaiting (loadInstagramScript cfg s).1 = awaiting s /\
  console (loadInstagramScript cfg s).1 = console s.
Proof.
  intros Hp Hl Hin Hsrc. unfold loadInstagramScript.
  rewrite Hp, Hl, (script_present_intro s sc Hin Hsrc). simpl.
  repeat split. by apply list_lookup_middle.
Qed.

(** C9. When the gate runs for the first time and the document already
    holds a script element whose src is the configured URL, the call
    returns a promise that is already fulfilled and sets the loaded flag;
    it appends no element, and it does so whatever the state of that
    element (still being fetched or not): readiness is assumed. *)
Theorem C9_present_script_assumed_ready (s : State) (sc : Script) :
  instagramScriptPromise s = None ->
  isInstagramScriptLoaded s = false ->
  sc ∈ scripts s ->
  src sc = scriptSrc cfg ->
  let s' := (loadInstagramScript cfg s).1 in
  let p := (loadInstagramScript cfg s).2 in
  promises s' !! p = Some Fulfilled /\
  isInstagramScriptLoaded s' = true /\
  instagramScriptPromise s' = Some p /\
  scripts s' = scripts s /\
  awaiting s' = awaiting s /\
  console s' = console s.
Proof. intros Hp Hl Hin Hsrc. cbv zeta. by apply (present_script_fulfils s sc). Qed.

(** ** C10: what the terminal-failure branch renders *)

Lemma alter_fixed {A} (f : A -> A) (l : list A) (i : nat) :
  (forall x, l !! i = Some x -> f x = x) -> alter f i l = l.
Proof.
  intros H. rewrite <- (list_alter_id id l i) at 2 by reflexivity.
  apply list_alter_ext; [exact H | reflexivity].
Qed.

(** C10. Once the retry budget is used up, the catch block schedules
    nothing and touches at most the overlay of the node: the overlay
    becomes the error markup when the node has a placeholder that has an
    overlay; when the placeholder or its overlay is missing the list of
    wrappers is left exactly as it was (the branch still completes, only
    the console records the failure). *)
Theorem C10_terminal_failure_rendering (s : State) (w rc : nat) :
  maxRetries cfg <= rc ->
  let s' := processEmbed_catch cfg w rc s in
  timers s' = timers s /\
  awaiting s' = awaiting s /\
  scripts s' = scripts s /\
  console s' = console s ++ [ErrorAttempt (rc + 1); ErrorMaxRetries] /\
  (forall j, j <> w -> wrappers s' !! j = wrappers s !! j) /\
  (forall W ph ov,
      wrappers s !! w = Some W -> placeholder W = Some ph -> overlay ph = Some ov ->
      wrappers s' !! w =
        Some (mkWrapper (data_permalink W)
                (Some (mkPlaceholder (display_none ph) (Some ErrorAffordance)))
                (loaded W) (embeds W) (rect W))) /\
  (forall W,
      wrappers s !! w = Some W ->
      placeholder W = None \/ (exists ph, placeholder W = Some ph /\ overlay ph = None) ->
      wrappers s' = wrappers s).
Proof.
  intros Hrc. cbv zeta. unfold processEmbed_catch.
  destruct (Nat.ltb_spec rc (maxRetries cfg)) as [Hlt|_]; [lia|]. simpl.
  repeat split.
  - by rewrite <- app_assoc.
  - intros j Hj. by apply list_lookup_alter_ne.
  - intros W ph ov HW Hph Hov. rewrite list_lookup_alter_eq, HW. simpl.
    unfold show_error. by rewrite Hph, Hov.
  - intros W HW Hmiss. apply alter_fixed. intros x Hx.
    rewrite HW in Hx. injection Hx as <-. unfold show_error.
    destruct Hmiss as [-> | (ph & -> & ->)]; reflexivity.
Qed.

(** ** C8: the post-processing hook *)

(** C8. When a frame resumes on a fulfilled promise the node gets the
    embed and the loaded class, and the hook callback is scheduled only
    if [window.instgrm] is there.  The callback itself, whether the hook
    returns, throws or has gone, leaves every wrapper, timer and
    suspended frame as it was and invokes processEmbed for nothing: an
    exception only adds a console entry. *)
Theorem C8_hook_is_best_effort (s : State) (c : Cont) (W : Wrapper) :
  promises s !! c_promise c = Some Fulfilled ->
  wrappers s !! c_wrapper c = Some W ->
  let s1 := processEmbed_resume cfg c s in
  wrappers s1 !! c_wrapper c = Some (attach_embed (c_permalink c) W) /\
  wrapper_loaded s1 (c_wrapper c) = true /\
  embeds_of (c_wrapper c) s1 = embeds W ++ [createInstagramEmbed (c_permalink c)] /\
  timers s1 =
    (if hook_present (hook s) then timers s ++ [mkTimer (now s + 100) THook]
     else timers s) /\
  hook_calls s1 = hook_calls s /\
  forall s2 : State,
    let s3 := hookCallback s2 in
    wrappers s3 = wrappers s2 /\
    timers s3 = timers s2 /\
    awaiting s3 = awaiting s2 /\
    calls s3 = calls s2 /\
    gate_calls s3 = gate_calls s2 /\
    (hook s2 = HookWorks -> console s3 = console s2 /\ hook_calls s3 = S (hook_calls s2)) /\
    (hook s2 = HookThrows ->
       console s3 = console s2 ++ [ErrorHook] /\ hook_calls s3 = S (hook_calls s2)) /\
    (hook s2 = HookAbsent ->
       console s3 = console s2 ++ [ErrorHook] /\ hook_calls s3 = hook_calls s2).
Proof.
  intros Hp HW. cbv zeta. unfold processEmbed_resume. rewrite Hp.
  unfold processEmbed_success, wrapper_loaded, embeds_of.
  assert (Hl : alter (attach_embed (c_permalink c)) (c_wrapper c) (wrappers s)
               !! c_wrapper c = Some (attach_embed (c_permalink c) W)).
  { by rewrite list_lookup_alter_eq, HW. }
  split; [|split; [|split; [|split; [|split]]]].
  - destruct (hook_present _); simpl; exact Hl.
  - destruct (hook_present _); simpl; by rewrite Hl.
  - destruct (hook_present _); simpl; by rewrite Hl.
  - simpl. destruct (hook s); reflexivity.
  - destruct (hook_present _); reflexivity.
  - intros s2. unfold hookCallback.
    destruct (hook s2); simpl; repeat split; intros; congruence.
Qed.

(** ** C1: the loaded mark is checked by the triggers *)

Lemma wrapper_loaded_lookup s w :
  wrapper_loaded s w = true <-> exists W, wrappers s !! w = Some W /\ loaded W = true.
Proof.
  unfold wrapper_loaded. destruct (wrappers s !! w) as [W|]; split.
  - intros H. by exists W.
  - by intros (W' & [= <-] & H).
  - discriminate.
  - by intros (W' & ? & _).
Qed.

(** X20. The check of the loaded mark is made by the three triggers,
    before they call processEmbed: on a node already marked loaded the
    click listener and the preload iteration leave the whole state as it
    is, and the observer entry only stops observing the node.  So none
    of them inserts an embed, calls the gate or the hook, or sets a
    timer. *)
Theorem triggers_skip_loaded_node (s : State) (w : nat) :
  wrapper_loaded s w = true ->
  (forall b, buttons s !! b = Some (Some w) -> manualClick cfg b s = s) /\
  preloadEntry cfg s w = s /\
  observerEntry cfg s (w, true) = unobserve w s /\
  (let s' := observerEntry cfg s (w, true) in
   wrappers s' = wrappers s /\ scripts s' = scripts s /\
   gate_calls s' = gate_calls s /\ hook_calls s' = hook_calls s /\
   timers s' = timers s /\ awaiting s' = awaiting s /\ calls s' = calls s).
Proof.
  intros Hl. assert (Hl' := Hl). apply wrapper_loaded_lookup in Hl' as (W & HW & HlW).
  assert (Ho : observerEntry cfg s (w, true) = unobserve w s).
  { unfold observerEntry. by rewrite Hl. }
  repeat split.
  - intros b Hb. unfold manualClick. by rewrite Hb, Hl.
  - unfold preloadEntry. rewrite HW, HlW. by rewrite andb_false_r.
  - exact Ho.
  - by rewrite Ho.
  - by rewrite Ho.
  - by rewrite Ho.
  - by rewrite Ho.
  - by rewrite Ho.
  - by rewrite Ho.
  - by rewrite Ho.
Qed.

(** processEmbed itself does not look at the loaded mark: called on a
    well-formed node, loaded or not, while the gate holds a fulfilled
    promise, it calls the gate and appends one more blockquote. *)
Lemma processEmbed_ignores_loaded_mark s w rc W pl ph p :
  wrappers s !! w = Some W ->
  truthy_permalink (data_permalink W) = Some pl ->
  placeholder W = Some ph ->
  instagramScriptPromise s = Some p ->
  promises s !! p = Some Fulfilled ->
  awaiting s = [] ->
  let s' := drain cfg (processEmbed cfg w rc s) in
  embeds_of w s' = embeds W ++ [createInstagramEmbed pl] /\
  gate_calls s' = gate_calls s ++ [p] /\
  calls s' = calls s ++ [(w, rc, now s)] /\
  wrapper_loaded s' w = true /\
  awaiting s' = [].
Proof.
  intros HW Hpl Hph Hp Hf Ha.
  destruct s as [ld pr ps aw ts nw ob hb scs ws bs vp hk cs cl gc hc].
  simpl in *. subst pr aw. cbv zeta.
  unfold processEmbed. simpl. rewrite HW, Hpl, Hph.
  unfold loadInstagramScript. simpl.
  unfold drain, is_settled. simpl. rewrite Hf. simpl.
  unfold processEmbed_resume. simpl. rewrite Hf.
  unfold processEmbed_success, embeds_of, wrapper_loaded. simpl.
  assert (Hal : alter (attach_embed pl) w ws !! w = Some (attach_embed pl W))
    by by rewrite list_lookup_alter_eq, HW.
  destruct (hook_present hk); simpl; rewrite !Hal; by repeat split.
Qed.

(** ** C5: the two automatic triggers *)

Lemma processEmbed_observed w rc s : observed (processEmbed cfg w rc s) = observed s.
Proof. pe_frame gate_observed. Qed.

Lemma observerEntry_wrappers s e : wrappers (observerEntry cfg s e) = wrappers s.
Proof.
  destruct e as [w' [|]]; simpl; [|reflexivity].
  destruct (negb _); [apply processEmbed_wrappers | reflexivity].
Qed.

Lemma observerEntry_calls_of_loaded s e w :
  wrapper_loaded s w = true ->
  calls_of w (observerEntry cfg s e) = calls_of w s.
Proof.
  intros Hl. destruct e as [w' [|]]; simpl; [|reflexivity].
  unfold calls_of. simpl. fold (calls_of w s).
  destruct (decide (w' = w)) as [->|Hne].
  - by rewrite Hl.
  - destruct (negb _); [|reflexivity].
    by apply processEmbed_calls_of_other.
Qed.

Lemma observerCallback_calls_of_loaded entries s w :
  wrapper_loaded s w = true ->
  calls_of w (observerCallback cfg entries s) = calls_of w s.
Proof.
  unfold observerCallback. revert s.
  induction entries as [|e entries IH]; intros s Hl; [reflexivity|]. simpl.
  rewrite IH.
  - by apply observerEntry_calls_of_loaded.
  - unfold wrapper_loaded in *. by rewrite observerEntry_wrappers.
Qed.

Lemma observed_unobserve w s : observed (unobserve w s) = observed s ∖ {[w]}.
Proof. reflexivity. Qed.

Lemma observerEntry_unobserved s e w :
  w ∉ observed s -> w ∉ observed (observerEntry cfg s e).
Proof.
  intros Hn. destruct e as [w' [|]]; unfold observerEntry; [|exact Hn].
  rewrite observed_unobserve.
  destruct (negb _); [rewrite processEmbed_observed|];
    by intros [? _]%elem_of_difference.
Qed.

Lemma observerCallback_unobserved entries s w :
  w ∉ observed s -> w ∉ observed (observerCallback cfg entries s).
Proof.
  unfold observerCallback. revert s.
  induction entries as [|e entries IH]; intros s Hn; [exact Hn|]. simpl.
  apply IH. by apply observerEntry_unobserved.
Qed.

Lemma observerCallback_one_shot entries s w :
  (w, true) ∈ entries -> w ∉ observed (observerCallback cfg entries s).
Proof.
  unfold observerCallback. revert s.
  induction entries as [|e entries IH]; intros s Hin.
  - by apply elem_of_nil in Hin.
  - apply elem_of_cons in Hin as [<- | Hin]; simpl.
    + apply (observerCallback_unobserved entries).
      unfold observerEntry. rewrite observed_unobserve.
      intros [_ Hn]%elem_of_difference. apply Hn. by apply elem_of_singleton.
    + by apply IH.
Qed.

Lemma preloadEntry_wrappers s j : wrappers (preloadEntry cfg s j) = wrappers s.
Proof.
  unfold preloadEntry. destruct (wrappers s !! j); [|reflexivity].
  destruct (_ && _); [apply processEmbed_wrappers | reflexivity].
Qed.

Lemma preloadEntry_viewport s j : viewport (preloadEntry cfg s j) = viewport s.
Proof.
  unfold preloadEntry. destruct (wrappers s !! j); [|reflexivity].
  destruct (_ && _); [apply processEmbed_viewport | reflexivity].
Qed.

Lemma preloadEntry_now s j : now (preloadEntry cfg s j) = now s.
Proof.
  unfold preloadEntry. destruct (wrappers s !! j); [|reflexivity].
  destruct (_ && _); [apply processEmbed_now | reflexivity].
Qed.

Lemma preloadEntry_calls_of_other s j w :
  j <> w -> calls_of w (preloadEntry cfg s j) = calls_of w s.
Proof.
  intros Hne. unfold preloadEntry. destruct (wrappers s !! j); [|reflexivity].
  destruct (_ && _); [by apply processEmbed_calls_of_other | reflexivity].
Qed.

(** The forEach of preloadVisibleEmbeds over distinct nodes calls
    processEmbed on node [w] once when [w] is among them, visible and
    not marked loaded, and not at all otherwise. *)
Lemma preload_fold_calls_of (l : list nat) s w W :
  wrappers s !! w = Some W ->
  NoDup l ->
  calls_of w (foldl (preloadEntry cfg) s l)
  = calls_of w s ++
    (if bool_decide (w ∈ l) && isVisible (rect W) (viewport s) && negb (loaded W)
     then [(w, 0, now s)] else []).
Proof.
  revert s. induction l as [|j l IH]; intros s HW Hnd.
  - simpl. by rewrite app_nil_r.
  - apply NoDup_cons in Hnd as [Hj Hnd]. simpl.
    rewrite IH; [|by rewrite preloadEntry_wrappers|exact Hnd].
    rewrite preloadEntry_viewport, preloadEntry_now.
    destruct (decide (j = w)) as [->|Hne].
    + rewrite (bool_decide_eq_false_2 _ Hj). simpl. rewrite app_nil_r.
      rewrite bool_decide_eq_true_2 by apply list_elem_of_here. simpl.
      unfold preloadEntry. rewrite HW.
      destruct (_ && _); [by eapply processEmbed_calls_of_same|by rewrite app_nil_r].
    + rewrite preloadEntry_calls_of_other by exact Hne. f_equal.
      destruct (decide (w ∈ l)) as [Hin|Hnin].
      * rewrite !bool_decide_eq_true_2; [reflexivity|by apply list_elem_of_further|exact Hin].
      * rewrite !bool_decide_eq_false_2; [reflexivity| |exact Hnin].
        intros [?|?]%elem_of_cons; congruence.
Qed.

(** C5 (as the code has it). A node that is visible when the preload
    runs and is not marked loaded is activated by the preload, once.
    Each automatic trigger skips a node that is already marked loaded
    when the trigger fires, and the observer stops observing a node at
    its first intersecting report.  Nothing is promised for a node whose
    first activation has not yet set the loaded mark. *)
Theorem C5_automatic_triggers_check_loaded_mark (s : State) (w : nat) (W : Wrapper) :
  wrappers s !! w = Some W ->
  (loaded W = false -> isVisible (rect W) (viewport s) = true ->
     calls_of w (preloadVisibleEmbeds cfg s) = calls_of w s ++ [(w, 0, now s)]) /\
  (loaded W = true ->
     calls_of w (preloadVisibleEmbeds cfg s) = calls_of w s /\
     forall entries, calls_of w (observerCallback cfg entries s) = calls_of w s) /\
  (forall entries,
     (w, true) ∈ entries -> w ∉ observed (observerCallback cfg entries s)).
Proof.
  intros HW.
  assert (Hin : w ∈ all_wrappers s).
  { unfold all_wrappers. apply elem_of_seq. apply lookup_lt_Some in HW. lia. }
  assert (Hnd : NoDup (all_wrappers s)) by apply NoDup_seq.
  split; [|split].
  - intros Hl Hv. unfold preloadVisibleEmbeds.
    rewrite (preload_fold_calls_of _ s w W HW Hnd).
    by rewrite (bool_decide_eq_true_2 _ Hin), Hv, Hl.
  - intros Hl. split.
    + unfold preloadVisibleEmbeds.
      rewrite (preload_fold_calls_of _ s w W HW Hnd).
      rewrite Hl, andb_false_r. by rewrite app_nil_r.
    + intros entries. apply observerCallback_calls_of_loaded.
      apply wrapper_loaded_lookup. by exists W.
  - intros entries. apply observerCallback_one_shot.
Qed.

(** ** C3: the retry budget and the backoff *)

(** One attempt on a well-formed node while the gate fails: the frame is
    suspended on a rejected promise and resumes in the catch block at
    the checkpoint of the same macrotask. *)
Lemma failing_attempt s w rc :
  gate_failing cfg s -> well_formed s w -> awaiting s = [] ->
  exists s0,
    drain cfg (processEmbed cfg w rc s) = processEmbed_catch cfg w rc s0 /\
    gate_rejecting s0 /\
    wrappers s0 = wrappers s /\ timers s0 = timers s /\ awaiting s0 = [] /\
    calls s0 = calls s ++ [(w, rc, now s)] /\ now s0 = now s.
Proof.
  intros Hg (W & pl & ph & HW & Hpl & Hph) Ha.
  destruct s as [ld pr ps aw ts nw ob hb scs ws bs vp hk cs cl gc hc].
  simpl in *. subst aw.
  unfold processEmbed. simpl. rewrite HW, Hpl, Hph.
  destruct Hg as [(p & Hp & Hrej) | (Hp & Hl & Hsp & Hb)]; simpl in *.
  - subst pr. unfold loadInstagramScript, drain, is_settled. simpl.
    rewrite Hrej. simpl. unfold processEmbed_resume. simpl. rewrite Hrej.
    eexists. split; [reflexivity|]. simpl.
    repeat split. exists p. by split.
  - subst pr ld hb. unfold loadInstagramScript, script_present in *. simpl in *.
    rewrite Hsp. simpl.
    assert (Hlk : (ps ++ [Rejected]) !! length ps = Some Rejected)
      by by apply list_lookup_middle.
    unfold drain, is_settled. simpl. rewrite Hlk. simpl.
    unfold processEmbed_resume. simpl. rewrite Hlk.
    eexists. split; [reflexivity|]. simpl.
    repeat split. exists (length ps). by split.
Qed.

Lemma catch_retry s w rc :
  rc < maxRetries cfg ->
  processEmbed_catch cfg w rc s
  = setTimeout (TRetry w (rc + 1)) (retryDelay cfg * (rc + 1))
      (log (ErrorAttempt (rc + 1)) s).
Proof.
  intros Hlt. unfold processEmbed_catch.
  by destruct (Nat.ltb_spec rc (maxRetries cfg)) as [_|?]; [|lia].
Qed.

Lemma catch_final s w rc :
  maxRetries cfg <= rc ->
  processEmbed_catch cfg w rc s
  = set_wrappers (alter show_error w (wrappers s))
      (log ErrorMaxRetries (log (ErrorAttempt (rc + 1)) s)).
Proof.
  intros Hge. unfold processEmbed_catch.
  by destruct (Nat.ltb_spec rc (maxRetries cfg)) as [?|_]; [lia|].
Qed.

Lemma well_formed_ext s s' w :
  wrappers s' = wrappers s -> well_formed s w -> well_formed s' w.
Proof. unfold well_formed. by intros ->. Qed.

(** The whole chain started by one attempt with retry count [rc]: [k]
    timers fire, where [rc + k] is the budget. *)
Lemma failing_chain k : forall rc s w,
  rc + k = maxRetries cfg ->
  gate_failing cfg s -> well_formed s w -> awaiting s = [] -> timers s = [] ->
  let sf := run_timers cfg k (drain cfg (processEmbed cfg w rc s)) in
  calls sf = calls s ++ retry_schedule (retryDelay cfg) w rc (now s) (S k) /\
  timers sf = [] /\ awaiting sf = [] /\
  wrappers sf = alter show_error w (wrappers s) /\
  last (console sf) = Some ErrorMaxRetries /\
  gate_rejecting sf.
Proof.
  induction k as [|k IH]; intros rc s w Hk Hg Hwf Ha Ht.
  - destruct (failing_attempt s w rc Hg Hwf Ha)
      as (s0 & -> & Hg0 & Hw0 & Ht0 & Ha0 & Hc0 & _).
    simpl. rewrite catch_final by lia. simpl.
    rewrite Hc0, Ht0, Ha0, Hw0, Ht. repeat split; [by rewrite last_snoc|].
    destruct Hg0 as (p & Hp & Hr). exists p. by split.
  - destruct (failing_attempt s w rc Hg Hwf Ha)
      as (s0 & -> & Hg0 & Hw0 & Ht0 & Ha0 & Hc0 & Hn0).
    rewrite catch_retry by lia.
    set (s1 := setTimeout _ _ _).
    assert (Hts : timers s1 = [mkTimer (now s + retryDelay cfg * (rc + 1)) (TRetry w (rc + 1))]).
    { subst s1. simpl. by rewrite Ht0, Ht, Hn0. }
    cbn [run_timers]. rewrite Hts.
    assert (Hstep : step cfg s1 EvTimer
                    = drain cfg (processEmbed cfg w (rc + 1)
                        (set_now (now s + retryDelay cfg * (rc + 1)) (set_timers [] s1)))).
    { unfold step, handle, fireTimer. rewrite Hts. simpl.
      rewrite Hn0. by rewrite Nat.max_r by lia. }
    rewrite Hstep.
    set (s2 := set_now _ _).
    destruct (IH (rc + 1) s2 w) as (Hc & Htf & Haf & Hwf' & Hlast & Hrej).
    + lia.
    + left. destruct Hg0 as (p & Hp & Hr). exists p. by split.
    + apply (well_formed_ext s); [|exact Hwf]. subst s2 s1. simpl. exact Hw0.
    + subst s2 s1. simpl. exact Ha0.
    + reflexivity.
    + rewrite Hc, Htf, Haf, Hwf', Hlast. repeat split.
      * subst s2 s1. simpl. rewrite Hc0, <- app_assoc. simpl.
        by rewrite Nat.add_1_r.
      * subst s2 s1. simpl. by rewrite Hw0.
      * exact Hrej.
Qed.

Lemma retry_schedule_length delay w rc t n :
  length (retry_schedule delay w rc t n) = n.
Proof. revert rc t. induction n as [|n IH]; intros rc t; simpl; [|rewrite IH]; reflexivity. Qed.

Lemma run_timers_idle fuel s : timers s = [] -> run_timers cfg fuel s = s.
Proof. intros Ht. destruct fuel; simpl; [|rewrite Ht]; reflexivity. Qed.

(** What the terminal branch writes into a node that has a placeholder:
    the overlay, when there is one, becomes the error affordance; the
    attribute, the display of the placeholder, the loaded class, the
    blockquotes and the rectangle stay. *)
Lemma show_error_spelled W ph :
  placeholder W = Some ph ->
  show_error W
  = mkWrapper (data_permalink W)
      (Some (mkPlaceholder (display_none ph)
               (match overlay ph with Some _ => Some ErrorAffordance | None => None end)))
      (loaded W) (embeds W) (rect W).
Proof.
  intros Hph. unfold show_error. rewrite Hph.
  destruct W as [dp pl ld em rc], ph as [d [o|]]; simpl in *; [reflexivity|].
  by subst pl.
Qed.

Lemma well_formed_show_error s s' w :
  wrappers s' = alter show_error w (wrappers s) -> well_formed s w -> well_formed s' w.
Proof.
  intros Hw (W & pl & ph & HW & Hpl & Hph). unfold well_formed. rewrite Hw.
  rewrite list_lookup_alter_eq, HW. simpl.
  rewrite (show_error_spelled W ph Hph).
  eexists. exists pl. eexists. repeat split. exact Hpl.
Qed.

(** C3 (as the code has it). The retry budget belongs to one activation,
    not to the node.  Take a well-formed node and a page on which every
    call of the gate fails, with no timer or suspended frame left.  One
    activation of the node followed by the firing of its timers makes
    exactly maxRetries + 1 calls of processEmbed, with retry counts 0, 1,
    ..., maxRetries; the call with retry count n + 1 comes
    retryDelay * (n + 1) after the call with retry count n.  After the
    last one no timer and no frame is left (firing timers changes
    nothing any more) and the console holds the max-retries error.  The
    node then is what it was, except that the overlay of its
    placeholder, when it has one, is the error affordance; every other
    node is as before.  Nothing records the failure: the gate still
    fails and the node still passes the validation, so a further
    activation of the node makes maxRetries + 1 calls again. *)
Theorem C3_retry_budget_and_backoff (s : State) (w : nat) :
  gate_failing cfg s -> well_formed s w -> awaiting s = [] -> timers s = [] ->
  let sf := run_timers cfg (maxRetries cfg) (drain cfg (processEmbed cfg w 0 s)) in
  calls sf = calls s ++ retry_schedule (retryDelay cfg) w 0 (now s) (maxRetries cfg + 1) /\
  length (calls sf) = length (calls s) + (maxRetries cfg + 1) /\
  timers sf = [] /\ awaiting sf = [] /\
  (forall fuel, run_timers cfg fuel sf = sf) /\
  wrappers sf = alter show_error w (wrappers s) /\
  last (console sf) = Some ErrorMaxRetries /\
  (exists W ph,
     wrappers s !! w = Some W /\ placeholder W = Some ph /\
     wrappers sf !! w
     = Some (mkWrapper (data_permalink W)
               (Some (mkPlaceholder (display_none ph)
                        (match overlay ph with
                         | Some _ => Some ErrorAffordance
                         | None => None
                         end)))
               (loaded W) (embeds W) (rect W))) /\
  (forall w', w' <> w -> wrappers sf !! w' = wrappers s !! w') /\
  gate_failing cfg sf /\ well_formed sf w /\
  (let sf' := run_timers cfg (maxRetries cfg) (drain cfg (processEmbed cfg w 0 sf)) in
   calls sf'
   = calls sf ++ retry_schedule (retryDelay cfg) w 0 (now sf) (maxRetries cfg + 1) /\
   length (calls sf') = length (calls s) + 2 * (maxRetries cfg + 1)).
Proof.
  intros Hg Hwf Ha Ht.
  destruct (failing_chain (maxRetries cfg) 0 s w) as (Hc & Htf & Haf & Hw & Hl & Hrej);
    try assumption; [lia|].
  cbv zeta. rewrite Nat.add_1_r.
  set (sf := run_timers cfg (maxRetries cfg) (drain cfg (processEmbed cfg w 0 s))) in *.
  assert (Hlen : length (calls sf) = length (calls s) + S (maxRetries cfg)).
  { rewrite Hc, length_app, retry_schedule_length. lia. }
  assert (Hwf' : well_formed sf w) by by apply (well_formed_show_error s).
  split; [exact Hc|]. split; [exact Hlen|].
  split; [exact Htf|]. split; [exact Haf|].
  split; [intros fuel; by apply run_timers_idle|].
  split; [exact Hw|]. split; [exact Hl|].
  split; [|split; [|split; [by left|split; [exact Hwf'|]]]].
  - destruct Hwf as (W & pl & ph & HW & Hpl & Hph).
    exists W, ph. split; [exact HW|]. split; [exact Hph|].
    rewrite Hw, list_lookup_alter_eq, HW. simpl.
    by rewrite (show_error_spelled W ph Hph).
  - intros w' Hne. rewrite Hw. apply list_lookup_alter_ne. congruence.
  - destruct (failing_chain (maxRetries cfg) 0 sf w) as (Hc' & _);
      try assumption; [lia|by left|].
    split; [exact Hc'|].
    rewrite Hc', length_app, retry_schedule_length, Hlen. lia.
Qed.

(** ** C4: the retry count *)






Lemma Forall_list_filter {A} (P : A -> Prop) (f : A -> bool) (l : list A) :
  Forall P l -> Forall P (List.filter f l).
Proof.
  rewrite !List.Forall_forall. intros H x Hx.
  apply List.filter_In in Hx as [Hx _]. by apply H.
Qed.











(** ** C2: one script element, one promise *)

Lemma same_gate_refl s : same_gate s s.
Proof. by repeat split. Qed.

Lemma same_gate_trans s1 s2 s3 : same_gate s1 s2 -> same_gate s2 s3 -> same_gate s1 s3.
Proof.
  intros (A1 & A2 & A3 & A4) (B1 & B2 & B3 & B4).
  repeat split; congruence.
Qed.

Lemma gate_inv_same s s' : same_gate s s' -> gate_inv s -> gate_inv s'.
Proof.
  intros (H1 & H2 & H3 & H4). unfold gate_inv, injected.
  by rewrite H1, H2, H3, H4.
Qed.

Lemma gate_inv_load s : gate_inv s -> gate_inv (loadInstagramScript cfg s).1.
Proof.
  unfold gate_inv, loadInstagramScript, injected.
  destruct (instagramScriptPromise s) as [p|] eqn:Hp; simpl; rewrite ?Hp.
  - intros [Hc Hi]. split; [|exact Hi].
    apply Forall_app. split; [exact Hc|]. by repeat constructor.
  - intros (Hl & Hg & Hi). rewrite Hl. simpl.
    destruct (script_present cfg s); [|destruct (has_body s)]; simpl;
      rewrite ?Hg, ?List.filter_app, ?Hi; simpl;
      (split; [by repeat constructor|lia]).
Qed.

Lemma gate_inv_processEmbed w rc s : gate_inv s -> gate_inv (processEmbed cfg w rc s).
Proof.
  intros HI. unfold processEmbed.
  destruct (wrappers s !! w) as [W|]; [|exact HI].
  destruct (truthy_permalink _) as [pl|]; [destruct (placeholder W)|];
    try exact HI.
  destruct (loadInstagramScript _ _) as [s1 q] eqn:E.
  assert (E1 : s1 = (loadInstagramScript cfg (record_call w rc s)).1) by by rewrite E.
  apply (gate_inv_same s1); [by repeat split|].
  rewrite E1. apply gate_inv_load. exact HI.
Qed.

Lemma same_gate_resume c s : same_gate s (processEmbed_resume cfg c s).
Proof.
  unfold processEmbed_resume, processEmbed_success, processEmbed_catch.
  destruct (promises s !! c_promise c) as [[| |]|]; try apply same_gate_refl.
  - simpl. destruct (hook_present _); by repeat split.
  - destruct (_ <? _); by repeat split.
Qed.

Lemma same_gate_resume_all l : forall s,
  same_gate s (foldl (fun st c => processEmbed_resume cfg c st) s l).
Proof.
  induction l as [|c l IH]; intros s; [apply same_gate_refl|]. simpl.
  eapply same_gate_trans; [apply same_gate_resume|apply IH].
Qed.

Lemma gate_inv_drain s : gate_inv s -> gate_inv (drain cfg s).
Proof.
  intros HI. unfold drain.
  eapply gate_inv_same; [apply same_gate_resume_all|]. exact HI.
Qed.

Lemma gate_inv_trigger_all (f : State -> nat -> State) l :
  (forall s w, gate_inv s -> gate_inv (f s w)) ->
  forall s, gate_inv s -> gate_inv (foldl f s l).
Proof.
  intros Hf. induction l as [|w l IH]; intros s HI; [exact HI|]. simpl.
  apply IH. by apply Hf.
Qed.

Lemma gate_inv_preload s : gate_inv s -> gate_inv (preloadVisibleEmbeds cfg s).
Proof.
  unfold preloadVisibleEmbeds. apply gate_inv_trigger_all.
  intros st w HI. unfold preloadEntry.
  destruct (wrappers st !! w); [|exact HI].
  destruct (_ && _); [|exact HI]. by apply gate_inv_processEmbed.
Qed.

Lemma gate_inv_observerCallback entries : forall s,
  gate_inv s -> gate_inv (observerCallback cfg entries s).
Proof.
  unfold observerCallback.
  induction entries as [|[w b] entries IH]; intros s HI; [exact HI|]. simpl.
  apply IH. destruct b; [|exact HI].
  destruct (negb _); [|exact HI].
  apply (gate_inv_same (processEmbed cfg w 0 s)); [by repeat split|].
  by apply gate_inv_processEmbed.
Qed.

Lemma gate_inv_fireTimer s : gate_inv s -> gate_inv (fireTimer cfg s).
Proof.
  intros HI. unfold fireTimer.
  destruct (pop_timer (timers s)) as [[t rest]|]; [|exact HI].
  set (s1 := set_now _ _).
  assert (HI1 : gate_inv s1) by exact HI.
  destruct (task t) as [w rc| |]; simpl.
  - by apply gate_inv_processEmbed.
  - unfold hookCallback. destruct (hook s1); exact HI1.
  - by apply gate_inv_preload.
Qed.

Lemma length_filter_insert {A} (f : A -> bool) (l : list A) : forall i x y,
  l !! i = Some x -> f y = f x ->
  length (List.filter f (<[i := y]> l)) = length (List.filter f l).
Proof.
  induction l as [|a l IH]; intros i x y Hl Hf; [reflexivity|].
  destruct i as [|i]; simpl in *.
  - injection Hl as ->. rewrite Hf. by destruct (f x).
  - destruct (f a); simpl; [f_equal|]; by apply (IH i x y).
Qed.

Lemma injected_nil_owner s i sc :
  injected s = [] -> scripts s !! i = Some sc -> owner sc = None.
Proof.
  intros Hi Hl. destruct (owner sc) as [p|] eqn:Ho; [|reflexivity].
  assert (Hin : In sc (injected s)).
  { apply List.filter_In. split.
    - apply list_elem_of_In, list_elem_of_lookup. by exists i.
    - apply bool_decide_eq_true_2. rewrite Ho. by eexists. }
  rewrite Hi in Hin. destruct Hin.
Qed.

Lemma gate_inv_scriptOnload i h s : gate_inv s -> gate_inv (scriptOnload i h s).
Proof.
  intros HI. unfold scriptOnload.
  destruct (scripts s !! i) as [sc|] eqn:Hl; [|exact HI].
  destruct (owner sc) as [p|] eqn:Ho; [|exact HI].
  set (s1 := set_loaded_flag _ _).
  assert (HI1 : gate_inv s1).
  { subst s1. unfold gate_inv, injected in *. simpl.
    destruct (instagramScriptPromise s) as [q|].
    - destruct HI as [Hc Hn]. split; [exact Hc|].
      rewrite (length_filter_insert _ _ i sc); [exact Hn|exact Hl|].
      simpl. by rewrite Ho.
    - destruct HI as (_ & _ & Hn).
      pose proof (injected_nil_owner s i sc Hn Hl). congruence. }
  unfold settle. destruct (promises s1 !! p) as [[| |]|]; exact HI1.
Qed.

Lemma gate_inv_handle ev s :
  is_script_error ev = false -> gate_inv s -> gate_inv (handle cfg ev s).
Proof.
  intros Hev HI. destruct ev as [b|entries| | |dt|i h|i|v rs]; simpl.
  - unfold manualClick. destruct (buttons s !! b) as [[w|]|]; try exact HI.
    destruct (negb _); [|exact HI]. by apply gate_inv_processEmbed.
  - destruct (entries_observed _ _); [|exact HI]. by apply gate_inv_observerCallback.
  - exact HI.
  - by apply gate_inv_fireTimer.
  - exact HI.
  - destruct (signal_due s i); [by apply gate_inv_scriptOnload|exact HI].
  - discriminate.
  - exact HI.
Qed.

Lemma injected_boot pg : injected (boot pg) = [].
Proof.
  unfold injected. simpl. induction (p_scripts pg) as [|u l IH]; [reflexivity|].
  simpl. exact IH.
Qed.

Lemma gate_inv_init pg : gate_inv (init cfg pg).
Proof.
  unfold init. apply gate_inv_drain. unfold initLazyLoading.
  assert (HI0 : gate_inv (boot pg)).
  { unfold gate_inv. simpl. repeat split. apply injected_boot. }
  destruct (wrappers (boot pg)) as [|W0 ws]; [exact HI0|].
  destruct (negb _); [|exact HI0].
  apply gate_inv_trigger_all; [|exact HI0].
  intros st j HI. by apply gate_inv_processEmbed.
Qed.

Lemma gate_inv_run evs : forall s,
  forallb (fun ev => negb (is_script_error ev)) evs = true ->
  gate_inv s -> gate_inv (run cfg evs s).
Proof.
  unfold run. induction evs as [|ev evs IH]; intros s Hok HI; [exact HI|]. simpl in *.
  apply andb_prop in Hok as [Hev Hok]. apply negb_true_iff in Hev.
  apply IH; [exact Hok|]. unfold step. by apply gate_inv_drain, gate_inv_handle.
Qed.

(** ** The microtask checkpoint is complete *)

Lemma resume_promises c s : promises (processEmbed_resume cfg c s) = promises s.
Proof.
  unfold processEmbed_resume, processEmbed_success, processEmbed_catch.
  destruct (promises s !! c_promise c) as [[| |]|]; try reflexivity.
  - simpl. by destruct (hook_present _).
  - by destruct (_ <? _).
Qed.

Lemma resume_awaiting c s : awaiting (processEmbed_resume cfg c s) = awaiting s.
Proof.
  unfold processEmbed_resume, processEmbed_success, processEmbed_catch.
  destruct (promises s !! c_promise c) as [[| |]|]; try reflexivity.
  - simpl. by destruct (hook_present _).
  - by destruct (_ <? _).
Qed.

Lemma resume_all_frames l : forall s,
  promises (foldl (fun st c => processEmbed_resume cfg c st) s l) = promises s /\
  awaiting (foldl (fun st c => processEmbed_resume cfg c st) s l) = awaiting s.
Proof.
  induction l as [|c l IH]; intros s; [by split|]. simpl.
  destruct (IH (processEmbed_resume cfg c s)) as [-> ->].
  by rewrite resume_promises, resume_awaiting.
Qed.

(** After the checkpoint every frame still suspended waits on a promise
    that is not settled: resuming frames settles nothing and suspends
    nothing, so one pass over the frames is the whole checkpoint. *)
Lemma drain_leaves_pending s :
  Forall (fun c => is_settled (drain cfg s) (c_promise c) = false)
    (awaiting (drain cfg s)).
Proof.
  unfold drain.
  match goal with |- context [foldl ?f ?s0 ?l] =>
    destruct (resume_all_frames l s0) as [Hp Ha] end.
  unfold is_settled at 1. rewrite Hp, Ha. simpl.
  apply List.Forall_forall. intros c Hc.
  apply List.filter_In in Hc as [_ Hc]. apply negb_true_iff in Hc.
  exact Hc.
Qed.

(** ** C6: what follows a failed fetch *)

(** The error handler puts the two module variables back to their
    initial values and rejects the promise of the element, but leaves
    the element in the document; the next call of the gate therefore
    takes the branch of C9. *)
Lemma stale_script_short_circuits s i sc p :
  scripts s !! i = Some sc -> src sc = scriptSrc cfg ->
  owner sc = Some p ->
  isInstagramScriptLoaded s = false ->
  let s1 := scriptOnerror i s in
  let s2 := (loadInstagramScript cfg s1).1 in
  instagramScriptPromise s1 = None /\
  isInstagramScriptLoaded s1 = false /\
  scripts s2 = scripts s1 /\
  isInstagramScriptLoaded s2 = true /\
  promises s2 !! (loadInstagramScript cfg s1).2 = Some Fulfilled.
Proof.
  intros Hl Hsrc Ho Hld. cbv zeta.
  assert (E : exists ps,
    scriptOnerror i s
    = set_promises ps (set_promise None (log ErrorScriptFailed
        (set_scripts (<[i := mkScript (src sc) (owner sc) false]> (scripts s)) s)))).
  { unfold scriptOnerror, settle. rewrite Hl, Ho. simpl.
    destruct (promises s !! p) as [[| |]|]; eexists;
      try reflexivity; by destruct s. }
  destruct E as [ps E]. rewrite E. clear E.
  set (s1 := set_promises _ _).
  assert (Hin : mkScript (src sc) (owner sc) false ∈ scripts s1).
  { subst s1. simpl. apply list_elem_of_lookup. exists i.
    apply list_lookup_insert_eq. by apply lookup_lt_Some in Hl. }
  destruct (present_script_fulfils s1 _ eq_refl Hld Hin Hsrc)
    as (H1 & H2 & _ & H4 & _).
  by repeat split.
Qed.

End Properties.

(** ** Instances on the sample pages *)

Lemma C7_malformed_wrapper_only_logs_witness :
  let s := init CONFIG prefetched_page in
  console (processEmbed CONFIG 1 0 s) = console s ++ [WarnInvalidWrapper] /\
  timers (processEmbed CONFIG 1 0 s) = timers s.
Proof.
  pose proof (C7_malformed_wrapper_only_logs CONFIG
                (init CONFIG prefetched_page) 1 0 broken_wrapper) as H.
  cbv zeta in *.
  destruct H as (_ & Hc & _ & _ & _ & _ & _ & Ht & _).
  - reflexivity.
  - left. reflexivity.
  - split; [exact Hc | exact Ht].
Defined.

Lemma C9_present_script_assumed_ready_witness :
  let s := set_scripts [mkScript (scriptSrc CONFIG) None true] (boot sample_page) in
  promises (loadInstagramScript CONFIG s).1 !! (loadInstagramScript CONFIG s).2
    = Some Fulfilled /\
  scripts (loadInstagramScript CONFIG s).1 = [mkScript (scriptSrc CONFIG) None true].
Proof.
  pose proof (C9_present_script_assumed_ready CONFIG
                (set_scripts [mkScript (scriptSrc CONFIG) None true] (boot sample_page))
                (mkScript (scriptSrc CONFIG) None true)) as H.
  cbv zeta in *.
  destruct H as (Hp & _ & _ & Hs & _).
  - reflexivity.
  - reflexivity.
  - apply list_elem_of_here.
  - reflexivity.
  - split; [exact Hp | exact Hs].
Defined.

Lemma C10_terminal_failure_rendering_witness :
  let s := init CONFIG prefetched_page in
  timers (processEmbed_catch CONFIG 1 3 s) = timers s /\
  wrappers (processEmbed_catch CONFIG 1 3 s) = wrappers s.
Proof.
  pose proof (C10_terminal_failure_rendering CONFIG
                (init CONFIG prefetched_page) 1 3) as H.
  cbv zeta in *.
  destruct H as (Ht & _ & _ & _ & _ & _ & Hw).
  - simpl. lia.
  - split; [exact Ht|].
    apply (Hw broken_wrapper); [reflexivity|].
    right. exists (mkPlaceholder false None). split; reflexivity.
Defined.

Lemma C8_hook_is_best_effort_witness :
  let s := set_hook HookThrows (new_promise Fulfilled (init CONFIG prefetched_page)).1 in
  let c := mkCont 0 0 0 "https://www.instagram.com/p/abc/"%string in
  wrapper_loaded (processEmbed_resume CONFIG c s) 0 = true /\
  wrappers (hookCallback (processEmbed_resume CONFIG c s))
    = wrappers (processEmbed_resume CONFIG c s).
Proof.
  pose proof (C8_hook_is_best_effort CONFIG
                (set_hook HookThrows (new_promise Fulfilled (init CONFIG prefetched_page)).1)
                (mkCont 0 0 0 "https://www.instagram.com/p/abc/"%string)
                sample_wrapper) as H.
  cbv zeta in *.
  destruct H as (_ & Hl & _ & _ & _ & Hh).
  - reflexivity.
  - reflexivity.
  - split; [exact Hl | exact (proj1 (Hh _))].
Defined.

(** The node of the sample page once its embed is in place: a click and
    the preload leave the state as it is. *)
Lemma triggers_skip_loaded_node_witness :
  let s := run CONFIG [EvIntersection [(0, true)]; EvScriptLoad 0 HookWorks]
             (init CONFIG sample_page) in
  manualClick CONFIG 0 s = s /\ preloadEntry CONFIG s 0 = s.
Proof.
  pose proof (triggers_skip_loaded_node CONFIG
                (run CONFIG [EvIntersection [(0, true)]; EvScriptLoad 0 HookWorks]
                   (init CONFIG sample_page)) 0) as H.
  cbv zeta in *.
  destruct H as (Hc & Hp & _).
  - vm_compute. reflexivity.
  - split; [apply Hc; vm_compute; reflexivity | exact Hp].
Defined.

(** C1. processEmbed has no check of the loaded mark; the click
    listener, the observer callback and the preload each make the check
    before calling it, and the retry callback does not.  The observer
    activates the node and the script fetch errors, so a retry is
    scheduled; a click on the manual button then loads the embed; when
    the retry fires the node is marked loaded, yet processEmbed runs
    again, calls the gate again and appends a second blockquote. *)
Lemma C1_retry_on_loaded_node_inserts_again :
  let s := run CONFIG [EvIntersection [(0, true)]; EvScriptError 0; EvClick 0]
             (init CONFIG sample_page) in
  let s' := step CONFIG s EvTimer in
  wrapper_loaded s 0 = true /\
  length (embeds_of 0 s) = 1 /\
  timers s = [mkTimer 1000 (TRetry 0 1)] /\
  length (embeds_of 0 s') = 2 /\
  length (gate_calls s') = S (length (gate_calls s)).
Proof. vm_compute. repeat split. Qed.

Lemma C5_automatic_triggers_check_loaded_mark_witness :
  let s := init CONFIG sample_page in
  calls_of 0 (preloadVisibleEmbeds CONFIG s) = calls_of 0 s ++ [(0, 0, now s)].
Proof.
  pose proof (C5_automatic_triggers_check_loaded_mark CONFIG
                (init CONFIG sample_page) 0 sample_wrapper) as H.
  cbv zeta in *.
  destruct H as (Hp & _).
  - reflexivity.
  - apply Hp; reflexivity.
Defined.

(** C5, as stated, fails in both orders.  The preload activates the
    visible node, and the observer reports it while the script is still
    being fetched: a second activation.  Or the observer activates it
    first and the preload finds it still without the loaded mark.  When
    the script arrives, both frames append a blockquote. *)
Lemma C5_both_automatic_triggers_activate :
  let eager_first :=
    run CONFIG [EvWindowLoad; EvTimer; EvIntersection [(0, true)]]
      (init CONFIG sample_page) in
  let observer_first :=
    run CONFIG [EvIntersection [(0, true)]; EvWindowLoad; EvTimer]
      (init CONFIG sample_page) in
  calls_of 0 eager_first = [(0, 0, 500); (0, 0, 500)] /\
  calls_of 0 observer_first = [(0, 0, 0); (0, 0, 500)] /\
  length (embeds_of 0 (step CONFIG eager_first (EvScriptLoad 0 HookWorks))) = 2 /\
  length (embeds_of 0 (step CONFIG observer_first (EvScriptLoad 0 HookWorks))) = 2.
Proof. vm_compute. repeat split. Qed.

(** C6 on the sample page.  After the fetch error the two module
    variables are back to their initial values and the suspended frame
    has been rejected (its retry is scheduled).  The failed element is
    still in the document, so the next call of the gate finds it, sets
    the loaded flag and returns a fulfilled promise: no element is
    appended and nothing is being fetched. *)
Theorem C6_failed_fetch_is_not_reattempted :
  let s := run CONFIG [EvIntersection [(0, true)]; EvScriptError 0]
             (init CONFIG sample_page) in
  let s' := (loadInstagramScript CONFIG s).1 in
  let p := (loadInstagramScript CONFIG s).2 in
  (isInstagramScriptLoaded s = false /\
   instagramScriptPromise s = None /\
   promises s = [Rejected] /\
   awaiting s = [] /\
   timers s = [mkTimer 1000 (TRetry 0 1)]) /\
  (scripts s' = scripts s /\
   List.filter fetching (scripts s') = [] /\
   length (injected s') = 1 /\
   isInstagramScriptLoaded s' = true /\
   promises s' !! p = Some Fulfilled).
Proof. vm_compute. repeat split. Qed.

(** With the default configuration: four calls, at 0, 1000, 3000 and
    6000 ms, that is delays of 1000, 2000 and 3000 ms; the overlay of
    the node then is the error affordance. *)
Lemma C3_retry_budget_and_backoff_witness :
  let s := init CONFIG bodyless_page in
  let sf := run_timers CONFIG 3 (drain CONFIG (processEmbed CONFIG 0 0 s)) in
  calls sf
  = [(0, 0, 0); (0, 1, 1000); (0, 2, 1000 + 2000); (0, 3, 1000 + 2000 + 3000)] /\
  timers sf = [] /\
  wrappers sf !! 0
  = Some (mkWrapper (data_permalink sample_wrapper)
            (Some (mkPlaceholder false (Some ErrorAffordance)))
            false [] (rect sample_wrapper)).
Proof.
  pose proof (C3_retry_budget_and_backoff CONFIG (init CONFIG bodyless_page) 0) as H.
  cbv zeta in *.
  destruct H as (Hc & _ & Ht & _ & _ & _ & _ & (W & ph & HW & Hph & Hsf) & _).
  - right. repeat split.
  - exists sample_wrapper. eexists. eexists. repeat split.
  - reflexivity.
  - reflexivity.
  - split; [exact Hc|]. split; [exact Ht|].
    injection HW as <-. injection Hph as <-. exact Hsf.
Defined.

(** C3, as stated, fails.  On the page without a body every attempt
    fails.  The observer and the preload both activate the node, and the
    two chains make eight calls on it.  And when a single chain has come
    to its end (four calls, no timer left, the error state shown), the
    preload that follows the window load calls processEmbed on the node
    a fifth time and a retry is scheduled again. *)
Lemma C3_budget_is_per_activation :
  let s0 := init CONFIG bodyless_page in
  let both :=
    run_timers CONFIG 10
      (run CONFIG [EvIntersection [(0, true)]; EvWindowLoad; EvTimer] s0) in
  let failed := run_timers CONFIG 10 (run CONFIG [EvIntersection [(0, true)]] s0) in
  let again := run CONFIG [EvWindowLoad; EvTimer] failed in
  (length (calls_of 0 both) = 8 /\ timers both = []) /\
  (length (calls_of 0 failed) = 4 /\ timers failed = [] /\
   last (console failed) = Some ErrorMaxRetries) /\
  (length (calls_of 0 again) = 5 /\
   timers again = [mkTimer (1000 + 2000 + 3000 + 500 + 1000) (TRetry 0 1)]).
Proof. vm_compute. repeat split. Qed.


(** * Further properties of the loader *)

(** ** Lifting a property of the gate to every run *)

Section GateLift.

Variable cfg : Config.
Variable I : State -> Prop.

Hypothesis I_view : forall s s', gate_view s' = gate_view s -> I s -> I s'.
Hypothesis I_load : forall s, I s -> I (loadInstagramScript cfg s).1.
Hypothesis I_onload : forall i h s,
  signal_due s i = true -> I s -> I (scriptOnload i h s).
Hypothesis I_onerror : forall i s,
  signal_due s i = true -> I s -> I (scriptOnerror i s).

Lemma lift_processEmbed w rc s : I s -> I (processEmbed cfg w rc s).
Proof.
  intros HI. unfold processEmbed.
  destruct (wrappers s !! w) as [W|]; [|exact HI].
  destruct (truthy_permalink _) as [pl|]; [destruct (placeholder W)|];
    try (apply (I_view s); [reflexivity|exact HI]).
  destruct (loadInstagramScript _ _) as [s1 q] eqn:E.
  assert (E1 : s1 = (loadInstagramScript cfg (record_call w rc s)).1) by by rewrite E.
  apply (I_view s1); [reflexivity|]. rewrite E1. apply I_load.
  apply (I_view s); [reflexivity|exact HI].
Qed.

Lemma gate_view_resume c s : gate_view (processEmbed_resume cfg c s) = gate_view s.
Proof.
  unfold processEmbed_resume, processEmbed_success, processEmbed_catch.
  destruct (promises s !! c_promise c) as [[| |]|]; try reflexivity.
  - simpl. by destruct (hook_present _).
  - by destruct (_ <? _).
Qed.

Lemma gate_view_resume_all l : forall s,
  gate_view (foldl (fun st c => processEmbed_resume cfg c st) s l) = gate_view s.
Proof.
  induction l as [|c l IH]; intros s; [reflexivity|]. simpl.
  by rewrite IH, gate_view_resume.
Qed.

Lemma lift_drain s : I s -> I (drain cfg s).
Proof.
  intros HI. unfold drain. eapply I_view; [apply gate_view_resume_all|].
  apply (I_view s); [reflexivity|exact HI].
Qed.

Lemma lift_fold (f : State -> nat -> State) l :
  (forall s w, I s -> I (f s w)) -> forall s, I s -> I (foldl f s l).
Proof.
  intros Hf. induction l as [|w l IH]; intros s HI; [exact HI|]. simpl.
  apply IH. by apply Hf.
Qed.

Lemma lift_preload s : I s -> I (preloadVisibleEmbeds cfg s).
Proof.
  unfold preloadVisibleEmbeds. apply lift_fold.
  intros st w HI. unfold preloadEntry.
  destruct (wrappers st !! w); [|exact HI].
  destruct (_ && _); [|exact HI]. by apply lift_processEmbed.
Qed.

Lemma lift_observerCallback entries : forall s,
  I s -> I (observerCallback cfg entries s).
Proof.
  unfold observerCallback.
  induction entries as [|[w b] entries IH]; intros s HI; [exact HI|]. simpl.
  apply IH. destruct b; [|exact HI].
  apply (I_view (if negb (wrapper_loaded s w) then processEmbed cfg w 0 s else s));
    [reflexivity|].
  destruct (negb _); [|exact HI]. by apply lift_processEmbed.
Qed.

Lemma lift_fireTimer s : I s -> I (fireTimer cfg s).
Proof.
  intros HI. unfold fireTimer. destruct (pop_timer (timers s)) as [[t rest]|]; [|exact HI].
  set (s1 := set_now _ _).
  assert (HI1 : I s1) by (apply (I_view s); [reflexivity|exact HI]).
  destruct (task t) as [w rc| |]; simpl.
  - by apply lift_processEmbed.
  - unfold hookCallback.
    destruct (hook s1); (apply (I_view s1); [reflexivity|exact HI1]).
  - by apply lift_preload.
Qed.

(** Events other than the signals of a script element. *)
Lemma lift_handle_quiet ev s : is_signal ev = false -> I s -> I (handle cfg ev s).
Proof.
  intros Hq HI. destruct ev as [b|entries| | |dt|i h|i|v rs]; simpl; try discriminate.
  - unfold manualClick. destruct (buttons s !! b) as [[w|]|]; try exact HI.
    destruct (negb _); [|exact HI]. by apply lift_processEmbed.
  - destruct (entries_observed _ _); [|exact HI]. by apply lift_observerCallback.
  - apply (I_view s); [reflexivity|exact HI].
  - by apply lift_fireTimer.
  - apply (I_view s); [reflexivity|exact HI].
  - apply (I_view s); [reflexivity|exact HI].
Qed.

Lemma lift_run_quiet evs : forall s,
  forallb (fun ev => negb (is_signal ev)) evs = true -> I s -> I (run cfg evs s).
Proof.
  unfold run. induction evs as [|ev evs IH]; intros s Hq HI; [exact HI|]. simpl in *.
  apply andb_prop in Hq as [Hev Hq]. apply negb_true_iff in Hev.
  apply IH; [exact Hq|]. unfold step. by apply lift_drain, lift_handle_quiet.
Qed.

Lemma lift_handle ev s : I s -> I (handle cfg ev s).
Proof.
  intros HI. destruct (is_signal ev) eqn:Hq; [|by apply lift_handle_quiet].
  destruct ev as [b|entries| | |dt|i h|i|v rs]; try discriminate; simpl.
  - destruct (signal_due s i) eqn:Hd; [by apply I_onload|exact HI].
  - destruct (signal_due s i) eqn:Hd; [by apply I_onerror|exact HI].
Qed.

Lemma lift_run evs : forall s, I s -> I (run cfg evs s).
Proof.
  unfold run. induction evs as [|ev evs IH]; intros s HI; [exact HI|]. simpl.
  apply IH. unfold step. by apply lift_drain, lift_handle.
Qed.

Lemma lift_init pg : I (boot pg) -> I (init cfg pg).
Proof.
  intros HI. unfold init. apply lift_drain. unfold initLazyLoading.
  destruct (wrappers (boot pg)) as [|W0 ws]; [exact HI|].
  destruct (negb _).
  - apply lift_fold; [|apply (I_view (boot pg)); [reflexivity|exact HI]].
    intros st j Hst. by apply lift_processEmbed.
  - apply (I_view (boot pg)); [reflexivity|exact HI].
Qed.

End GateLift.

(** ** The scripts of the page, on every run *)

Section ScriptsInvariant.

Variable cfg : Config.

Lemma filter_le1_unique {A} (f : A -> bool) (l : list A) : forall i j x y,
  length (List.filter f l) <= 1 ->
  l !! i = Some x -> l !! j = Some y -> f x = true -> f y = true -> i = j.
Proof.
  assert (Hnil : forall (l' : list A) k z,
             List.filter f l' = [] -> l' !! k = Some z -> f z = true -> False).
  { intros l' k z Hf Hl Hz.
    assert (Hin : In z (List.filter f l')).
    { apply List.filter_In. split; [|exact Hz].
      apply list_elem_of_In, list_elem_of_lookup. by exists k. }
    rewrite Hf in Hin. destruct Hin. }
  induction l as [|a l IH]; intros i j x y Hlen Hi Hj Hx Hy; [discriminate|].
  simpl in Hlen. destruct i as [|i], j as [|j]; simpl in *.
  - reflexivity.
  - injection Hi as ->. rewrite Hx in Hlen. simpl in Hlen.
    destruct (List.filter f l) eqn:Hf; [|simpl in Hlen; lia].
    destruct (Hnil l j y Hf Hj Hy).
  - injection Hj as ->. rewrite Hy in Hlen. simpl in Hlen.
    destruct (List.filter f l) eqn:Hf; [|simpl in Hlen; lia].
    destruct (Hnil l i x Hf Hi Hx).
  - f_equal. apply (IH i j x y); try assumption.
    destruct (f a); simpl in Hlen; lia.
Qed.

Lemma scripts_inv_view s s' :
  gate_view s' = gate_view s -> scripts_inv cfg s -> scripts_inv cfg s'.
Proof.
  unfold gate_view. intros [= H1 H2 H3 H4 H5 H6]. unfold scripts_inv, injected.
  by rewrite H1, H3, H4.
Qed.

(** With no promise held by the gate, no fetch is in flight. *)
Lemma scripts_inv_idle s sc q :
  scripts_inv cfg s -> instagramScriptPromise s = None ->
  sc ∈ scripts s -> owner sc = Some q -> fetching sc = true -> False.
Proof.
  intros (_ & _ & H3) Hp Hin Ho Hf.
  rewrite Forall_forall in H3. destruct (H3 sc Hin q Ho Hf) as [Hq _]. congruence.
Qed.

(** An element appended by the gate is found by the next call. *)
Lemma scripts_inv_present s :
  scripts_inv cfg s -> script_present cfg s = false -> injected s = [].
Proof.
  intros (_ & H2 & _) Hsp. unfold injected.
  destruct (List.filter _ _) as [|sc l] eqn:Hf; [reflexivity|].
  assert (Hin : In sc (List.filter (fun sc => bool_decide (is_Some (owner sc))) (scripts s)))
    by (rewrite Hf; by left).
  apply List.filter_In in Hin as [Hin Ho]. apply bool_decide_eq_true_1 in Ho.
  apply list_elem_of_In in Hin. rewrite Forall_forall in H2.
  rewrite (script_present_intro cfg s sc Hin (H2 sc Hin Ho)) in Hsp. discriminate.
Qed.

Lemma scripts_inv_load s : scripts_inv cfg s -> scripts_inv cfg (loadInstagramScript cfg s).1.
Proof.
  intros HI. assert (HI' := HI). destruct HI' as (H1 & H2 & H3).
  unfold loadInstagramScript.
  destruct (instagramScriptPromise s) as [p|] eqn:Hp.
  { unfold scripts_inv, injected. simpl. rewrite Hp. by repeat split. }
  assert (Hidle : forall sc q, sc ∈ scripts s -> owner sc = Some q ->
                               fetching sc = true -> False).
  { intros sc q. by apply scripts_inv_idle. }
  assert (H3' : forall Q : nat -> Prop,
            Forall (fun sc => forall q, owner sc = Some q -> fetching sc = true -> Q q)
              (scripts s)).
  { intros Q. apply Forall_forall. intros sc Hin q Ho Hf.
    destruct (Hidle sc q Hin Ho Hf). }
  unfold scripts_inv, injected.
  destruct (isInstagramScriptLoaded s); simpl.
  { split; [exact H1|]. split; [exact H2|]. apply H3'. }
  destruct (script_present cfg s) eqn:Hsp; [|destruct (has_body s)]; simpl.
  - split; [exact H1|]. split; [exact H2|]. apply H3'.
  - pose proof (scripts_inv_present s HI Hsp) as Hnil. unfold injected in Hnil.
    split; [|split].
    + simpl. rewrite List.filter_app, Hnil. simpl. lia.
    + simpl. apply Forall_app. split; [exact H2|]. by repeat constructor.
    + simpl. apply Forall_app. split.
      * apply H3'.
      * constructor; [|constructor]. simpl. intros q [= <-] _.
        split; [reflexivity|]. by apply list_lookup_middle.
  - split; [exact H1|]. split; [exact H2|]. apply H3'.
Qed.

(** After a load or error signal nothing is in flight any more. *)
Lemma scripts_inv_signal s i sc p (s' : State) :
  scripts_inv cfg s ->
  scripts s !! i = Some sc -> owner sc = Some p -> fetching sc = true ->
  scripts s' = <[i := mkScript (src sc) (owner sc) false]> (scripts s) ->
  scripts_inv cfg s'.
Proof.
  intros (H1 & H2 & H3) Hl Ho Hf Hs'. unfold scripts_inv, injected. rewrite Hs'.
  split; [|split].
  - rewrite (length_filter_insert _ _ i sc); [exact H1|exact Hl|reflexivity].
  - apply Forall_insert; [exact H2|]. simpl.
    rewrite Forall_lookup in H2. by apply (H2 i sc).
  - apply Forall_lookup. intros j scj Hj q Hoj Hfj.
    destruct (decide (i = j)) as [<-|Hne].
    + rewrite list_lookup_insert_eq in Hj by (by apply lookup_lt_Some in Hl).
      injection Hj as <-. discriminate.
    + rewrite list_lookup_insert_ne in Hj by exact Hne.
      exfalso. apply Hne.
      apply (filter_le1_unique (fun sc => bool_decide (is_Some (owner sc)))
               (scripts s) i j sc scj); try assumption.
      * apply bool_decide_eq_true_2. rewrite Ho. by eexists.
      * apply bool_decide_eq_true_2. rewrite Hoj. by eexists.
Qed.

Lemma scripts_settle p st s : scripts (settle p st s) = scripts s.
Proof. unfold settle. by destruct (promises s !! p) as [[| |]|]. Qed.

Lemma scripts_inv_onload i h s :
  signal_due s i = true -> scripts_inv cfg s -> scripts_inv cfg (scriptOnload i h s).
Proof.
  intros Hd HI. unfold scriptOnload, signal_due in *.
  destruct (scripts s !! i) as [sc|] eqn:Hl; [|exact HI].
  destruct (owner sc) as [p|] eqn:Ho; [|exact HI].
  apply (scripts_inv_signal s i sc p); try assumption.
  rewrite scripts_settle. simpl. by rewrite Ho.
Qed.

Lemma scripts_inv_onerror i s :
  signal_due s i = true -> scripts_inv cfg s -> scripts_inv cfg (scriptOnerror i s).
Proof.
  intros Hd HI. unfold scriptOnerror, signal_due in *.
  destruct (scripts s !! i) as [sc|] eqn:Hl; [|exact HI].
  destruct (owner sc) as [p|] eqn:Ho; [|exact HI].
  apply (scripts_inv_signal s i sc p); try assumption.
  rewrite scripts_settle. simpl. by rewrite Ho.
Qed.

Lemma scripts_inv_boot pg : scripts_inv cfg (boot pg).
Proof.
  unfold scripts_inv. rewrite injected_boot. simpl. split; [lia|].
  split; apply Forall_forall; intros sc Hin.
  - apply list_elem_of_fmap in Hin as (u & -> & _). simpl. by intros [q Hq].
  - apply list_elem_of_fmap in Hin as (u & -> & _). simpl. discriminate.
Qed.

Lemma scripts_inv_reachable pg evs : scripts_inv cfg (run cfg evs (init cfg pg)).
Proof.
  apply (lift_run cfg (scripts_inv cfg)).
  - apply scripts_inv_view.
  - apply scripts_inv_load.
  - apply scripts_inv_onload.
  - apply scripts_inv_onerror.
  - apply (lift_init cfg (scripts_inv cfg)).
    + apply scripts_inv_view.
    + apply scripts_inv_load.
    + apply scripts_inv_boot.
Qed.

(** X1. On every page and after any sequence of events, script errors
    included, the document holds at most one script element appended by
    the gate, and that element has the configured src. *)
Theorem gate_injects_at_most_once (pg : Page) (evs : list Event) :
  let s := run cfg evs (init cfg pg) in
  length (injected s) <= 1 /\
  forall sc, sc ∈ injected s -> src sc = scriptSrc cfg.
Proof.
  cbv zeta. destruct (scripts_inv_reachable pg evs) as (H1 & H2 & _).
  split; [exact H1|]. intros sc Hin. unfold injected in Hin.
  apply list_elem_of_In, List.filter_In in Hin as [Hin Ho].
  rewrite Forall_forall in H2. apply H2.
  - by apply list_elem_of_In.
  - by apply bool_decide_eq_true_1 in Ho.
Qed.

(** ** Only a script signal changes the promise held by the gate *)

Lemma cache_settled_run p st l evs s :
  forallb (fun ev => negb (is_signal ev)) evs = true ->
  cache_settled p st l s -> cache_settled p st l (run cfg evs s).
Proof.
  intros Hq. apply (lift_run_quiet cfg (cache_settled p st l)); [| |exact Hq].
  - unfold gate_view, cache_settled. intros s1 s2 [= H1 H2 H3 H4 H5 H6].
    by rewrite H1, H3, H4.
  - intros s1 (Hp & Hs & Hl). unfold loadInstagramScript. rewrite Hp. by repeat split.
Qed.

(** X2. The promise held by the gate is replaced or settled only by a
    signal of a script element.  On a page reached by any sequence of
    events, no click, intersection, window load, timer, clock advance or
    layout change touches it: after any such events the gate holds the
    same promise in the same state, so every further call returns it,
    and the script elements of the document are the same (nothing is
    fetched again).  In particular a promise rejected by an exception of
    the executor stays cached and rejected: the fetch is never attempted
    again. *)
Theorem gate_promise_changes_only_on_signal (pg : Page) (evs0 evs : list Event)
    (p : nat) (st : PromiseState) :
  let s := run cfg evs0 (init cfg pg) in
  instagramScriptPromise s = Some p ->
  promises s !! p = Some st ->
  forallb (fun ev => negb (is_signal ev)) evs = true ->
  let s' := run cfg evs s in
  instagramScriptPromise s' = Some p /\
  promises s' !! p = Some st /\
  scripts s' = scripts s /\
  (loadInstagramScript cfg s').2 = p.
Proof.
  cbv zeta. intros Hp Hs Hq.
  set (s := run cfg evs0 (init cfg pg)) in *.
  destruct (cache_settled_run p st (scripts s) evs s Hq) as (H1 & H2 & H3).
  { by repeat split. }
  repeat split; try assumption.
  unfold loadInstagramScript. by rewrite H1.
Qed.

End ScriptsInvariant.

(** On the page without a body the executor throws: the gate keeps the
    rejected promise through the window load, the preload and every retry
    timer, and no script element is ever appended. *)
Lemma gate_promise_changes_only_on_signal_witness :
  let s := run CONFIG [EvIntersection [(0, true)]] (init CONFIG bodyless_page) in
  let evs := [EvWindowLoad; EvTimer; EvTimer; EvClick 0; EvTimer] in
  instagramScriptPromise s = Some 0 /\
  promises s !! 0 = Some Rejected /\
  instagramScriptPromise (run CONFIG evs s) = Some 0 /\
  promises (run CONFIG evs s) !! 0 = Some Rejected /\
  scripts (run CONFIG evs s) = scripts s.
Proof.
  pose proof (gate_promise_changes_only_on_signal CONFIG bodyless_page
                [EvIntersection [(0, true)]]
                [EvWindowLoad; EvTimer; EvTimer; EvClick 0; EvTimer] 0 Rejected) as H.
  cbv zeta in H. cbv zeta.
  assert (Hp : instagramScriptPromise
                 (run CONFIG [EvIntersection [(0, true)]] (init CONFIG bodyless_page))
               = Some 0) by (vm_compute; reflexivity).
  assert (Hs : promises
                 (run CONFIG [EvIntersection [(0, true)]] (init CONFIG bodyless_page))
               !! 0 = Some Rejected) by (vm_compute; reflexivity).
  destruct (H Hp Hs) as (Hp' & Hs' & Hsc & _).
  - reflexivity.
  - split; [exact Hp|]. split; [exact Hs|].
    split; [exact Hp'|]. split; [exact Hs' | exact Hsc].
Defined.

(** * C2: one fetch, one promise, one outcome for every caller *)

Section SharedOutcome.

Variable cfg : Config.

Lemma frames_inv_same s s' :
  gate_calls s' = gate_calls s -> awaiting s' = awaiting s ->
  length (wrappers s') = length (wrappers s) -> frames_inv s -> frames_inv s'.
Proof. unfold frames_inv. by intros -> -> ->. Qed.

Lemma gate_calls_load s :
  gate_calls (loadInstagramScript cfg s).1
  = gate_calls s ++ [(loadInstagramScript cfg s).2].
Proof.
  unfold loadInstagramScript.
  destruct (instagramScriptPromise s); [reflexivity|].
  destruct (isInstagramScriptLoaded s); [reflexivity|].
  destruct (script_present cfg s); [reflexivity|].
  destruct (has_body s); reflexivity.
Qed.

Lemma frames_inv_processEmbed w rc s :
  frames_inv s -> frames_inv (processEmbed cfg w rc s).
Proof.
  intros HI. unfold processEmbed.
  destruct (wrappers s !! w) as [W|] eqn:HW; [|exact HI].
  destruct (truthy_permalink _) as [pl|]; [destruct (placeholder W)|];
    try exact HI.
  destruct (loadInstagramScript _ _) as [s1 q] eqn:E.
  assert (E1 : s1 = (loadInstagramScript cfg (record_call w rc s)).1) by by rewrite E.
  assert (E2 : q = (loadInstagramScript cfg (record_call w rc s)).2) by by rewrite E.
  unfold frames_inv. simpl. apply Forall_app. split.
  - rewrite E1, gate_awaiting, gate_calls_load, gate_wrappers. simpl.
    eapply Forall_impl; [exact HI|]. intros c [H1 H2].
    split; [|exact H2]. apply elem_of_app. by left.
  - constructor; [|constructor]. simpl. split.
    + rewrite E2, E1, gate_calls_load. apply elem_of_app. right.
      apply list_elem_of_here.
    + rewrite E1, gate_wrappers. simpl. by apply lookup_lt_Some in HW.
Qed.

Lemma resume_wrappers_length c s :
  length (wrappers (processEmbed_resume cfg c s)) = length (wrappers s).
Proof.
  unfold processEmbed_resume, processEmbed_success, processEmbed_catch.
  destruct (promises s !! c_promise c) as [[| |]|]; try reflexivity.
  - simpl. destruct (hook_present _); simpl; apply length_alter.
  - destruct (_ <? _); simpl; [reflexivity|apply length_alter].
Qed.

Lemma resume_all_wrappers_length l : forall s,
  length (wrappers (foldl (fun st c => processEmbed_resume cfg c st) s l))
  = length (wrappers s).
Proof.
  induction l as [|c l IH]; intros s; [reflexivity|]. simpl.
  by rewrite IH, resume_wrappers_length.
Qed.

Lemma frames_inv_drain s : frames_inv s -> frames_inv (drain cfg s).
Proof.
  intros HI. unfold drain.
  match goal with |- context [foldl ?f ?s0 ?l] =>
    apply (frames_inv_same s0);
      [by destruct (same_gate_resume_all cfg l s0) as (_ & _ & -> & _)
      |by destruct (resume_all_frames cfg l s0) as [_ ->]
      |apply resume_all_wrappers_length|] end.
  unfold frames_inv. simpl. by apply Forall_list_filter.
Qed.

Lemma frames_inv_fold (f : State -> nat -> State) l :
  (forall s w, frames_inv s -> frames_inv (f s w)) ->
  forall s, frames_inv s -> frames_inv (foldl f s l).
Proof.
  intros Hf. induction l as [|w l IH]; intros s HI; [exact HI|]. simpl.
  apply IH. by apply Hf.
Qed.

Lemma frames_inv_preload s :
  frames_inv s -> frames_inv (preloadVisibleEmbeds cfg s).
Proof.
  unfold preloadVisibleEmbeds. apply frames_inv_fold.
  intros st w HI. unfold preloadEntry.
  destruct (wrappers st !! w); [|exact HI].
  destruct (_ && _); [|exact HI]. by apply frames_inv_processEmbed.
Qed.

Lemma frames_inv_observerCallback entries : forall s,
  frames_inv s -> frames_inv (observerCallback cfg entries s).
Proof.
  unfold observerCallback.
  induction entries as [|[w b] entries IH]; intros s HI; [exact HI|]. simpl.
  apply IH. destruct b; [|exact HI].
  destruct (negb _); [|exact HI].
  apply (frames_inv_same (processEmbed cfg w 0 s)); try reflexivity.
  by apply frames_inv_processEmbed.
Qed.

Lemma frames_inv_fireTimer s : frames_inv s -> frames_inv (fireTimer cfg s).
Proof.
  intros HI. unfold fireTimer.
  destruct (pop_timer (timers s)) as [[t rest]|]; [|exact HI].
  set (s1 := set_now _ _).
  assert (HI1 : frames_inv s1) by exact HI.
  destruct (task t) as [w rc| |]; simpl.
  - by apply frames_inv_processEmbed.
  - unfold hookCallback. destruct (hook s1); exact HI1.
  - by apply frames_inv_preload.
Qed.

Lemma set_rects_length rs : forall ws, length (set_rects rs ws) = length ws.
Proof.
  induction rs as [|r rs IH]; intros [|W ws]; simpl; try reflexivity.
  by rewrite IH.
Qed.

Lemma frames_inv_handle ev s : frames_inv s -> frames_inv (handle cfg ev s).
Proof.
  intros HI. destruct ev as [b|entries| | |dt|i h|i|v rs]; simpl.
  - unfold manualClick. destruct (buttons s !! b) as [[w|]|]; try exact HI.
    destruct (negb _); [|exact HI]. by apply frames_inv_processEmbed.
  - destruct (entries_observed _ _); [|exact HI]. by apply frames_inv_observerCallback.
  - exact HI.
  - by apply frames_inv_fireTimer.
  - exact HI.
  - destruct (signal_due s i); [|exact HI].
    unfold scriptOnload. destruct (scripts s !! i) as [sc|]; [|exact HI].
    destruct (owner sc) as [p|]; [|exact HI].
    unfold settle. simpl. destruct (promises s !! p) as [[| |]|]; exact HI.
  - destruct (signal_due s i); [|exact HI].
    unfold scriptOnerror. destruct (scripts s !! i) as [sc|]; [|exact HI].
    destruct (owner sc) as [p|]; [|exact HI].
    unfold settle. simpl. destruct (promises s !! p) as [[| |]|]; exact HI.
  - unfold frames_inv. simpl. rewrite set_rects_length. exact HI.
Qed.

Lemma frames_inv_init pg : frames_inv (init cfg pg).
Proof.
  unfold init. apply frames_inv_drain. unfold initLazyLoading.
  assert (HI0 : frames_inv (boot pg)) by constructor.
  destruct (wrappers (boot pg)) as [|W0 ws]; [exact HI0|].
  destruct (negb _); [|exact HI0].
  apply frames_inv_fold; [|exact HI0].
  intros st j HI. by apply frames_inv_processEmbed.
Qed.

Lemma frames_inv_run evs : forall s, frames_inv s -> frames_inv (run cfg evs s).
Proof.
  unfold run. induction evs as [|ev evs IH]; intros s HI; [exact HI|]. simpl.
  apply IH. unfold step. by apply frames_inv_drain, frames_inv_handle.
Qed.

(** Every state the page reaches is the result of a checkpoint. *)
Lemma reachable_after_drain pg evs :
  exists s0, run cfg evs (init cfg pg) = drain cfg s0.
Proof.
  destruct evs as [|ev evs _] using rev_ind.
  - eexists. reflexivity.
  - unfold run. rewrite foldl_app. simpl. eexists. reflexivity.
Qed.

(** *** The checkpoint when every suspended frame is ready *)

Lemma filter_all {A} (f : A -> bool) (l : list A) :
  Forall (fun x => f x = true) l ->
  List.filter f l = l /\ List.filter (fun x => negb (f x)) l = [].
Proof.
  induction 1 as [|x l Hx _ [IH1 IH2]]; [by split|]. simpl.
  rewrite Hx. simpl. by rewrite IH1, IH2.
Qed.

Lemma drain_all_ready s :
  Forall (fun c => is_settled s (c_promise c) = true) (awaiting s) ->
  drain cfg s
  = foldl (fun st c => processEmbed_resume cfg c st) (set_awaiting [] s) (awaiting s).
Proof.
  intros Hall. unfold drain.
  destruct (filter_all (fun c => is_settled s (c_promise c)) (awaiting s) Hall)
    as [-> ->].
  reflexivity.
Qed.

Lemma success_loaded c s w :
  wrapper_loaded s w = true -> wrapper_loaded (processEmbed_success c s) w = true.
Proof.
  unfold wrapper_loaded, processEmbed_success. intros Hl.
  assert (Hw : match alter (attach_embed (c_permalink c)) (c_wrapper c) (wrappers s) !! w
               with Some W => loaded W | None => false end = true).
  { destruct (decide (c_wrapper c = w)) as [->|Hne].
    - rewrite list_lookup_alter_eq. by destruct (wrappers s !! w).
    - by rewrite list_lookup_alter_ne. }
  by destruct (hook_present _).
Qed.

Lemma success_embeds c s w e :
  e ∈ embeds_of w s -> e ∈ embeds_of w (processEmbed_success c s).
Proof.
  unfold embeds_of, processEmbed_success. intros He.
  assert (Hw : e ∈ match alter (attach_embed (c_permalink c)) (c_wrapper c) (wrappers s) !! w
                   with Some W => embeds W | None => [] end).
  { destruct (decide (c_wrapper c = w)) as [->|Hne].
    - rewrite list_lookup_alter_eq. destruct (wrappers s !! w); [|exact He].
      simpl. apply elem_of_app. by left.
    - by rewrite list_lookup_alter_ne. }
  by destruct (hook_present _).
Qed.

Lemma success_attaches c s :
  c_wrapper c < length (wrappers s) ->
  let s' := processEmbed_success c s in
  wrapper_loaded s' (c_wrapper c) = true /\
  createInstagramEmbed (c_permalink c) ∈ embeds_of (c_wrapper c) s'.
Proof.
  intros Hlt. apply lookup_lt_is_Some in Hlt as [W HW]. cbv zeta.
  unfold wrapper_loaded, embeds_of, processEmbed_success.
  assert (Hal : alter (attach_embed (c_permalink c)) (c_wrapper c) (wrappers s)
                  !! c_wrapper c = Some (attach_embed (c_permalink c) W))
    by by rewrite list_lookup_alter_eq, HW.
  destruct (hook_present _); simpl; rewrite Hal; simpl;
    (split; [reflexivity|]); apply elem_of_app; right; apply list_elem_of_here.
Qed.

Lemma success_console c s : console (processEmbed_success c s) = console s.
Proof. unfold processEmbed_success. by destruct (hook_present _). Qed.

(** Frames resumed on a fulfilled promise: each one attaches its embed
    and marks its node, nothing is logged, and what earlier frames did
    stays. *)
Lemma resume_all_fulfilled l : forall s,
  Forall (fun c => promises s !! c_promise c = Some Fulfilled /\
                   c_wrapper c < length (wrappers s)) l ->
  let sf := foldl (fun st c => processEmbed_resume cfg c st) s l in
  console sf = console s /\
  (forall w, wrapper_loaded s w = true -> wrapper_loaded sf w = true) /\
  (forall w e, e ∈ embeds_of w s -> e ∈ embeds_of w sf) /\
  (forall c, c ∈ l ->
     wrapper_loaded sf (c_wrapper c) = true /\
     createInstagramEmbed (c_permalink c) ∈ embeds_of (c_wrapper c) sf).
Proof.
  induction l as [|c l IH]; intros s Hall.
  - cbv zeta. simpl. do 3 (split; [done|]). intros c Hc. by apply elem_of_nil in Hc.
  - apply Forall_cons in Hall as [[Hf Hlt] Hall]. cbv zeta. simpl.
    assert (Hres : processEmbed_resume cfg c s = processEmbed_success c s)
      by (unfold processEmbed_resume; by rewrite Hf).
    rewrite Hres.
    destruct (IH (processEmbed_success c s)) as (Hc & Hl & He & Hfr).
    { rewrite <- Hres. eapply Forall_impl; [exact Hall|]. intros c' [H1 H2].
      by rewrite resume_promises, resume_wrappers_length. }
    destruct (success_attaches c s Hlt) as [Hcl Hce].
    split; [by rewrite Hc, success_console|].
    split; [intros w Hw; by apply Hl, success_loaded|].
    split; [intros w e Hw; by apply He, success_embeds|].
    intros c' [->|Hin]%elem_of_cons.
    + split; [by apply Hl|by apply He].
    + by apply Hfr.
Qed.

Lemma show_error_keeps W : loaded (show_error W) = loaded W /\ embeds (show_error W) = embeds W.
Proof.
  unfold show_error. destruct (placeholder W) as [ph|]; [|by split].
  destruct (overlay ph); by split.
Qed.

Lemma catch_nodes w rc s w' :
  embeds_of w' (processEmbed_catch cfg w rc s) = embeds_of w' s /\
  wrapper_loaded (processEmbed_catch cfg w rc s) w' = wrapper_loaded s w'.
Proof.
  unfold processEmbed_catch, embeds_of, wrapper_loaded.
  destruct (_ <? _); simpl; [by split|].
  destruct (decide (w = w')) as [->|Hne].
  - rewrite list_lookup_alter_eq. destruct (wrappers s !! w') as [W|]; [|by split].
    simpl. destruct (show_error_keeps W) as [-> ->]. by split.
  - rewrite list_lookup_alter_ne by exact Hne. by split.
Qed.

Lemma catch_console w rc s e :
  e ∈ console s -> e ∈ console (processEmbed_catch cfg w rc s).
Proof.
  intros He. unfold processEmbed_catch.
  destruct (_ <? _); simpl; repeat (apply elem_of_app; left); exact He.
Qed.

Lemma catch_timers w rc s t :
  t ∈ timers s -> t ∈ timers (processEmbed_catch cfg w rc s).
Proof.
  intros Ht. unfold processEmbed_catch.
  destruct (_ <? _); simpl; [apply elem_of_app; by left|exact Ht].
Qed.

Lemma catch_logs_and_retries w rc s :
  let s' := processEmbed_catch cfg w rc s in
  ErrorAttempt (rc + 1) ∈ console s' /\
  (rc < maxRetries cfg ->
   exists t, t ∈ timers s' /\ task t = TRetry w (rc + 1)).
Proof.
  cbv zeta. unfold processEmbed_catch.
  destruct (Nat.ltb_spec rc (maxRetries cfg)) as [Hlt|Hge]; simpl.
  - split; [apply elem_of_app; right; apply list_elem_of_here|].
    intros _. eexists. split; [apply elem_of_app; right; apply list_elem_of_here|].
    reflexivity.
  - split; [|lia]. apply elem_of_app. left. apply elem_of_app. right.
    apply list_elem_of_here.
Qed.

(** Frames resumed on a rejected promise: each one logs its failed
    attempt and, within the budget, sets its retry; no node gets an
    embed or the loaded class. *)
Lemma resume_all_rejected l : forall s,
  Forall (fun c => promises s !! c_promise c = Some Rejected) l ->
  let sf := foldl (fun st c => processEmbed_resume cfg c st) s l in
  (forall e, e ∈ console s -> e ∈ console sf) /\
  (forall t, t ∈ timers s -> t ∈ timers sf) /\
  (forall w, embeds_of w sf = embeds_of w s /\
             wrapper_loaded sf w = wrapper_loaded s w) /\
  (forall c, c ∈ l ->
     ErrorAttempt (c_retry c + 1) ∈ console sf /\
     (c_retry c < maxRetries cfg ->
      exists t, t ∈ timers sf /\ task t = TRetry (c_wrapper c) (c_retry c + 1))).
Proof.
  induction l as [|c l IH]; intros s Hall.
  - cbv zeta. simpl. do 3 (split; [done|]). intros c Hc. by apply elem_of_nil in Hc.
  - apply Forall_cons in Hall as [Hr Hall]. cbv zeta. simpl.
    assert (Hres : processEmbed_resume cfg c s
                   = processEmbed_catch cfg (c_wrapper c) (c_retry c) s)
      by (unfold processEmbed_resume; by rewrite Hr).
    destruct (IH (processEmbed_resume cfg c s)) as (Hc & Ht & Hn & Hfr).
    { eapply Forall_impl; [exact Hall|]. intros c' H1. by rewrite resume_promises. }
    rewrite Hres in *.
    destruct (catch_logs_and_retries (c_wrapper c) (c_retry c) s) as [Hlog Hretry].
    split; [intros e He; by apply Hc, catch_console|].
    split; [intros t Hin; by apply Ht, catch_timers|].
    split.
    { intros w. destruct (Hn w) as [-> ->]. apply catch_nodes. }
    intros c' [->|Hin]%elem_of_cons.
    + split; [by apply Hc|]. intros Hlt.
      destruct (Hretry Hlt) as (t & Hin & Htask). exists t. split; [by apply Ht|exact Htask].
    + by apply Hfr.
Qed.

(** C2. On any page and along any sequence of events in which no script
    error signal occurs, however many times the gate was called: at
    most one script element was created and appended by the gate, and
    every call returned one and the same promise, the one the gate still
    holds.  Every caller still suspended waits on that promise, which is
    not settled, and a further call returns it without touching the
    promises or the scripts.  Once it is fulfilled, a call on a
    well-formed node resumes with success at the same checkpoint.  While
    the fetch is in flight the promise is pending, and the signal of the
    script element decides for all suspended callers at once: on its
    load signal the promise is fulfilled and every one of them resumes,
    attaches its embed and marks its node, with nothing logged; on its
    error signal the promise is rejected and every one of them resumes
    in the catch block, logs its attempt and, within the budget, sets
    its retry, and no node gets an embed or the loaded class. *)
Theorem C2_single_injection_shared_promise (pg : Page) (evs : list Event) :
  forallb (fun ev => negb (is_script_error ev)) evs = true ->
  let s := run cfg evs (init cfg pg) in
  length (injected s) <= 1 /\
  (forall p q, p ∈ gate_calls s -> q ∈ gate_calls s -> p = q) /\
  (forall p, p ∈ gate_calls s -> instagramScriptPromise s = Some p) /\
  (forall c, c ∈ awaiting s ->
     instagramScriptPromise s = Some (c_promise c) /\
     is_settled s (c_promise c) = false) /\
  (forall p, instagramScriptPromise s = Some p ->
     (loadInstagramScript cfg s).2 = p /\
     promises (loadInstagramScript cfg s).1 = promises s /\
     scripts (loadInstagramScript cfg s).1 = scripts s) /\
  (forall p w rc W pl ph,
     instagramScriptPromise s = Some p -> promises s !! p = Some Fulfilled ->
     wrappers s !! w = Some W ->
     truthy_permalink (data_permalink W) = Some pl -> placeholder W = Some ph ->
     let s' := drain cfg (processEmbed cfg w rc s) in
     gate_calls s' = gate_calls s ++ [p] /\
     awaiting s' = [] /\
     wrapper_loaded s' w = true /\
     embeds_of w s' = embeds W ++ [createInstagramEmbed pl]) /\
  (forall i sc p,
     scripts s !! i = Some sc -> owner sc = Some p -> fetching sc = true ->
     instagramScriptPromise s = Some p /\
     promises s !! p = Some Pending /\
     (forall h,
        let s1 := step cfg s (EvScriptLoad i h) in
        promises s1 !! p = Some Fulfilled /\
        awaiting s1 = [] /\
        console s1 = console s /\
        (forall c, c ∈ awaiting s ->
           wrapper_loaded s1 (c_wrapper c) = true /\
           createInstagramEmbed (c_permalink c) ∈ embeds_of (c_wrapper c) s1)) /\
     (let s2 := step cfg s (EvScriptError i) in
      promises s2 !! p = Some Rejected /\
      awaiting s2 = [] /\
      (forall c, c ∈ awaiting s ->
         ErrorAttempt (c_retry c + 1) ∈ console s2 /\
         (c_retry c < maxRetries cfg ->
          exists t, t ∈ timers s2 /\ task t = TRetry (c_wrapper c) (c_retry c + 1))) /\
      (forall w, embeds_of w s2 = embeds_of w s /\
                 wrapper_loaded s2 w = wrapper_loaded s w))).
Proof.
  intros Hok. cbv zeta.
  pose proof (gate_inv_run cfg evs (init cfg pg) Hok (gate_inv_init cfg pg)) as HG.
  pose proof (frames_inv_run evs (init cfg pg) (frames_inv_init pg)) as HF.
  pose proof (scripts_inv_reachable cfg pg evs) as HS.
  destruct (reachable_after_drain pg evs) as [s0 Hs0].
  pose proof (drain_leaves_pending cfg s0) as HD. rewrite <- Hs0 in HD. clear Hs0 s0.
  set (s := run cfg evs (init cfg pg)) in *.
  assert (Hcalls : forall p, p ∈ gate_calls s -> instagramScriptPromise s = Some p).
  { unfold gate_inv in HG. destruct (instagramScriptPromise s) as [p0|].
    - destruct HG as [Hc _]. rewrite Forall_forall in Hc.
      intros p Hp. by rewrite (Hc p Hp).
    - destruct HG as (_ & Hc & _). rewrite Hc. intros p Hp. by apply elem_of_nil in Hp. }
  assert (Hfr : forall c, c ∈ awaiting s ->
            instagramScriptPromise s = Some (c_promise c) /\
            is_settled s (c_promise c) = false /\
            c_wrapper c < length (wrappers s)).
  { intros c Hc. unfold frames_inv in HF. rewrite Forall_forall in HF, HD.
    destruct (HF c Hc) as [H1 H2]. split; [by apply Hcalls|]. split; [by apply HD|exact H2]. }
  split; [by destruct HS as (H1 & _)|].
  split; [intros p q Hp Hq; apply Hcalls in Hp, Hq; congruence|].
  split; [exact Hcalls|].
  split; [intros c Hc; destruct (Hfr c Hc) as (H1 & H2 & _); by split|].
  split; [intros p Hp; unfold loadInstagramScript; rewrite Hp; by repeat split|].
  split.
  { intros p w rc W pl ph Hp Hful HW Hpl Hph.
    assert (Ha : awaiting s = []).
    { destruct (awaiting s) as [|c l] eqn:Ea; [reflexivity|]. exfalso.
      destruct (Hfr c) as (H1 & H2 & _); [apply list_elem_of_here|].
      rewrite Hp in H1. injection H1 as ->.
      unfold is_settled in H2. rewrite Hful in H2. discriminate. }
    destruct (processEmbed_ignores_loaded_mark cfg s w rc W pl ph p HW Hpl Hph Hp Hful Ha)
      as (He & Hg & _ & Hl & Haw).
    by repeat split. }
  intros i sc p Hi Ho Hf.
  destruct HS as (_ & _ & HS3). rewrite Forall_lookup in HS3.
  destruct (HS3 i sc Hi p Ho Hf) as [Hp Hpend].
  assert (Hsame : forall c, c ∈ awaiting s ->
            c_promise c = p /\ c_wrapper c < length (wrappers s)).
  { intros c Hc. destruct (Hfr c Hc) as (H1 & _ & H3). split; [congruence|exact H3]. }
  assert (Hdue : signal_due s i = true) by (unfold signal_due; by rewrite Hi).
  assert (Hlt : p < length (promises s)) by by apply lookup_lt_Some in Hpend.
  split; [exact Hp|]. split; [exact Hpend|]. split.
  - intros h. cbv zeta. unfold step, handle. rewrite Hdue.
    assert (E : exists s',
      scriptOnload i h s = s' /\
      promises s' = <[p := Fulfilled]> (promises s) /\
      awaiting s' = awaiting s /\ wrappers s' = wrappers s /\ console s' = console s).
    { unfold scriptOnload, settle. rewrite Hi, Ho. simpl. rewrite Hpend.
      eexists. split; [reflexivity|]. by repeat split. }
    destruct E as (s' & -> & Hps & Haw & Hws & Hcs).
    assert (Hful : promises s' !! p = Some Fulfilled)
      by (rewrite Hps; by apply list_lookup_insert_eq).
    rewrite drain_all_ready.
    2:{ rewrite Haw. apply Forall_forall. intros c Hc.
        destruct (Hsame c Hc) as [-> _]. unfold is_settled. by rewrite Hful. }
    destruct (resume_all_frames cfg (awaiting s') (set_awaiting [] s')) as [Hpf Haf].
    destruct (resume_all_fulfilled (awaiting s') (set_awaiting [] s'))
      as (Hcons & _ & _ & Hall).
    { rewrite Haw. apply Forall_forall. intros c Hc.
      destruct (Hsame c Hc) as [-> Hw]. simpl. rewrite Hws. by split. }
    rewrite Hpf, Haf, Hcons. simpl.
    split; [exact Hful|]. split; [reflexivity|]. split; [exact Hcs|].
    intros c Hc. apply Hall. by rewrite Haw.
  - cbv zeta. unfold step, handle. rewrite Hdue.
    assert (E : exists s',
      scriptOnerror i s = s' /\
      promises s' = <[p := Rejected]> (promises s) /\
      awaiting s' = awaiting s /\ wrappers s' = wrappers s).
    { unfold scriptOnerror, settle. rewrite Hi, Ho. simpl. rewrite Hpend.
      eexists. split; [reflexivity|]. by repeat split. }
    destruct E as (s' & -> & Hps & Haw & Hws).
    assert (Hrej : promises s' !! p = Some Rejected)
      by (rewrite Hps; by apply list_lookup_insert_eq).
    rewrite drain_all_ready.
    2:{ rewrite Haw. apply Forall_forall. intros c Hc.
        destruct (Hsame c Hc) as [-> _]. unfold is_settled. by rewrite Hrej. }
    destruct (resume_all_frames cfg (awaiting s') (set_awaiting [] s')) as [Hpf Haf].
    destruct (resume_all_rejected (awaiting s') (set_awaiting [] s'))
      as (_ & _ & Hn & Hall).
    { rewrite Haw. apply Forall_forall. intros c Hc.
      destruct (Hsame c Hc) as [-> _]. exact Hrej. }
    rewrite Hpf, Haf. simpl.
    split; [exact Hrej|]. split; [reflexivity|]. split.
    + intros c Hc. apply Hall. by rewrite Haw.
    + intros w. destruct (Hn w) as [-> ->].
      unfold embeds_of, wrapper_loaded. simpl. by rewrite Hws.
Qed.

End SharedOutcome.

(** Three activations of the sample node while one fetch is in flight:
    one element, three calls, one promise, three suspended frames.  The
    load signal fulfils the promise and resumes them all; the error
    signal rejects it and sends them all to the catch block. *)
Lemma C2_single_injection_shared_promise_witness :
  let s := run CONFIG [EvIntersection [(0, true)]; EvClick 0; EvWindowLoad; EvTimer]
             (init CONFIG sample_page) in
  let s1 := step CONFIG s (EvScriptLoad 0 HookWorks) in
  let s2 := step CONFIG s (EvScriptError 0) in
  (length (injected s) <= 1 /\ gate_calls s = [0; 0; 0] /\ length (awaiting s) = 3) /\
  (promises s1 !! 0 = Some Fulfilled /\ awaiting s1 = [] /\ wrapper_loaded s1 0 = true) /\
  (promises s2 !! 0 = Some Rejected /\ awaiting s2 = [] /\ wrapper_loaded s2 0 = false).
Proof.
  pose proof (C2_single_injection_shared_promise CONFIG sample_page
                [EvIntersection [(0, true)]; EvClick 0; EvWindowLoad; EvTimer]) as H.
  cbv zeta in *.
  destruct H as (Hn & _ & _ & _ & _ & _ & Hsig).
  - reflexivity.
  - destruct (Hsig 0 (mkScript (scriptSrc CONFIG) (Some 0) true) 0)
      as (_ & _ & Hload & Hrej & Haw2 & _ & Hnodes); try reflexivity.
    destruct (Hload HookWorks) as (Hful & Haw1 & _ & Hall).
    split; [split; [exact Hn|]; split; vm_compute; reflexivity|].
    split.
    + split; [exact Hful|]. split; [exact Haw1|].
      apply (Hall (mkCont 0 0 0 "https://www.instagram.com/p/abc/"%string)).
      vm_compute. apply list_elem_of_here.
    + split; [exact Hrej|]. split; [exact Haw2|].
      destruct (Hnodes 0) as [_ ->]. reflexivity.
Defined.

(** ** Lifting a property of the nodes and frames to every run *)

Section DomLift.

Variable cfg : Config.
Variable I : State -> Prop.

Hypothesis I_view : forall s s', dom_view s' = dom_view s -> I s -> I s'.
Hypothesis I_processEmbed : forall w rc s, I s -> I (processEmbed cfg w rc s).
Hypothesis I_drain : forall s, I s -> I (drain cfg s).
Hypothesis I_layout : forall v rs s,
  I s -> I (set_wrappers (set_rects rs (wrappers s)) (set_viewport v s)).

Lemma dom_fold (f : State -> nat -> State) l :
  (forall s w, I s -> I (f s w)) -> forall s, I s -> I (foldl f s l).
Proof.
  intros Hf. induction l as [|w l IH]; intros s HI; [exact HI|]. simpl.
  apply IH. by apply Hf.
Qed.

Lemma dom_preload s : I s -> I (preloadVisibleEmbeds cfg s).
Proof.
  unfold preloadVisibleEmbeds. apply dom_fold.
  intros st w HI. unfold preloadEntry.
  destruct (wrappers st !! w); [|exact HI].
  destruct (_ && _); [|exact HI]. by apply I_processEmbed.
Qed.

Lemma dom_observerCallback entries : forall s, I s -> I (observerCallback cfg entries s).
Proof.
  unfold observerCallback.
  induction entries as [|[w b] entries IH]; intros s HI; [exact HI|]. simpl.
  apply IH. destruct b; [|exact HI].
  apply (I_view (if negb (wrapper_loaded s w) then processEmbed cfg w 0 s else s));
    [reflexivity|].
  destruct (negb _); [|exact HI]. by apply I_processEmbed.
Qed.

Lemma dom_view_settle p st s : dom_view (settle p st s) = dom_view s.
Proof. unfold settle. by destruct (promises s !! p) as [[| |]|]. Qed.

Lemma dom_handle ev s : I s -> I (handle cfg ev s).
Proof.
  intros HI. destruct ev as [b|entries| | |dt|i h|i|v rs]; simpl.
  - unfold manualClick. destruct (buttons s !! b) as [[w|]|]; try exact HI.
    destruct (negb _); [|exact HI]. by apply I_processEmbed.
  - destruct (entries_observed _ _); [|exact HI]. by apply dom_observerCallback.
  - apply (I_view s); [reflexivity|exact HI].
  - unfold fireTimer. destruct (pop_timer (timers s)) as [[t rest]|]; [|exact HI].
    set (s1 := set_now _ _).
    assert (HI1 : I s1) by (apply (I_view s); [reflexivity|exact HI]).
    destruct (task t) as [w rc| |]; simpl.
    + by apply I_processEmbed.
    + unfold hookCallback.
      destruct (hook s1); (apply (I_view s1); [reflexivity|exact HI1]).
    + by apply dom_preload.
  - apply (I_view s); [reflexivity|exact HI].
  - destruct (signal_due s i); [|exact HI].
    unfold scriptOnload. destruct (scripts s !! i) as [sc|]; [|exact HI].
    destruct (owner sc) as [p|]; [|exact HI].
    apply (I_view s); [|exact HI]. by rewrite dom_view_settle.
  - destruct (signal_due s i); [|exact HI].
    unfold scriptOnerror. destruct (scripts s !! i) as [sc|]; [|exact HI].
    destruct (owner sc) as [p|]; [|exact HI].
    apply (I_view s); [|exact HI]. by rewrite dom_view_settle.
  - by apply I_layout.
Qed.

Lemma dom_run evs : forall s, I s -> I (run cfg evs s).
Proof.
  unfold run. induction evs as [|ev evs IH]; intros s HI; [exact HI|]. simpl.
  apply IH. unfold step. by apply I_drain, dom_handle.
Qed.

Lemma dom_init pg : I (boot pg) -> I (init cfg pg).
Proof.
  intros HI. unfold init. apply I_drain. unfold initLazyLoading.
  destruct (wrappers (boot pg)) as [|W0 ws]; [exact HI|].
  destruct (negb _).
  - apply dom_fold; [|apply (I_view (boot pg)); [reflexivity|exact HI]].
    intros st j Hst. by apply I_processEmbed.
  - apply (I_view (boot pg)); [reflexivity|exact HI].
Qed.

End DomLift.

(** ** What the script keeps true of the nodes *)

Section Nodes.

Variable cfg : Config.

(** What one call of processEmbed does to the nodes and the frames:
    nothing to the nodes, and at most one new frame, for a node that
    passed the validation. *)
Lemma processEmbed_dom w rc s :
  wrappers (processEmbed cfg w rc s) = wrappers s /\
  (awaiting (processEmbed cfg w rc s) = awaiting s \/
   exists p W pl ph,
     wrappers s !! w = Some W /\ truthy_permalink (data_permalink W) = Some pl /\
     placeholder W = Some ph /\
     awaiting (processEmbed cfg w rc s) = awaiting s ++ [mkCont p w rc pl]).
Proof.
  split; [apply processEmbed_wrappers|].
  unfold processEmbed. destruct (wrappers s !! w) as [W|] eqn:HW; [|by left].
  destruct (truthy_permalink _) as [pl|] eqn:Hpl; [|by left].
  destruct (placeholder W) as [ph|] eqn:Hph; [|by left].
  destruct (loadInstagramScript _ _) as [s1 q] eqn:E.
  assert (E1 : s1 = (loadInstagramScript cfg (record_call w rc s)).1) by by rewrite E.
  right. exists q, W, pl, ph.
  split; [done|]. split; [done|]. split; [done|]. simpl.
  f_equal. by rewrite E1, gate_awaiting.
Qed.

Lemma truthy_permalink_Some a pl : truthy_permalink a = Some pl -> a = Some pl.
Proof. destruct a as [[|]|]; simpl; congruence. Qed.

Lemma frame_ok_alter f j ws c :
  (forall W, data_permalink (f W) = data_permalink W) ->
  (forall W ph, placeholder W = Some ph -> exists ph', placeholder (f W) = Some ph') ->
  frame_ok ws c -> frame_ok (alter f j ws) c.
Proof.
  intros Hd Hp (W & ph & HW & Ht & Hph). unfold frame_ok.
  destruct (decide (j = c_wrapper c)) as [->|Hne].
  - destruct (Hp W ph Hph) as [ph' Hph'].
    exists (f W), ph'. rewrite list_lookup_alter_eq, HW, Hd. by repeat split.
  - exists W, ph. rewrite list_lookup_alter_ne by exact Hne. by repeat split.
Qed.

Lemma attach_embed_shape pl :
  (forall W, data_permalink (attach_embed pl W) = data_permalink W) /\
  (forall W ph, placeholder W = Some ph ->
     exists ph', placeholder (attach_embed pl W) = Some ph').
Proof. split; [reflexivity|]. intros W ph Hph. simpl. rewrite Hph. by eexists. Qed.

Lemma show_error_shape :
  (forall W, data_permalink (show_error W) = data_permalink W) /\
  (forall W ph, placeholder W = Some ph -> exists ph', placeholder (show_error W) = Some ph').
Proof.
  split.
  - intros W. unfold show_error. destruct (placeholder W) as [ph|]; [|reflexivity].
    by destruct (overlay ph).
  - intros W ph Hph. unfold show_error. rewrite Hph.
    destruct (overlay ph); simpl; eexists; [reflexivity|exact Hph].
Qed.

Lemma node_ok_attach pl W ph :
  data_permalink W = Some pl -> placeholder W = Some ph ->
  node_ok W -> node_ok (attach_embed pl W).
Proof.
  intros Hd Hph (He & _ & _). unfold node_ok. simpl. rewrite Hph.
  split; [|split].
  - apply Forall_app. split; [exact He|]. by repeat constructor.
  - split; [|reflexivity]. intros _ Hnil. by destruct (embeds W).
  - intros _. by eexists.
Qed.

Lemma node_ok_show_error W : node_ok W -> node_ok (show_error W).
Proof.
  intros HN. assert (HN' := HN). destruct HN' as (He & Hl & Hh). unfold show_error.
  destruct (placeholder W) as [ph|] eqn:Hph; [|exact HN].
  destruct (overlay ph); [|exact HN].
  unfold node_ok. simpl. split; [exact He|]. split; [exact Hl|].
  intros Hld. destruct (Hh Hld) as (ph' & Hph' & Hd).
  rewrite ?Hph in Hph'. injection Hph' as <-. by eexists.
Qed.

Lemma Forall_alter_at {A} (P : A -> Prop) (f : A -> A) (l : list A) (i : nat) :
  Forall P l -> (forall x, l !! i = Some x -> P (f x)) -> Forall P (alter f i l).
Proof.
  intros Hl Hf. apply Forall_lookup. intros j y Hj.
  destruct (decide (i = j)) as [<-|Hne].
  - rewrite list_lookup_alter_eq in Hj.
    destruct (l !! i) as [x|] eqn:Hx; [|discriminate].
    injection Hj as <-. by apply Hf.
  - rewrite list_lookup_alter_ne in Hj by exact Hne.
    rewrite Forall_lookup in Hl. by apply (Hl j).
Qed.

(** Resuming a frame that belongs to a validated node. *)
Lemma dom_inv_resume c s :
  frame_ok (wrappers s) c -> dom_inv s ->
  dom_inv (processEmbed_resume cfg c s) /\
  forall c', frame_ok (wrappers s) c' ->
             frame_ok (wrappers (processEmbed_resume cfg c s)) c'.
Proof.
  intros (W & ph & HW & Ht & Hph) (Hfr & Hn).
  unfold processEmbed_resume.
  destruct (promises s !! c_promise c) as [[| |]|]; try (split; [by split|done]).
  - assert (Hw : wrappers (processEmbed_success c s)
                 = alter (attach_embed (c_permalink c)) (c_wrapper c) (wrappers s)).
    { unfold processEmbed_success. simpl. by destruct (hook_present _). }
    assert (Ha : awaiting (processEmbed_success c s) = awaiting s).
    { unfold processEmbed_success. simpl. by destruct (hook_present _). }
    destruct (attach_embed_shape (c_permalink c)) as [Hs1 Hs2].
    assert (Hfo : forall c', frame_ok (wrappers s) c' ->
                    frame_ok (wrappers (processEmbed_success c s)) c').
    { intros c' Hc'. rewrite Hw. by apply frame_ok_alter. }
    split; [|exact Hfo]. split.
    + rewrite Ha. eapply Forall_impl; [exact Hfr|exact Hfo].
    + rewrite Hw. apply Forall_alter_at; [exact Hn|].
      intros x Hx. rewrite HW in Hx. injection Hx as <-.
      apply (node_ok_attach _ _ ph); [by apply truthy_permalink_Some|exact Hph|].
      rewrite Forall_lookup in Hn. by apply (Hn (c_wrapper c)).
  - unfold processEmbed_catch.
    destruct (_ <? _); [split; [by split|done]|].
    destruct show_error_shape as [Hs1 Hs2].
    assert (Hfo : forall c', frame_ok (wrappers s) c' ->
                    frame_ok (alter show_error (c_wrapper c) (wrappers s)) c').
    { intros c' Hc'. by apply frame_ok_alter. }
    split; [|exact Hfo]. split; simpl.
    + eapply Forall_impl; [exact Hfr|exact Hfo].
    + apply Forall_alter_at; [exact Hn|].
      intros x Hx. apply node_ok_show_error.
      rewrite Forall_lookup in Hn. by apply (Hn (c_wrapper c)).
Qed.

Lemma dom_inv_resume_all l : forall s,
  Forall (frame_ok (wrappers s)) l -> dom_inv s ->
  dom_inv (foldl (fun st c => processEmbed_resume cfg c st) s l).
Proof.
  induction l as [|c l IH]; intros s Hl HI; [exact HI|]. simpl.
  apply Forall_cons in Hl as [Hc Hl].
  destruct (dom_inv_resume c s Hc HI) as [HI' Hfo].
  apply IH; [|exact HI']. eapply Forall_impl; [exact Hl|exact Hfo].
Qed.

Lemma dom_inv_drain s : dom_inv s -> dom_inv (drain cfg s).
Proof.
  intros (Hfr & Hn). unfold drain. apply dom_inv_resume_all.
  - simpl. by apply Forall_list_filter.
  - split; [|exact Hn]. simpl. by apply Forall_list_filter.
Qed.

Lemma dom_inv_view s s' : dom_view s' = dom_view s -> dom_inv s -> dom_inv s'.
Proof. unfold dom_view, dom_inv. by intros [= -> ->]. Qed.

Lemma dom_inv_processEmbed w rc s : dom_inv s -> dom_inv (processEmbed cfg w rc s).
Proof.
  intros (Hfr & Hn). destruct (processEmbed_dom w rc s) as [Hw Ha].
  unfold dom_inv. rewrite Hw. split; [|exact Hn].
  destruct Ha as [-> | (p & W & pl & ph & HW & Ht & Hph & ->)]; [exact Hfr|].
  apply Forall_app. split; [exact Hfr|]. constructor; [|constructor].
  by exists W, ph.
Qed.

Lemma set_rects_lookup rs : forall ws i,
  set_rects rs ws !! i
  = (fun W => mkWrapper (data_permalink W) (placeholder W) (loaded W) (embeds W)
                (default (rect W) (rs !! i))) <$> ws !! i.
Proof.
  induction rs as [|r rs IH]; intros ws i.
  - simpl. destruct ws as [|W ws]; simpl; [by destruct i|].
    destruct ((W :: ws) !! i) as [[]|]; reflexivity.
  - destruct ws as [|W ws]; [by destruct i|].
    destruct i as [|i]; simpl; [reflexivity|]. apply IH.
Qed.

Lemma dom_inv_layout v rs s :
  dom_inv s -> dom_inv (set_wrappers (set_rects rs (wrappers s)) (set_viewport v s)).
Proof.
  intros (Hfr & Hn). unfold dom_inv. simpl. split.
  - eapply Forall_impl; [exact Hfr|]. intros c (W & ph & HW & Ht & Hph).
    eexists _, ph. rewrite set_rects_lookup, HW. simpl. by repeat split.
  - apply Forall_lookup. intros i W' Hi. rewrite set_rects_lookup in Hi.
    destruct (wrappers s !! i) as [W|] eqn:HW; [|discriminate].
    injection Hi as <-. rewrite Forall_lookup in Hn. exact (Hn i W HW).
Qed.

Lemma dom_inv_reachable pg evs :
  fresh_page pg -> dom_inv (run cfg evs (init cfg pg)).
Proof.
  intros Hfresh.
  apply (dom_run cfg dom_inv dom_inv_view dom_inv_processEmbed dom_inv_drain
           dom_inv_layout).
  apply (dom_init cfg dom_inv dom_inv_view dom_inv_processEmbed dom_inv_drain).
  split; [constructor|]. simpl. eapply Forall_impl; [exact Hfresh|].
  intros W [Hl He]. unfold node_ok. rewrite Hl, He.
  split; [constructor|]. split; [|discriminate]. split; [discriminate|done].
Qed.

(** X3. On a page that starts without loaded nodes and blockquotes,
    after any sequence of events every blockquote attached to a node is
    the one createInstagramEmbed builds for the permalink attribute of
    that very node: class instagram-media, version 14, and the node's
    permalink both as data-instgrm-permalink and as link target. *)
Theorem embeds_carry_node_permalink (pg : Page) (evs : list Event) (w : nat) (W : Wrapper) :
  fresh_page pg ->
  wrappers (run cfg evs (init cfg pg)) !! w = Some W ->
  Forall (fun e => data_permalink W = Some (data_instgrm_permalink e) /\
                   link_href e = data_instgrm_permalink e /\
                   className e = "instagram-media"%string /\
                   data_instgrm_version e = "14"%string)
    (embeds W).
Proof.
  intros Hfresh HW. destruct (dom_inv_reachable pg evs Hfresh) as [_ Hn].
  rewrite Forall_lookup in Hn. destruct (Hn w W HW) as (He & _ & _).
  eapply Forall_impl; [exact He|]. intros e [Hd ->]. by repeat split.
Qed.

(** X4. On such a page, after any sequence of events, a node has the
    loaded class exactly when a blockquote has been appended to it, and
    a node with the loaded class has its placeholder hidden. *)
Theorem loaded_mark_means_embed_attached (pg : Page) (evs : list Event) (w : nat) (W : Wrapper) :
  fresh_page pg ->
  wrappers (run cfg evs (init cfg pg)) !! w = Some W ->
  (loaded W = true <-> embeds W <> []) /\
  (loaded W = true -> exists ph, placeholder W = Some ph /\ display_none ph = true).
Proof.
  intros Hfresh HW. destruct (dom_inv_reachable pg evs Hfresh) as [_ Hn].
  rewrite Forall_lookup in Hn. destruct (Hn w W HW) as (_ & Hl & Hh). by split.
Qed.

End Nodes.

Lemma embeds_carry_node_permalink_witness :
  exists W,
    wrappers (run CONFIG [EvIntersection [(0, true)]; EvScriptLoad 0 HookWorks]
                (init CONFIG sample_page)) !! 0 = Some W /\
    Forall (fun e => data_permalink W = Some (data_instgrm_permalink e) /\
                     link_href e = data_instgrm_permalink e /\
                     className e = "instagram-media"%string /\
                     data_instgrm_version e = "14"%string)
      (embeds W).
Proof.
  eexists. split; [vm_compute; reflexivity|].
  apply (embeds_carry_node_permalink CONFIG sample_page
           [EvIntersection [(0, true)]; EvScriptLoad 0 HookWorks] 0).
  - repeat constructor.
  - vm_compute. reflexivity.
Defined.

Lemma loaded_mark_means_embed_attached_witness :
  exists W,
    wrappers (run CONFIG [EvIntersection [(0, true)]; EvScriptLoad 0 HookWorks]
                (init CONFIG sample_page)) !! 0 = Some W /\
    (loaded W = true <-> embeds W <> []).
Proof.
  eexists. split; [vm_compute; reflexivity|].
  apply (loaded_mark_means_embed_attached CONFIG sample_page
           [EvIntersection [(0, true)]; EvScriptLoad 0 HookWorks] 0).
  - repeat constructor.
  - vm_compute. reflexivity.
Defined.

(** ** A malformed node *)

Section Malformed.

Variable cfg : Config.
Variable w : nat.
Variable W0 : Wrapper.
Hypothesis W0_malformed : malformed W0.

Lemma untouched_view s s' :
  dom_view s' = dom_view s -> untouched w W0 s -> untouched w W0 s'.
Proof. unfold dom_view, untouched. by intros [= -> ->]. Qed.

Lemma untouched_processEmbed w' rc s :
  untouched w W0 s -> untouched w W0 (processEmbed cfg w' rc s).
Proof.
  intros [(W & HW & Hcore) Hfr]. destruct (processEmbed_dom cfg w' rc s) as [Hw Ha].
  unfold untouched. rewrite Hw. split; [by exists W|].
  destruct Ha as [-> | (p & W' & pl & ph & HW' & Ht & Hph & ->)]; [exact Hfr|].
  apply Forall_app. split; [exact Hfr|]. constructor; [|constructor]. simpl.
  intros ->. rewrite HW in HW'. injection HW' as <-.
  unfold node_core in Hcore. injection Hcore as Hd Hp _ _.
  destruct W0_malformed as [Hm|Hm]; congruence.
Qed.

Lemma resume_other c s :
  c_wrapper c <> w ->
  wrappers (processEmbed_resume cfg c s) !! w = wrappers s !! w /\
  awaiting (processEmbed_resume cfg c s) = awaiting s.
Proof.
  intros Hne. split; [|apply resume_awaiting].
  unfold processEmbed_resume, processEmbed_success, processEmbed_catch.
  destruct (promises s !! c_promise c) as [[| |]|]; try reflexivity.
  - assert (wrappers (if hook_present (hook s)
                      then setTimeout THook 100
                             (set_wrappers (alter (attach_embed (c_permalink c))
                                              (c_wrapper c) (wrappers s)) s)
                      else set_wrappers (alter (attach_embed (c_permalink c))
                                           (c_wrapper c) (wrappers s)) s)
            = alter (attach_embed (c_permalink c)) (c_wrapper c) (wrappers s)) as E
      by by destruct (hook_present _).
    simpl in *. rewrite E. by apply list_lookup_alter_ne.
  - destruct (_ <? _); [reflexivity|]. simpl. by apply list_lookup_alter_ne.
Qed.

Lemma untouched_resume_all l : forall s,
  Forall (fun c => c_wrapper c <> w) l -> untouched w W0 s ->
  untouched w W0 (foldl (fun st c => processEmbed_resume cfg c st) s l).
Proof.
  induction l as [|c l IH]; intros s Hl HU; [exact HU|]. simpl.
  apply Forall_cons in Hl as [Hc Hl]. apply IH; [exact Hl|].
  destruct (resume_other c s Hc) as [Hw Ha]. destruct HU as [HW Hfr].
  unfold untouched. by rewrite Hw, Ha.
Qed.

Lemma untouched_drain s : untouched w W0 s -> untouched w W0 (drain cfg s).
Proof.
  intros [HW Hfr]. unfold drain. apply untouched_resume_all.
  - by apply Forall_list_filter.
  - split; [exact HW|]. simpl. by apply Forall_list_filter.
Qed.

Lemma untouched_layout v rs s :
  untouched w W0 s ->
  untouched w W0 (set_wrappers (set_rects rs (wrappers s)) (set_viewport v s)).
Proof.
  intros [(W & HW & Hcore) Hfr]. split; [|exact Hfr]. simpl.
  eexists. rewrite set_rects_lookup, HW. simpl. split; [reflexivity|exact Hcore].
Qed.

Lemma untouched_reachable pg evs :
  p_wrappers pg !! w = Some W0 -> untouched w W0 (run cfg evs (init cfg pg)).
Proof.
  intros HW.
  apply (dom_run cfg _ untouched_view untouched_processEmbed untouched_drain
           untouched_layout).
  apply (dom_init cfg _ untouched_view untouched_processEmbed untouched_drain).
  split; [by exists W0|constructor].
Qed.

End Malformed.

Section Triggers.

Variable cfg : Config.

(** X5. A node of the page that lacks the permalink attribute (or has an
    empty one) or the placeholder element is left alone for good:
    after any sequence of events its attribute, its placeholder with
    its overlay, its class and its children are what the page shipped,
    and no processEmbed frame is suspended for it. *)
Theorem malformed_node_is_left_alone (pg : Page) (evs : list Event) (w : nat) (W0 : Wrapper) :
  p_wrappers pg !! w = Some W0 ->
  malformed W0 ->
  let s := run cfg evs (init cfg pg) in
  (exists W, wrappers s !! w = Some W /\
             data_permalink W = data_permalink W0 /\ placeholder W = placeholder W0 /\
             loaded W = loaded W0 /\ embeds W = embeds W0) /\
  Forall (fun c => c_wrapper c <> w) (awaiting s).
Proof.
  intros HW Hm. cbv zeta.
  destruct (untouched_reachable cfg w W0 Hm pg evs HW) as [(W & HWs & Hcore) Hfr].
  split; [|exact Hfr]. exists W. unfold node_core in Hcore.
  injection Hcore as H1 H2 H3 H4. by repeat split.
Qed.

(** ** Initialisation *)

Lemma resume_calls c s : calls (processEmbed_resume cfg c s) = calls s.
Proof.
  unfold processEmbed_resume, processEmbed_success, processEmbed_catch.
  destruct (promises s !! c_promise c) as [[| |]|]; try reflexivity.
  - simpl. by destruct (hook_present _).
  - by destruct (_ <? _).
Qed.

Lemma resume_observed c s : observed (processEmbed_resume cfg c s) = observed s.
Proof.
  unfold processEmbed_resume, processEmbed_success, processEmbed_catch.
  destruct (promises s !! c_promise c) as [[| |]|]; try reflexivity.
  - simpl. by destruct (hook_present _).
  - by destruct (_ <? _).
Qed.

Lemma resume_all_calls_observed l : forall s,
  calls (foldl (fun st c => processEmbed_resume cfg c st) s l) = calls s /\
  observed (foldl (fun st c => processEmbed_resume cfg c st) s l) = observed s.
Proof.
  induction l as [|c l IH]; intros s; [by split|]. simpl.
  destruct (IH (processEmbed_resume cfg c s)) as [-> ->].
  by rewrite resume_calls, resume_observed.
Qed.

Lemma drain_calls_observed s :
  calls (drain cfg s) = calls s /\ observed (drain cfg s) = observed s.
Proof.
  unfold drain.
  match goal with |- context [foldl ?f ?s0 ?l] =>
    destruct (resume_all_calls_observed l s0) as [-> ->] end.
  by split.
Qed.

Lemma processEmbed_each_calls l : forall s,
  Forall (fun w => w < length (wrappers s)) l ->
  calls (foldl (fun st w => processEmbed cfg w 0 st) s l)
  = calls s ++ map (fun w => (w, 0, now s)) l /\
  observed (foldl (fun st w => processEmbed cfg w 0 st) s l) = observed s.
Proof.
  induction l as [|w l IH]; intros s Hl; simpl.
  - by rewrite app_nil_r.
  - apply Forall_cons in Hl as [Hw Hl].
    destruct (lookup_lt_is_Some_2 _ _ Hw) as [W HW].
    destruct (IH (processEmbed cfg w 0 s)) as [-> ->].
    { by rewrite processEmbed_wrappers. }
    rewrite (processEmbed_calls cfg w 0 s W HW), processEmbed_now,
      processEmbed_observed, <- app_assoc. by split.
Qed.

(** X6. Without IntersectionObserver, initialisation calls processEmbed
    once on every node of the page, in document order, with retry count
    0, and observes nothing. *)
Theorem init_without_observer_activates_all (pg : Page) :
  p_io_supported pg = false ->
  calls (init cfg pg) = map (fun w => (w, 0, 0)) (seq 0 (length (p_wrappers pg))) /\
  observed (init cfg pg) = ∅.
Proof.
  intros Hio. unfold init.
  destruct (drain_calls_observed (initLazyLoading cfg (p_io_supported pg) (boot pg)))
    as [-> ->].
  unfold initLazyLoading. rewrite Hio. simpl.
  destruct (p_wrappers pg) as [|W ws] eqn:Hws; [by split|].
  rewrite <- Hws.
  destruct (processEmbed_each_calls (all_wrappers (log WarnNoObserver (boot pg)))
              (log WarnNoObserver (boot pg))) as [Hc Ho].
  { apply Forall_forall. intros w Hw. unfold all_wrappers in Hw.
    apply elem_of_seq in Hw. lia. }
  unfold all_wrappers in *. simpl in *. by rewrite Hc, Ho, Hws.
Qed.

(** X7. With IntersectionObserver, initialisation is lazy: it calls
    neither processEmbed nor the gate, appends no script element, sets
    no timer, and puts exactly the nodes of the page under observation. *)
Theorem init_with_observer_is_lazy (pg : Page) :
  p_io_supported pg = true ->
  calls (init cfg pg) = [] /\
  gate_calls (init cfg pg) = [] /\
  injected (init cfg pg) = [] /\
  timers (init cfg pg) = [] /\
  promises (init cfg pg) = [] /\
  forall w, w ∈ observed (init cfg pg) <-> w < length (p_wrappers pg).
Proof.
  intros Hio. unfold init, initLazyLoading. rewrite Hio.
  assert (Hobs : forall w, w ∈ (list_to_set (all_wrappers (boot pg)) : gset nat)
                           <-> w < length (p_wrappers pg)).
  { intros w. unfold all_wrappers. simpl.
    rewrite elem_of_list_to_set, elem_of_seq. lia. }
  change (wrappers (boot pg)) with (p_wrappers pg).
  destruct (p_wrappers pg) as [|W ws] eqn:Hws.
  - split; [reflexivity|]. split; [reflexivity|].
    split; [exact (injected_boot pg)|]. split; [reflexivity|]. split; [reflexivity|].
    intros w. simpl. split; [intros Hin; by apply elem_of_empty in Hin|lia].
  - split; [reflexivity|]. split; [reflexivity|].
    split; [exact (injected_boot pg)|]. split; [reflexivity|]. split; [reflexivity|].
    exact Hobs.
Qed.

(** ** The preload *)

Lemma isVisible_spec r v :
  isVisible r v = true <->
  (0 <= top r /\ 0 <= left r /\
   bottom r <= or_else (innerHeight v) (clientHeight v) /\
   right r <= or_else (innerWidth v) (clientWidth v))%Z.
Proof.
  unfold isVisible. rewrite !andb_true_iff, !Z.leb_le. tauto.
Qed.

Lemma preload_fold_calls l : forall s,
  calls (foldl (preloadEntry cfg) s l)
  = calls s ++ map (fun w => (w, 0, now s)) (List.filter (preload_target s) l) /\
  wrappers (foldl (preloadEntry cfg) s l) = wrappers s /\
  timers (foldl (preloadEntry cfg) s l) = timers s.
Proof.
  induction l as [|w l IH]; intros s; simpl.
  - by rewrite app_nil_r.
  - destruct (IH (preloadEntry cfg s w)) as (Hc & Hw & Ht).
    rewrite Hc, Hw, Ht, preloadEntry_wrappers, preloadEntry_now.
    assert (Heq : List.filter (preload_target (preloadEntry cfg s w)) l
                  = List.filter (preload_target s) l).
    { apply List.filter_ext. intros j. unfold preload_target.
      by rewrite preloadEntry_wrappers, preloadEntry_viewport. }
    rewrite Heq. unfold preloadEntry, preload_target.
    destruct (wrappers s !! w) as [W|] eqn:HW; [|by repeat split].
    destruct (_ && _); [|by repeat split].
    rewrite (processEmbed_calls cfg w 0 s W HW), processEmbed_timers, <- app_assoc.
    by repeat split.
Qed.

(** X8. preloadVisibleEmbeds calls processEmbed, with retry count 0, on
    exactly the nodes that lie entirely inside the viewport and do not
    have the loaded class, once each and in document order; a node that
    sticks out of the viewport on any side is skipped.  The height and
    width of the viewport are innerHeight and innerWidth, or the client
    sizes of the document element where those are 0.  It changes no
    node and sets no timer. *)
Theorem preload_activates_exactly_the_contained (s : State) :
  calls (preloadVisibleEmbeds cfg s)
  = calls s ++ map (fun w => (w, 0, now s))
                 (List.filter (preload_target s) (seq 0 (length (wrappers s)))) /\
  wrappers (preloadVisibleEmbeds cfg s) = wrappers s /\
  timers (preloadVisibleEmbeds cfg s) = timers s /\
  forall w W, wrappers s !! w = Some W ->
    (preload_target s w = true <->
     loaded W = false /\
     (0 <= top (rect W) /\ 0 <= left (rect W) /\
      bottom (rect W)
        <= (if (innerHeight (viewport s) =? 0) then clientHeight (viewport s)
            else innerHeight (viewport s)) /\
      right (rect W)
        <= (if (innerWidth (viewport s) =? 0) then clientWidth (viewport s)
            else innerWidth (viewport s)))%Z).
Proof.
  unfold preloadVisibleEmbeds, all_wrappers.
  destruct (preload_fold_calls (seq 0 (length (wrappers s))) s) as (Hc & Hw & Ht).
  repeat split; try assumption.
  - unfold preload_target in H0. rewrite H in H0.
    apply andb_true_iff in H0 as [_ Hl]. by apply negb_true_iff in Hl.
  - unfold preload_target in H0. rewrite H in H0.
    apply andb_true_iff in H0 as [Hv _]. apply isVisible_spec in Hv. tauto.
  - unfold preload_target in H0. rewrite H in H0.
    apply andb_true_iff in H0 as [Hv _]. apply isVisible_spec in Hv. tauto.
  - unfold preload_target in H0. rewrite H in H0.
    apply andb_true_iff in H0 as [Hv _]. apply isVisible_spec in Hv.
    unfold or_else in Hv. tauto.
  - unfold preload_target in H0. rewrite H in H0.
    apply andb_true_iff in H0 as [Hv _]. apply isVisible_spec in Hv.
    unfold or_else in Hv. tauto.
  - intros (Hl & Hv). unfold preload_target. rewrite H, Hl.
    rewrite andb_true_r. apply isVisible_spec. unfold or_else. tauto.
Qed.

End Triggers.

Lemma malformed_node_is_left_alone_witness :
  exists W,
    wrappers (run CONFIG [EvIntersection [(1, true)]; EvWindowLoad; EvTimer]
                (init CONFIG prefetched_page)) !! 1 = Some W /\
    embeds W = [] /\ loaded W = false.
Proof.
  pose proof (malformed_node_is_left_alone CONFIG prefetched_page
                [EvIntersection [(1, true)]; EvWindowLoad; EvTimer] 1 broken_wrapper) as H.
  cbv zeta in H.
  destruct H as [(W & HW & _ & _ & Hl & He) _].
  - reflexivity.
  - left. reflexivity.
  - exists W. by repeat split.
Defined.

Lemma init_without_observer_activates_all_witness :
  calls (init CONFIG legacy_page) = [(0, 0, 0); (1, 0, 0)].
Proof.
  pose proof (init_without_observer_activates_all CONFIG legacy_page) as H.
  destruct H as [Hc _].
  - reflexivity.
  - exact Hc.
Defined.

Lemma init_with_observer_is_lazy_witness :
  gate_calls (init CONFIG sample_page) = [] /\ 0 ∈ observed (init CONFIG sample_page).
Proof.
  pose proof (init_with_observer_is_lazy CONFIG sample_page) as H.
  destruct H as (_ & Hg & _ & _ & _ & Ho).
  - reflexivity.
  - split; [exact Hg|]. apply Ho. simpl. lia.
Defined.

(** ** The first activation on a page, and the script arriving *)

Section HappyPath.

Variable cfg : Config.

(** X9. On a page where the gate was never called, the script element
    is not in the document and no frame is suspended, the activation of
    a well-formed node appends the script element, suspends one frame
    and leaves the node as it is.  When the load signal of that element
    fires, the frame resumes: the node gets one blockquote for its
    permalink, the loaded class and a hidden placeholder, no frame is
    left, nothing is logged, no retry is set, and the hook callback is
    scheduled 100 ms later exactly when the script defined the hook. *)
Theorem activation_then_script_load (s : State) (w rc : nat) (W : Wrapper)
    (pl : string) (ph : Placeholder) (h : Hook) :
  instagramScriptPromise s = None ->
  isInstagramScriptLoaded s = false ->
  script_present cfg s = false ->
  has_body s = true ->
  awaiting s = [] ->
  wrappers s !! w = Some W ->
  truthy_permalink (data_permalink W) = Some pl ->
  placeholder W = Some ph ->
  let p := length (promises s) in
  let s1 := drain cfg (processEmbed cfg w rc s) in
  let s2 := step cfg s1 (EvScriptLoad (length (scripts s)) h) in
  (scripts s1 = scripts s ++ [mkScript (scriptSrc cfg) (Some p) true] /\
   promises s1 = promises s ++ [Pending] /\
   awaiting s1 = [mkCont p w rc pl] /\
   wrappers s1 = wrappers s /\
   timers s1 = timers s) /\
  (wrappers s2 = alter (attach_embed pl) w (wrappers s) /\
   embeds_of w s2 = embeds W ++ [createInstagramEmbed pl] /\
   wrapper_loaded s2 w = true /\
   awaiting s2 = [] /\
   isInstagramScriptLoaded s2 = true /\
   promises s2 = promises s ++ [Fulfilled] /\
   console s2 = console s /\
   timers s2 = timers s ++
               (if hook_present h then [mkTimer (now s + 100) THook] else [])).
Proof.
  intros Hp Hl Hsp Hb Ha HW Hpl Hph.
  destruct s as [ld pr ps aw ts nw ob hb scs ws bs vp hk cs cl gc hc].
  simpl in *. subst pr ld hb aw.
  assert (Hlk : (ps ++ [Pending]) !! length ps = Some Pending)
    by by apply list_lookup_middle.
  assert (Hs1 : drain cfg (processEmbed cfg w rc
                  (mkState false None ps [] ts nw ob true scs ws bs vp hk cs cl gc hc))
          = mkState false (Some (length ps)) (ps ++ [Pending])
              [mkCont (length ps) w rc pl] ts nw ob true
              (scs ++ [mkScript (scriptSrc cfg) (Some (length ps)) true])
              ws bs vp hk cs (cl ++ [(w, rc, nw)]) (gc ++ [length ps]) hc).
  { unfold processEmbed. simpl. rewrite HW, Hpl, Hph.
    unfold loadInstagramScript, script_present in *. simpl in *. rewrite Hsp. simpl.
    unfold drain, is_settled. simpl. by rewrite Hlk. }
  cbv zeta. rewrite Hs1. split; [by repeat split|].
  unfold step, handle, signal_due, scriptOnload. simpl.
  rewrite (list_lookup_middle scs [] _ (length scs) eq_refl). simpl.
  unfold settle. simpl. rewrite Hlk. simpl.
  assert (Hins : <[length ps := Fulfilled]> (ps ++ [Pending]) = ps ++ [Fulfilled]).
  { rewrite insert_app_r_alt by lia. by rewrite Nat.sub_diag. }
  rewrite Hins.
  assert (Hlk' : (ps ++ [Fulfilled]) !! length ps = Some Fulfilled)
    by by apply list_lookup_middle.
  unfold drain, is_settled. simpl. rewrite Hlk'. simpl.
  unfold processEmbed_resume. simpl. rewrite Hlk'.
  unfold processEmbed_success, embeds_of, wrapper_loaded. simpl.
  assert (Hal : alter (attach_embed pl) w ws !! w = Some (attach_embed pl W))
    by by rewrite list_lookup_alter_eq, HW.
  destruct h; simpl; rewrite ?Hal; simpl; rewrite ?app_nil_r; by repeat split.
Qed.

End HappyPath.

Lemma activation_then_script_load_witness :
  let s1 := drain CONFIG (processEmbed CONFIG 0 0 (init CONFIG sample_page)) in
  let s2 := step CONFIG s1 (EvScriptLoad 0 HookWorks) in
  wrapper_loaded s2 0 = true /\ timers s2 = [mkTimer 100 THook].
Proof.
  pose proof (activation_then_script_load CONFIG (init CONFIG sample_page) 0 0
                sample_wrapper "https://www.instagram.com/p/abc/"%string
                (mkPlaceholder false (Some (PageMarkup "View Instagram Post"%string)))
                HookWorks) as H.
  cbv zeta in H.
  destruct H as [_ (_ & _ & Hl & _ & _ & _ & _ & Ht)]; try reflexivity.
  split; [exact Hl | exact Ht].
Defined.

(** * Properties of the image lightbox *)

Module PreviewFacts.

Import Preview.

Local Open Scope Z_scope.

Lemma count_pos_nonempty st : count st <> 0 -> 0 < count st.
Proof. unfold count. lia. Qed.

Lemma next_in_range n i : 0 < n -> -1 <= i < n -> 0 <= Z.rem (i + 1) n < n.
Proof. intros Hn Hi. apply Z.rem_bound_pos; lia. Qed.

Lemma prev_in_range n i : 0 < n -> -1 <= i < n -> 0 <= Z.rem (i - 1 + n) n < n.
Proof.
  intros Hn Hi. destruct (Z_lt_le_dec (i - 1 + n) 0) as [Hneg|Hpos].
  - replace (i - 1 + n) with (-1) by lia. replace n with 1 by lia.
    change (Z.rem (-1) 1) with 0. lia.
  - apply Z.rem_bound_pos; lia.
Qed.

Lemma lookup_index (st : State) :
  0 <= currentIndex st < count st ->
  exists img, previewableImages st !! Z.to_nat (currentIndex st) = Some img.
Proof.
  unfold count. intros Hi. apply lookup_lt_is_Some_2. lia.
Qed.

(** The fields [updateLightboxContent] leaves alone. *)
Lemma update_frame st st' :
  updateLightboxContent st = Some st' ->
  currentIndex st' = currentIndex st /\
  previewableImages st' = previewableImages st /\
  lightbox st' = lightbox st /\ lightboxImg st' = lightboxImg st /\
  lightboxCaption st' = lightboxCaption st /\ lightboxCounter st' = lightboxCounter st /\
  touchStartX st' = touchStartX st /\ listening st' = listening st /\
  dom_lightbox st' = dom_lightbox st /\ dom_images st' = dom_images st /\
  active st' = active st /\ aria_hidden st' = aria_hidden st /\
  body_overflow st' = body_overflow st /\ focus st' = focus st.
Proof.
  unfold updateLightboxContent.
  destruct (negb (lightboxImg st) || (currentIndex st <? 0)).
  - intros [= <-]. by repeat split.
  - destruct (previewableImages st !! _); [|discriminate].
    intros [= <-]. by repeat split.
Qed.

Lemma update_total st :
  index_ok st -> exists st', updateLightboxContent st = Some st'.
Proof.
  intros Hi. unfold updateLightboxContent.
  destruct (negb (lightboxImg st) || (currentIndex st <? 0)) eqn:Hg; [by eexists|].
  apply orb_false_iff in Hg as [_ Hneg]. apply Z.ltb_ge in Hneg.
  destruct Hi as [Hi|Hi]; [lia|].
  destruct (lookup_index st Hi) as [img ->]. by eexists.
Qed.

Lemma update_shows st st' :
  updateLightboxContent st = Some st' -> shows_current st'.
Proof.
  unfold updateLightboxContent.
  destruct (negb (lightboxImg st) || (currentIndex st <? 0)) eqn:Hg.
  - intros [= <-]. intros img Himg Hpos _.
    apply orb_true_iff in Hg as [Hg|Hg].
    + rewrite Himg in Hg. discriminate.
    + apply Z.ltb_lt in Hg. lia.
  - destruct (previewableImages st !! _) as [img|] eqn:Hl; [|discriminate].
    intros [= <-]. intros img' _ _. simpl. rewrite Hl. intros [= <-].
    unfold part, nav_display, count. simpl.
    split; [reflexivity|]. split; [by destruct (img_alt img)|].
    split; [by intros ->|]. split; [by intros ->|].
    split; by intros ->.
Qed.

Lemma shows_current_closed st i :
  i < 0 -> shows_current (set_index i st).
Proof. intros Hi img _ Hpos _. simpl in Hpos. lia. Qed.

Lemma inv_move st i :
  inv st -> 0 <= i < count st -> inv (refresh (set_index i st)).
Proof.
  intros (Hidx & Hsh & Hoc & Hls) Hi. unfold refresh.
  assert (Hok : index_ok (set_index i st)) by (right; exact Hi).
  destruct (update_total _ Hok) as [st' Hst']. rewrite Hst'. simpl.
  destruct (update_frame _ _ Hst')
    as (E1 & E2 & E3 & E4 & E5 & E6 & E7 & E8 & E9 & E10 & E11 & E12 & E13 & E14).
  simpl in *. split; [|split; [|split]].
  - right. unfold count in *. rewrite E1, E2. exact Hi.
  - by apply (update_shows (set_index i st)).
  - unfold open_closed. rewrite E1, E3, E4, E11, E12, E13.
    destruct Hoc as [Ho Hc]. split; [|exact Hc].
    intros Ha. destruct (Ho Ha) as (_ & H2 & H3 & H4 & H5).
    repeat split; try assumption. lia.
  - by rewrite E8, E3.
Qed.

Lemma index_ok_bounds st : index_ok st -> -1 <= currentIndex st < count st.
Proof. unfold index_ok, count. lia. Qed.

Lemma inv_showNext st : inv st -> inv (showNext st).
Proof.
  intros HI. unfold showNext. destruct (count st =? 0) eqn:Hc; [exact HI|].
  apply Z.eqb_neq, count_pos_nonempty in Hc.
  apply (inv_move st _ HI). apply next_in_range; [exact Hc|].
  apply index_ok_bounds, HI.
Qed.

Lemma inv_showPrev st : inv st -> inv (showPrev st).
Proof.
  intros HI. unfold showPrev. destruct (count st =? 0) eqn:Hc; [exact HI|].
  apply Z.eqb_neq, count_pos_nonempty in Hc.
  apply (inv_move st _ HI). apply prev_in_range; [exact Hc|].
  apply index_ok_bounds, HI.
Qed.

Lemma inv_close st : inv st -> inv (closeLightbox st).
Proof.
  intros HI. unfold closeLightbox. destruct (negb (lightbox st)); [exact HI|].
  destruct HI as (Hidx & Hsh & Hoc & Hls).
  split; [by left|]. split; [|split; [|exact Hls]].
  - intros img _ Hpos _. simpl in Hpos. lia.
  - split; simpl; [discriminate|reflexivity].
Qed.

Lemma inv_open st i :
  (i < length (previewableImages st))%nat -> inv st -> inv (openLightbox i st).
Proof.
  intros Hi HI. unfold openLightbox.
  destruct (negb (lightbox st) || negb (lightboxImg st)) eqn:Hg; [exact HI|].
  apply orb_false_iff in Hg as [Hlb Himg].
  apply negb_false_iff in Himg. apply negb_false_iff in Hlb.
  assert (Hr : 0 <= Z.of_nat i < count st) by (unfold count; lia).
  pose proof (inv_move st _ HI Hr) as HI'. unfold refresh in HI'.
  destruct (updateLightboxContent (set_index (Z.of_nat i) st)) as [st2|] eqn:Hu;
    [|exact HI'].
  simpl in HI'. destruct HI' as (Hidx & Hsh & Hoc & Hls).
  destruct (update_frame _ _ Hu)
    as (E1 & E2 & E3 & E4 & E5 & E6 & E7 & E8 & E9 & E10 & E11 & E12 & E13 & E14).
  simpl in *. split; [exact Hidx|]. split; [exact Hsh|]. split; [|exact Hls].
  split; simpl; [|discriminate]. intros _. rewrite E1, E3, E4.
  repeat split; try done. lia.
Qed.

Lemma inv_handleKeydown k st : inv st -> inv (handleKeydown k st).
Proof.
  intros HI. unfold handleKeydown.
  destruct (negb (lightbox st) || negb (active st)); [exact HI|].
  destruct k; try exact HI.
  - by apply inv_close.
  - by apply inv_showPrev.
  - by apply inv_showNext.
Qed.

Lemma open_images st i : previewableImages (openLightbox i st) = previewableImages st.
Proof.
  unfold openLightbox. destruct (_ || _); [reflexivity|].
  destruct (updateLightboxContent _) as [st2|] eqn:Hu; [|reflexivity].
  simpl. by destruct (update_frame _ _ Hu) as (_ & -> & _).
Qed.

Lemma inv_handle st ev : inv st -> inv (handle st ev).
Proof.
  intros HI. unfold handle. destruct (negb (listening st)); [exact HI|].
  destruct ev as [i|i k|k| | | | |x|x].
  - destruct (Nat.ltb_spec i (length (previewableImages st))); [|exact HI].
    by apply inv_open.
  - destruct (Nat.ltb_spec i (length (previewableImages st))); [|exact HI].
    apply inv_handleKeydown. unfold imageKeydown.
    destruct k; try exact HI; by apply inv_open.
  - by apply inv_handleKeydown.
  - destruct (part has_close st); [by apply inv_close|exact HI].
  - destruct (part has_prev st); [by apply inv_showPrev|exact HI].
  - destruct (part has_next st); [by apply inv_showNext|exact HI].
  - by apply inv_close.
  - exact HI.
  - unfold touchEnd. destruct (50 <? _); [|exact HI].
    destruct (0 <? _); [by apply inv_showNext|by apply inv_showPrev].
Qed.

Lemma inv_init lb imgs : inv (initPreview (boot lb imgs)).
Proof.
  unfold initPreview. simpl. destruct lb as [ps|]; simpl.
  - split; [by left|]. split; [|split; [|done]].
    + intros img _ Hpos _. simpl in Hpos. lia.
    + split; simpl; [discriminate|reflexivity].
  - split; [by left|]. split; [|split; [|discriminate]].
    + intros img _ Hpos _. simpl in Hpos. lia.
    + split; simpl; [discriminate|reflexivity].
Qed.

Lemma inv_run evs : forall st, inv st -> inv (run evs st).
Proof.
  unfold run. induction evs as [|ev evs IH]; intros st HI; [exact HI|]. simpl.
  apply IH. by apply inv_handle.
Qed.

(** X10. Whatever the page and whatever the user does after
    initPreview, the current index is -1 or the index of an image, and
    updateLightboxContent does not raise on it. *)
Theorem lightbox_index_stays_in_range
    (lb : option Parts) (imgs : list Image) (evs : list Event) :
  let st := run evs (initPreview (boot lb imgs)) in
  (currentIndex st = -1 \/ 0 <= currentIndex st < Z.of_nat (length (previewableImages st))) /\
  updateLightboxContent st <> None.
Proof.
  cbv zeta. destruct (inv_run evs _ (inv_init lb imgs)) as (Hidx & _).
  split; [exact Hidx|]. destruct (update_total _ Hidx) as [st' ->]. discriminate.
Qed.

(** X11. Whatever the user does, an open lightbox shows the image at the
    current index: its src and alt, as caption the text of the caption
    element next to the image or else its alt text, as counter the
    index plus one over the number of images; the counter and the
    previous and next buttons are displayed exactly when there is more
    than one image.  While the lightbox is open the body does not
    scroll, and once it is closed the body scrolls again. *)
Theorem open_lightbox_shows_current_image
    (lb : option Parts) (imgs : list Image) (evs : list Event) :
  let st := run evs (initPreview (boot lb imgs)) in
  (active st = true ->
     body_overflow st = "hidden"%string /\
     aria_hidden st = Some "false"%string /\
     exists img,
       previewableImages st !! Z.to_nat (currentIndex st) = Some img /\
       shown_src st = img_src img /\ shown_alt st = img_alt img /\
       (lightboxCaption st = true -> caption_text st = caption_of img) /\
       (lightboxCounter st = true ->
          counter_text st = Some (currentIndex st + 1, Z.of_nat (length (previewableImages st))) /\
          counter_display st = nav_display st) /\
       (part has_prev st = true -> prev_display st = nav_display st) /\
       (part has_next st = true -> next_display st = nav_display st)) /\
  (active st = false -> body_overflow st = EmptyString).
Proof.
  cbv zeta. destruct (inv_run evs _ (inv_init lb imgs)) as (Hidx & Hsh & [Ho Hc] & _).
  split; [|exact Hc]. intros Ha. destruct (Ho Ha) as (Hpos & Himg & Hov & Har & _).
  split; [exact Hov|]. split; [exact Har|].
  destruct Hidx as [Hidx|Hidx]; [lia|].
  destruct (lookup_index _ Hidx) as [img Hl]. exists img. split; [exact Hl|].
  exact (Hsh img Himg Hpos Hl).
Qed.

(** ** Moving through the images *)

Lemma set_index_twice i j st : set_index j (set_index i st) = set_index j st.
Proof. reflexivity. Qed.

(** Rendering an image overwrites what an earlier rendering wrote. *)
Lemma refresh_overwrites st i j :
  0 <= j < count st ->
  refresh (set_index j (refresh (set_index i st))) = refresh (set_index j st).
Proof.
  intros Hj. destruct (lookup_index (set_index j st) Hj) as [img' Hl'].
  assert (Hneg : (j <? 0) = false) by (apply Z.ltb_ge; lia).
  destruct st as [ix imgs lb li lc ln tx ls dl di ac ah bo ss sa ct cn cd pd nd fo].
  simpl in Hl'.
  unfold refresh, or_thrown, updateLightboxContent, part, nav_display, count. simpl.
  destruct li; simpl; [|reflexivity].
  destruct (i <? 0); simpl.
  - rewrite Hneg, Hl'. reflexivity.
  - destruct (imgs !! Z.to_nat i) as [img|]; simpl; rewrite Hneg, Hl'; [|reflexivity].
    by destruct lc, ln, dl as [[? ? ? ? [|] [|]]|].
Qed.

Lemma refresh_index st : currentIndex (refresh st) = currentIndex st.
Proof.
  unfold refresh. destruct (updateLightboxContent st) as [st'|] eqn:Hu; [|reflexivity].
  simpl. by destruct (update_frame _ _ Hu) as (-> & _).
Qed.

Lemma refresh_count st : count (refresh st) = count st.
Proof.
  unfold refresh, count. destruct (updateLightboxContent st) as [st'|] eqn:Hu; [|reflexivity].
  simpl. by destruct (update_frame _ _ Hu) as (_ & -> & _).
Qed.

Lemma showNext_refresh st :
  count st <> 0 -> showNext st = refresh (set_index (Z.rem (currentIndex st + 1) (count st)) st).
Proof.
  intros Hc. unfold showNext. by destruct (Z.eqb_spec (count st) 0).
Qed.

Lemma showPrev_refresh st :
  count st <> 0 ->
  showPrev st = refresh (set_index (Z.rem (currentIndex st - 1 + count st) (count st)) st).
Proof.
  intros Hc. unfold showPrev. by destruct (Z.eqb_spec (count st) 0).
Qed.

Lemma set_index_same st : set_index (currentIndex st) st = st.
Proof. by destruct st. Qed.

Lemma rem_next_prev n i : 0 <= i < n -> Z.rem (Z.rem (i + 1) n - 1 + n) n = i.
Proof.
  intros Hi. destruct (Z.eq_dec (i + 1) n) as [E|E].
  - rewrite E, Z.rem_same by lia. rewrite Z.rem_small by lia. lia.
  - rewrite (Z.rem_small (i + 1)) by lia.
    replace (i + 1 - 1 + n) with (i + 1 * n) by lia.
    rewrite Z.rem_mod_nonneg by lia. rewrite Z_mod_plus_full. apply Z.mod_small. lia.
Qed.

Lemma rem_prev_next n i : 0 <= i < n -> Z.rem (Z.rem (i - 1 + n) n + 1) n = i.
Proof.
  intros Hi. destruct (Z.eq_dec i 0) as [E|E].
  - subst i. rewrite (Z.rem_small (0 - 1 + n)) by lia.
    replace (0 - 1 + n + 1) with n by lia. apply Z.rem_same. lia.
  - replace (i - 1 + n) with (i - 1 + 1 * n) by lia.
    rewrite (Z.rem_mod_nonneg (i - 1 + 1 * n)) by lia.
    rewrite Z_mod_plus_full, Z.mod_small by lia.
    rewrite Z.rem_small by lia. lia.
Qed.

(** X12. From an image, next followed by previous, and previous followed
    by next, lead back to the same image: the state is the one that
    rendering the current image gives. *)
Theorem next_and_prev_are_inverse (st : State) :
  0 <= currentIndex st < count st ->
  showPrev (showNext st) = refresh st /\
  showNext (showPrev st) = refresh st.
Proof.
  intros Hi. assert (Hc : count st <> 0) by lia.
  assert (Hn : 0 < count st) by lia.
  split.
  - rewrite (showNext_refresh st Hc).
    rewrite showPrev_refresh by (rewrite refresh_count; exact Hc).
    rewrite refresh_index, refresh_count. simpl.
    change (count (set_index _ st)) with (count st).
    rewrite refresh_overwrites.
    + f_equal. transitivity (set_index (currentIndex st) st); [|apply set_index_same].
      f_equal. by apply rem_next_prev.
    + change (count (set_index _ st)) with (count st). apply prev_in_range; [exact Hn|].
      pose proof (next_in_range (count st) (currentIndex st) Hn). lia.
  - rewrite (showPrev_refresh st Hc).
    rewrite showNext_refresh by (rewrite refresh_count; exact Hc).
    rewrite refresh_index, refresh_count. simpl.
    change (count (set_index _ st)) with (count st).
    rewrite refresh_overwrites.
    + f_equal. transitivity (set_index (currentIndex st) st); [|apply set_index_same].
      f_equal. by apply rem_prev_next.
    + change (count (set_index _ st)) with (count st). apply next_in_range; [exact Hn|].
      pose proof (prev_in_range (count st) (currentIndex st) Hn). lia.
Qed.

Lemma showNext_index st :
  0 <= currentIndex st < count st ->
  currentIndex (showNext st) = (currentIndex st + 1) mod count st /\
  count (showNext st) = count st.
Proof.
  intros Hi. rewrite showNext_refresh by lia.
  rewrite refresh_index, refresh_count. simpl. split; [|reflexivity].
  apply Z.rem_mod_nonneg; lia.
Qed.

Lemma showPrev_index st :
  0 <= currentIndex st < count st ->
  currentIndex (showPrev st) = (currentIndex st - 1) mod count st /\
  count (showPrev st) = count st.
Proof.
  intros Hi. rewrite showPrev_refresh by lia.
  rewrite refresh_index, refresh_count. simpl. split; [|reflexivity].
  rewrite Z.rem_mod_nonneg by lia.
  replace (currentIndex st - 1 + count st) with (currentIndex st - 1 + 1 * count st) by lia.
  apply Z_mod_plus_full.
Qed.

(** X13. From image i of n, k steps forward lead to image (i + k) mod n
    and k steps back to image (i - k) mod n: the images form a ring,
    and n steps either way come back to image i. *)
Theorem lightbox_steps_wrap_around (st : State) (k : nat) :
  0 <= currentIndex st < count st ->
  currentIndex (Nat.iter k showNext st) = (currentIndex st + Z.of_nat k) mod count st /\
  currentIndex (Nat.iter k showPrev st) = (currentIndex st - Z.of_nat k) mod count st /\
  currentIndex (Nat.iter (length (previewableImages st)) showNext st) = currentIndex st /\
  currentIndex (Nat.iter (length (previewableImages st)) showPrev st) = currentIndex st.
Proof.
  intros Hi.
  assert (Hnext : forall m,
            currentIndex (Nat.iter m showNext st) = (currentIndex st + Z.of_nat m) mod count st /\
            count (Nat.iter m showNext st) = count st).
  { intros m. induction m as [|k' [IH1 IH2]].
    - simpl. split; [|reflexivity]. rewrite Z.add_0_r. symmetry. apply Z.mod_small. lia.
    - simpl Nat.iter.
      assert (Hr : 0 <= currentIndex (Nat.iter k' showNext st)
                   < count (Nat.iter k' showNext st)).
      { rewrite IH1, IH2. apply Z.mod_pos_bound. lia. }
      destruct (showNext_index _ Hr) as [-> ->]. rewrite IH1, IH2.
      split; [|reflexivity]. rewrite Zplus_mod_idemp_l. f_equal. lia. }
  assert (Hprev : forall m,
            currentIndex (Nat.iter m showPrev st) = (currentIndex st - Z.of_nat m) mod count st /\
            count (Nat.iter m showPrev st) = count st).
  { intros m. induction m as [|k' [IH1 IH2]].
    - simpl. split; [|reflexivity]. rewrite Z.sub_0_r. symmetry. apply Z.mod_small. lia.
    - simpl Nat.iter.
      assert (Hr : 0 <= currentIndex (Nat.iter k' showPrev st)
                   < count (Nat.iter k' showPrev st)).
      { rewrite IH1, IH2. apply Z.mod_pos_bound. lia. }
      destruct (showPrev_index _ Hr) as [-> ->]. rewrite IH1, IH2.
      split; [|reflexivity]. rewrite Zminus_mod_idemp_l. f_equal. lia. }
  split; [apply Hnext|]. split; [apply Hprev|]. split.
  - rewrite (proj1 (Hnext _)). fold (count st).
    replace (currentIndex st + count st) with (currentIndex st + 1 * count st) by lia.
    rewrite Z_mod_plus_full. apply Z.mod_small. lia.
  - rewrite (proj1 (Hprev _)). fold (count st).
    replace (currentIndex st - count st) with (currentIndex st + (-1) * count st) by lia.
    rewrite Z_mod_plus_full. apply Z.mod_small. lia.
Qed.

(** X14. Closing an open lightbox, however it was navigated since it was
    opened, gives the focus to the image that is shown at that moment
    (not to the one that was clicked), removes the active class, sets
    aria-hidden to true, lets the body scroll and resets the index. *)
Theorem close_returns_focus_to_shown_image
    (lb : option Parts) (imgs : list Image) (evs : list Event) :
  let st := run evs (initPreview (boot lb imgs)) in
  active st = true ->
  focus (closeLightbox st) = FocusImage (Z.to_nat (currentIndex st)) /\
  (Z.to_nat (currentIndex st) < length (previewableImages st))%nat /\
  active (closeLightbox st) = false /\
  aria_hidden (closeLightbox st) = Some "true"%string /\
  body_overflow (closeLightbox st) = EmptyString /\
  currentIndex (closeLightbox st) = -1.
Proof.
  cbv zeta. intros Ha.
  destruct (inv_run evs _ (inv_init lb imgs)) as (Hidx & _ & [Ho _] & _).
  set (st := run evs (initPreview (boot lb imgs))) in *.
  destruct (Ho Ha) as (Hpos & _ & _ & _ & Hlb).
  destruct Hidx as [Hidx|Hidx]; [lia|].
  destruct (lookup_index st Hidx) as [img Hl].
  unfold closeLightbox. rewrite Hlb. simpl.
  destruct (Z.leb_spec 0 (currentIndex st)); [|lia]. rewrite Hl.
  repeat split. unfold count in Hidx. lia.
Qed.

End PreviewFacts.

Lemma next_and_prev_are_inverse_witness :
  let st := Preview.openLightbox 2
              (Preview.initPreview (Preview.boot (Some Preview.full_parts) Preview.sample_images)) in
  Preview.showPrev (Preview.showNext st) = Preview.refresh st.
Proof.
  apply (proj1 (PreviewFacts.next_and_prev_are_inverse
                  (Preview.openLightbox 2
                     (Preview.initPreview
                        (Preview.boot (Some Preview.full_parts) Preview.sample_images)))
                  ltac:(vm_compute; split; [discriminate|reflexivity]))).
Defined.

Lemma lightbox_steps_wrap_around_witness :
  let st := Preview.openLightbox 2
              (Preview.initPreview (Preview.boot (Some Preview.full_parts) Preview.sample_images)) in
  Preview.currentIndex (Nat.iter 2 Preview.showNext st) = 1%Z.
Proof.
  exact (proj1 (PreviewFacts.lightbox_steps_wrap_around
                  (Preview.openLightbox 2
                     (Preview.initPreview
                        (Preview.boot (Some Preview.full_parts) Preview.sample_images)))
                  2 ltac:(vm_compute; split; [discriminate|reflexivity]))).
Defined.

Lemma close_returns_focus_to_shown_image_witness :
  let st := Preview.run [Preview.ClickImage 0; Preview.KeydownDocument Preview.KeyArrowLeft]
              (Preview.initPreview (Preview.boot (Some Preview.full_parts) Preview.sample_images)) in
  Preview.focus (Preview.closeLightbox st) = Preview.FocusImage 2.
Proof.
  exact (proj1 (PreviewFacts.close_returns_focus_to_shown_image
                  (Some Preview.full_parts) Preview.sample_images
                  [Preview.ClickImage 0; Preview.KeydownDocument Preview.KeyArrowLeft]
                  eq_refl)).
Defined.

(** * Properties of the navigation helpers *)

Module MainJsFacts.

Import MainJs.

(** The loop over the sections keeps the id of the last one reached. *)
Lemma current_fold secs y : forall cur,
  foldl (fun cur sec => if reached y sec then fst sec else cur) cur secs
  = default cur (fst <$> last (List.filter (reached y) secs)).
Proof.
  induction secs as [|sec secs IH]; intros cur; [reflexivity|]. simpl.
  rewrite IH. destruct (reached y sec); [|reflexivity].
  destruct (List.filter (reached y) secs) as [|s' l'] eqn:Hf; [reflexivity|].
  rewrite (last_cons sec (s' :: l')), last_cons. by destruct (last l').
Qed.

(** X15. updateActiveChapter gives the class 'active' to exactly the
    links whose data-section attribute is the id of the last section,
    in the order intro, layer1, layer2, layer3, conclusion, whose top is
    at most 200 pixels below the scroll position; when no section is
    that far up, that id is the empty string.  A link without the
    attribute is never active, and the attributes are left as they are. *)
Theorem highlight_is_last_reached_section
    (secs : list (string * Z)) (y : QArith_base.Q) (ls : list NavLink) :
  let cur := current_chapter secs y in
  cur = default EmptyString (fst <$> last (List.filter (reached y) secs)) /\
  map data_section (updateActiveChapter secs y ls) = map data_section ls /\
  forall l, l ∈ updateActiveChapter secs y ls ->
    (is_active l = true <-> data_section l = Some cur).
Proof.
  cbv zeta. split; [apply current_fold|]. split.
  - unfold updateActiveChapter. rewrite <- list_fmap_compose.
    by apply list_fmap_ext.
  - intros l Hl. unfold updateActiveChapter in Hl.
    apply list_elem_of_fmap in Hl as (l0 & -> & _). unfold highlight. simpl.
    destruct (data_section l0) as [d|]; [|split; discriminate].
    split.
    + intros H. apply String.eqb_eq in H. by subst.
    + intros [= ->]. apply String.eqb_refl.
Qed.

Lemma highlight_idem cur l : highlight cur (highlight cur l) = highlight cur l.
Proof. reflexivity. Qed.







(** ** Keyboard navigation *)

Local Open Scope Z_scope.

Lemma findIndex_range ls : -1 <= findIndex ls < Z.of_nat (length ls).
Proof.
  induction ls as [|l ls IH]; simpl; [lia|].
  destruct (is_active l); [lia|].
  destruct (Z.ltb_spec (findIndex ls) 0); lia.
Qed.

Lemma findIndex_none ls :
  findIndex ls = -1 <-> Forall (fun l => is_active l = false) ls.
Proof.
  induction ls as [|l ls IH]; simpl; [split; [constructor|done]|].
  pose proof (findIndex_range ls) as Hr.
  destruct (is_active l) eqn:Ha.
  - split; [discriminate|]. intros HF. apply Forall_cons in HF as [HF _]. congruence.
  - destruct (Z.ltb_spec (findIndex ls) 0).
    + split; [|done]. intros _. constructor; [exact Ha|]. apply IH. lia.
    + split; [lia|]. intros HF. apply Forall_cons in HF as [_ HF]. apply IH in HF. lia.
Qed.

(** X17. With at least one link an arrow key always clicks a link that
    exists: ArrowRight and ArrowDown the one after the first active
    link, wrapping from the last to the first, ArrowLeft and ArrowUp
    the one before it, wrapping from the first to the last; when no
    link is active the former click the first link and the latter the
    last.  With no link nothing is clicked. *)
Theorem arrow_keys_click_an_existing_link (ls : list NavLink) :
  let n := Z.of_nat (length ls) in
  let i := findIndex ls in
  (ls = [] -> forall k, keyTarget k ls = None) /\
  (ls <> [] ->
     keyTarget ArrowRight ls = Some (Z.to_nat ((i + 1) mod n)) /\
     keyTarget ArrowDown ls = keyTarget ArrowRight ls /\
     keyTarget ArrowLeft ls = Some (Z.to_nat (if i <=? 0 then n - 1 else i - 1)) /\
     keyTarget ArrowUp ls = keyTarget ArrowLeft ls /\
     forall k j, keyTarget k ls = Some j -> (j < length ls)%nat).
Proof.
  cbv zeta. pose proof (findIndex_range ls) as Hr. split.
  - intros ->. by intros [].
  - intros Hne. assert (Hn : 0 < Z.of_nat (length ls)) by (destruct ls; [done|simpl; lia]).
    assert (Hnext : keyTarget ArrowRight ls
                    = Some (Z.to_nat ((findIndex ls + 1) mod Z.of_nat (length ls)))).
    { unfold keyTarget. destruct (Z.eqb_spec (Z.of_nat (length ls)) 0); [lia|].
      rewrite Z.rem_mod_nonneg by lia.
      pose proof (Z.mod_pos_bound (findIndex ls + 1) _ Hn) as Hb.
      destruct (Z.leb_spec 0 ((findIndex ls + 1) mod Z.of_nat (length ls))); [|lia].
      destruct (Z.ltb_spec ((findIndex ls + 1) mod Z.of_nat (length ls))
                  (Z.of_nat (length ls))); [|lia].
      reflexivity. }
    assert (Hprev : keyTarget ArrowLeft ls
                    = Some (Z.to_nat (if findIndex ls <=? 0
                                      then Z.of_nat (length ls) - 1
                                      else findIndex ls - 1))).
    { unfold keyTarget.
      destruct (Z.ltb_spec (findIndex ls - 1) 0), (Z.leb_spec (findIndex ls) 0); try lia.
      - destruct (Z.leb_spec 0 (Z.of_nat (length ls) - 1)); [|lia].
        destruct (Z.ltb_spec (Z.of_nat (length ls) - 1) (Z.of_nat (length ls))); [|lia].
        reflexivity.
      - destruct (Z.leb_spec 0 (findIndex ls - 1)); [|lia].
        destruct (Z.ltb_spec (findIndex ls - 1) (Z.of_nat (length ls))); [|lia].
        reflexivity. }
    split; [exact Hnext|]. split; [reflexivity|]. split; [exact Hprev|].
    split; [reflexivity|].
    intros k j Hk.
    assert (Hcases : keyTarget k ls = keyTarget ArrowRight ls \/
                     keyTarget k ls = keyTarget ArrowLeft ls) by (destruct k; auto).
    destruct Hcases as [E|E]; rewrite E in Hk.
    + rewrite Hnext in Hk. injection Hk as <-.
      pose proof (Z.mod_pos_bound (findIndex ls + 1) _ Hn). lia.
    + rewrite Hprev in Hk. injection Hk as <-.
      destruct (Z.leb_spec (findIndex ls) 0); lia.
Qed.

(** ** Mobile navigation toggle *)

(** X18. After any click on the toggle or on a link, whatever the page
    shipped, the aria-expanded attribute and the text of the toggle
    agree with the menu: 'true' and the cross when it is open, 'false'
    and the bars when it is closed.  A click on a link leaves the menu
    closed, and two clicks on the toggle leave it as open as it was. *)
Theorem menu_state_is_consistent (m : Menu) (evs : list MenuEvent) (ev : MenuEvent) :
  let m' := foldl menuHandle m (evs ++ [ev]) in
  aria_expanded m' = Some (if menu_open m' then "true" else "false")%string /\
  toggle_text m' = (if menu_open m' then IconClose else IconMenu) /\
  (ev = ClickLink -> menu_open m' = false) /\
  menu_open (menuHandle (menuHandle m' ClickToggle) ClickToggle) = menu_open m'.
Proof.
  cbv zeta. rewrite foldl_app. simpl.
  generalize (foldl menuHandle m evs). intros m0.
  destruct ev; simpl.
  - destruct (menu_open m0); simpl; by repeat split.
  - by repeat split.
Qed.

End MainJsFacts.


(** * The observer is one-shot *)

Section OneShot.

Variable cfg : Config.

Lemma preloadEntry_observed s j : observed (preloadEntry cfg s j) = observed s.
Proof.
  unfold preloadEntry. destruct (wrappers s !! j); [|reflexivity].
  destruct (_ && _); [apply processEmbed_observed | reflexivity].
Qed.

Lemma preload_observed s : observed (preloadVisibleEmbeds cfg s) = observed s.
Proof.
  unfold preloadVisibleEmbeds. generalize (all_wrappers s). intros l. revert s.
  induction l as [|j l IH]; intros s; [reflexivity|]. simpl.
  by rewrite IH, preloadEntry_observed.
Qed.

Lemma observed_settle p st s : observed (settle p st s) = observed s.
Proof. unfold settle. by destruct (promises s !! p) as [[| |]|]. Qed.

Lemma handle_keeps_unobserved ev s w :
  w ∉ observed s -> w ∉ observed (handle cfg ev s).
Proof.
  intros Hn. destruct ev as [b|entries| | |dt|i h|i|v rs]; simpl; try exact Hn.
  - unfold manualClick. destruct (buttons s !! b) as [[w'|]|]; try exact Hn.
    destruct (negb _); [|exact Hn]. by rewrite processEmbed_observed.
  - destruct (entries_observed _ _); [|exact Hn]. by apply observerCallback_unobserved.
  - unfold fireTimer. destruct (pop_timer (timers s)) as [[t rest]|]; [|exact Hn].
    destruct (task t) as [w' rc| |]; simpl.
    + by rewrite processEmbed_observed.
    + unfold hookCallback. simpl. destruct (hook s); exact Hn.
    + rewrite preload_observed. exact Hn.
  - destruct (signal_due s i); [|exact Hn].
    unfold scriptOnload. destruct (scripts s !! i) as [sc|]; [|exact Hn].
    destruct (owner sc) as [p|]; [|exact Hn].
    by rewrite observed_settle.
  - destruct (signal_due s i); [|exact Hn].
    unfold scriptOnerror. destruct (scripts s !! i) as [sc|]; [|exact Hn].
    destruct (owner sc) as [p|]; [|exact Hn].
    by rewrite observed_settle.
Qed.

Lemma run_keeps_unobserved evs : forall s w,
  w ∉ observed s -> w ∉ observed (run cfg evs s).
Proof.
  unfold run. induction evs as [|ev evs IH]; intros s w Hn; [exact Hn|]. simpl.
  apply IH. unfold step.
  destruct (drain_calls_observed cfg (handle cfg ev s)) as [_ ->].
  by apply handle_keeps_unobserved.
Qed.

(** X19. Once the observer has reported a node as intersecting, the node
    is no longer observed, whatever happens afterwards, and the script
    handles no further report about it: the observer activates a node
    through at most one batch of entries. *)
Theorem observer_reports_a_node_once
    (s : State) (entries : list (nat * bool)) (w : nat) (evs : list Event) :
  entries_observed s entries = true ->
  (w, true) ∈ entries ->
  let s' := run cfg evs (step cfg s (EvIntersection entries)) in
  (w ∉ observed s') /\
  (forall entries', w ∈ (fst <$> entries') ->
    handle cfg (EvIntersection entries') s' = s').
Proof.
  intros Hobs Hin. cbv zeta.
  assert (Hn : w ∉ observed (run cfg evs (step cfg s (EvIntersection entries)))).
  { apply run_keeps_unobserved. unfold step.
    destruct (drain_calls_observed cfg (handle cfg (EvIntersection entries) s)) as [_ ->].
    simpl. rewrite Hobs. by apply observerCallback_one_shot. }
  split; [exact Hn|]. intros entries' Hw. simpl.
  destruct (entries_observed _ entries') eqn:E; [|reflexivity].
  exfalso. apply Hn. unfold entries_observed in E.
  apply list_elem_of_fmap in Hw as (e & -> & He).
  rewrite forallb_forall in E. apply list_elem_of_In in He.
  specialize (E e He). by apply bool_decide_eq_true_1 in E.
Qed.

End OneShot.

Lemma observer_reports_a_node_once_witness :
  0 ∉ observed (run CONFIG [EvWindowLoad; EvTimer]
                  (step CONFIG (init CONFIG sample_page) (EvIntersection [(0, true)]))).
Proof.
  apply (proj1 (observer_reports_a_node_once CONFIG (init CONFIG sample_page)
                  [(0, true)] 0 [EvWindowLoad; EvTimer] eq_refl
                  ltac:(apply list_elem_of_here))).
Defined.
